(** * w3-faucet: drip transaction lifecycle and reconciliation engine

    A shallow embedding of
      - packages/shared/src/retry.ts   (error classification, [retryRpc]),
      - apps/worker/src/worker.ts      (nonce lock, fee helpers, job handler),
      - the reconciler module          (owner-token lock, [reconcileBroadcastsOnce]),
    over an explicit world: the request table, the Redis key space, the chain
    endpoint, a clock, the random sources and a trace of the effects issued.

    Conventions of the model.
      - JavaScript strings are [string]s of ASCII characters; case mapping
        touches the letters A-Z / a-z only.
      - JavaScript numbers that are only counted or compared with integers
        are [nat] or [Z]; [bigint] is [Z]. Numbers that enter floating-point
        arithmetic (delays, multipliers, [Math.random()]) are IEEE 754
        doubles, [JsNumber.number]: the finite ones are the rationals that
        [round64] leaves unchanged, and every product and sum is rounded to
        the nearest double, ties to even. A rational given to the model as a
        number ([baseDelayMs], [MAX_FEE_BUMP_MULT], a value of [rnd]) stands
        for the double nearest to it, as a decimal literal does.
      - A timer is armed with the delay Node.js gives it: the integer part of
        its argument, and 1 ms for an argument below 1, above 2147483647 or
        NaN. The clock of the model moves when a timer runs, by that delay.
      - A Redis key is gone once the clock has passed its expiry time.
      - A thrown value is an object described by [JsError].
      - PostgreSQL and Redis are available: [query] and the Redis commands
        return; the chain endpoint may fail on every call. *)

From Stdlib Require Import ZArith QArith Qround Qminmax Qabs Qreduction Qfield.
From Stdlib Require Import Lia Lqa Bool List.
From Stdlib Require Import Ascii String.
From stdpp Require Import base option list gmap strings.
Import ListNotations.

Local Open Scope string_scope.
Local Open Scope Z_scope.

(* ===================================================================== *)
(** ** JavaScript strings                                                *)
(* ===================================================================== *)

Module JsString.

Definition is_upper (c : ascii) : bool :=
  let n := nat_of_ascii c in (65 <=? n)%nat && (n <=? 90)%nat.

Definition is_lower (c : ascii) : bool :=
  let n := nat_of_ascii c in (97 <=? n)%nat && (n <=? 122)%nat.

Definition lower_char (c : ascii) : ascii :=
  if is_upper c then ascii_of_nat (nat_of_ascii c + 32) else c.

Definition upper_char (c : ascii) : ascii :=
  if is_lower c then ascii_of_nat (nat_of_ascii c - 32) else c.

(** [s.toLowerCase()] / [s.toUpperCase()] *)
Fixpoint toLowerCase (s : string) : string :=
  match s with
  | EmptyString => EmptyString
  | String c s' => String (lower_char c) (toLowerCase s')
  end.

Fixpoint toUpperCase (s : string) : string :=
  match s with
  | EmptyString => EmptyString
  | String c s' => String (upper_char c) (toUpperCase s')
  end.

(** Character comparison, exact or ignoring case (the [i] flag). *)
Definition char_eqb (icase : bool) (a b : ascii) : bool :=
  if icase then Ascii.eqb (lower_char a) (lower_char b) else Ascii.eqb a b.

(** [strip icase p s]: the rest of [s] after the prefix [p], if [s] starts
    with [p]. *)
Fixpoint strip (icase : bool) (p s : string) : option string :=
  match p with
  | EmptyString => Some s
  | String a p' =>
      match s with
      | EmptyString => None
      | String b s' => if char_eqb icase a b then strip icase p' s' else None
      end
  end.

(** [s.startsWith(p)] *)
Definition startsWith (p s : string) : bool :=
  match strip false p s with Some _ => true | None => false end.

(** [s.includes(p)] *)
Fixpoint includes (p s : string) : bool :=
  startsWith p s ||
  match s with
  | EmptyString => false
  | String _ s' => includes p s'
  end.

(** [s.slice(0, n)] for [n >= 0]. *)
Fixpoint slice0 (n : nat) (s : string) : string :=
  match n, s with
  | O, _ => EmptyString
  | S _, EmptyString => EmptyString
  | S n', String c s' => String c (slice0 n' s')
  end.

End JsString.

(* ===================================================================== *)
(** ** Regular expressions, as far as the sources use them               *)
(* ===================================================================== *)

Module Regex.
Import JsString.

(** Literals, concatenation, alternation, [r?] and [.*]. *)
Inductive regex : Type :=
| Lit (s : string)
| Seq (a b : regex)
| Alt (a b : regex)
| Opt (a : regex)
| DotStar.

(** [.] matches every character but a line terminator. *)
Definition is_newline (c : ascii) : bool :=
  let n := nat_of_ascii c in (n =? 10)%nat || (n =? 13)%nat.

(** [dotstar k s]: [k] accepts what is left of [s] after some run of
    non-terminator characters. *)
Fixpoint dotstar (k : string -> bool) (s : string) : bool :=
  k s ||
  match s with
  | EmptyString => false
  | String c s' => negb (is_newline c) && dotstar k s'
  end.

(** [matchk icase r k s]: some prefix of [s] matches [r] and [k] accepts
    the rest. *)
Fixpoint matchk (icase : bool) (r : regex) (k : string -> bool) (s : string) : bool :=
  match r with
  | Lit p => match strip icase p s with Some s' => k s' | None => false end
  | Seq a b => matchk icase a (matchk icase b k) s
  | Alt a b => matchk icase a k s || matchk icase b k s
  | Opt a => matchk icase a k s || k s
  | DotStar => dotstar k s
  end.

(** [r.test(s)]: [r] matches somewhere in [s]. *)
Fixpoint test (icase : bool) (r : regex) (s : string) : bool :=
  matchk icase r (fun _ => true) s ||
  match s with
  | EmptyString => false
  | String _ s' => test icase r s'
  end.

(** [a|b|...] *)
Fixpoint alts (rs : list regex) : regex :=
  match rs with
  | [] => Lit ""   (* not used: every alternation below is non-empty *)
  | [r] => r
  | r :: rs' => Alt r (alts rs')
  end.

(** [abc...] *)
Fixpoint seqs (rs : list regex) : regex :=
  match rs with
  | [] => Lit ""
  | [r] => r
  | r :: rs' => Seq r (seqs rs')
  end.

End Regex.

(* ===================================================================== *)
(** ** JavaScript numbers                                                *)
(* ===================================================================== *)

Module JsNumber.

(** A [number]: an IEEE 754 double. A finite double is kept as the rational
    it denotes (the two zeros are one value: the sources never tell them
    apart). *)
Inductive number : Type := Finite (q : Q) | PosInf | NegInf | NaN.

(** [2 ^ e], for an integer [e] of either sign. *)
Definition pow2 (e : Z) : Q :=
  if 0 <=? e then inject_Z (2 ^ e) else 1 # Z.to_pos (2 ^ (- e)).

(** The exponent of a positive rational: [2 ^ ilog2 q <= q < 2 ^ (ilog2 q + 1)]. *)
Definition ilog2 (q : Q) : Z :=
  let k := Z.log2 (Qnum q) - Z.log2 (Zpos (Qden q)) in
  if Qle_bool (pow2 k) q then k else k - 1.

(** The nearest integer, a tie going to the even one. *)
Definition rhe (q : Q) : Z :=
  let f := Qfloor q in
  match (q - inject_Z f ?= 1 # 2)%Q with
  | Lt => f
  | Gt => f + 1
  | Eq => if Z.even f then f else f + 1
  end.

(** The exponent of the last place of the double nearest to [q]: 53
    significant bits, and no place below [2 ^ -1074]. *)
Definition quantum (q : Q) : Z := Z.max (ilog2 (Qabs q) - 52) (-1074).

(** The multiple of the last place nearest to [q]. *)
Definition round64 (q : Q) : Q :=
  if Qeq_bool q 0 then 0%Q
  else Qred (inject_Z (rhe (q / pow2 (quantum q))) * pow2 (quantum q)).

(** The double an exact result [q] is rounded to; what rounds to [2 ^ 1024]
    or beyond overflows. *)
Definition fl (q : Q) : number :=
  let x := round64 q in
  if Qle_bool (pow2 1024) x then PosInf
  else if Qle_bool x (- pow2 1024) then NegInf
  else Finite x.

(** [x * y] *)
Definition js_mul (x y : number) : number :=
  match x, y with
  | NaN, _ | _, NaN => NaN
  | Finite a, Finite b => fl (a * b)
  | Finite a, PosInf | PosInf, Finite a =>
      match (a ?= 0)%Q with Gt => PosInf | Lt => NegInf | Eq => NaN end
  | Finite a, NegInf | NegInf, Finite a =>
      match (a ?= 0)%Q with Gt => NegInf | Lt => PosInf | Eq => NaN end
  | PosInf, PosInf | NegInf, NegInf => PosInf
  | PosInf, NegInf | NegInf, PosInf => NegInf
  end.

(** [x + y] *)
Definition js_add (x y : number) : number :=
  match x, y with
  | NaN, _ | _, NaN => NaN
  | Finite a, Finite b => fl (a + b)
  | PosInf, NegInf | NegInf, PosInf => NaN
  | PosInf, _ | _, PosInf => PosInf
  | NegInf, _ | _, NegInf => NegInf
  end.

(** [Math.min(x, y)] *)
Definition js_min (x y : number) : number :=
  match x, y with
  | NaN, _ | _, NaN => NaN
  | NegInf, _ | _, NegInf => NegInf
  | PosInf, z | z, PosInf => z
  | Finite a, Finite b => Finite (if Qle_bool a b then a else b)
  end.

(** [Math.floor(x)] *)
Definition js_floor (x : number) : number :=
  match x with Finite a => Finite (inject_Z (Qfloor a)) | _ => x end.

(** [Math.round(x)]: the nearest integer, a tie going up. *)
Definition js_round (x : number) : number :=
  match x with Finite a => Finite (inject_Z (Qfloor (a + (1 # 2)))) | _ => x end.

(** [2 ** n] for a count [n]: exact up to [2 ** 1023], [Infinity] beyond. *)
Definition js_pow2 (n : nat) : number :=
  if (n <? 1024)%nat then Finite (inject_Z (2 ^ Z.of_nat n)) else PosInf.

(** The value of a decimal literal, and of a rational handed to the model
    as a number: the double nearest to it. *)
Definition lit (q : Q) : number := fl q.

(** [x === k] and [lo <= x && x < hi] for integers [k], [lo], [hi]. *)
Definition js_is (x : number) (k : Z) : bool :=
  match x with Finite q => Qeq_bool q (inject_Z k) | _ => false end.

Definition js_in (x : number) (lo hi : Z) : bool :=
  match x with
  | Finite q => Qle_bool (inject_Z lo) q && negb (Qle_bool (inject_Z hi) q)
  | _ => false
  end.
End JsNumber.

Import JsNumber.

(* ===================================================================== *)
(** ** Thrown values                                                     *)
(* ===================================================================== *)

(** A status field of a caught value: absent ([undefined] or [null]), a
    number, or a value of another type (a string such as ['400'], say),
    which is known by the number [Number(...)] makes of it. *)
Inductive JsStatus : Type :=
| StUndefined
| StNull
| StNumber (x : number)
| StOther (coerced : number).

(** [a ?? b] on status fields. *)
Definition status_or (a b : JsStatus) : JsStatus :=
  match a with StUndefined | StNull => b | _ => a end.

(** [Number.isFinite(s) ? Number(s) : NaN]: only a value that is a number
    already, and a finite one, is kept. *)
Definition finite_or_NaN (s : JsStatus) : number :=
  match s with StNumber (Finite q) => Finite q | _ => NaN end.

(** [Number(s)]: a value of another type is converted. *)
Definition to_number (s : JsStatus) : number :=
  match s with
  | StUndefined => NaN
  | StNull => Finite 0
  | StNumber x => x
  | StOther x => x
  end.

(** The fields of a caught value that the sources inspect:
    [err.code], [err.status], [err.response.status], [err.message],
    [err.response.data.message], [err.body], and [String(err)]. An absent
    (undefined or null) string field is [None]. *)
Record JsError : Type := mkJsError {
  e_code          : option string;
  e_status        : JsStatus;
  e_resp_status   : JsStatus;
  e_message       : option string;
  e_resp_message  : option string;
  e_body          : option string;
  e_text          : string
}.

(** [new Error(msg)] *)
Definition newError (msg : string) : JsError :=
  {| e_code := None; e_status := StUndefined; e_resp_status := StUndefined;
     e_message := Some msg; e_resp_message := None; e_body := None;
     e_text := "Error: " ++ msg |}.

(** [a ?? b] on an optional field. *)
Definition nullish {A} (a : option A) (b : option A) : option A :=
  match a with Some _ => a | None => b end.

Infix "??" := nullish (at level 45, right associativity).

(** [n === k] for an integer field that may be null ([None]). *)
Definition num_is (n : option Z) (k : Z) : bool :=
  match n with Some z => z =? k | None => false end.




(* ===================================================================== *)
(** ** The request table (sql/001_init.sql, sql/004_broadcast_idx.sql)   *)
(* ===================================================================== *)

(** [CHECK (status IN ('queued','broadcast','sent','failed'))] *)
Inductive Status : Type := Queued | Broadcast | Sent | Failed.

Definition Status_eqb (a b : Status) : bool :=
  match a, b with
  | Queued, Queued | Broadcast, Broadcast | Sent, Sent | Failed, Failed => true
  | _, _ => false
  end.

(** [RequestRow] *)
Record Row : Type := mkRow {
  id         : Z;
  address    : string;
  ip         : string;
  created_at : Z;
  status     : Status;
  tx_hash    : option string;
  reason     : option string
}.

Definition Table : Type := list Row.

(** What [SELECT id, tx_hash ...] returns for a row. *)
Record Fetched : Type := mkFetched {
  f_id      : Z;
  f_tx_hash : option string
}.

(** The statements the worker and the reconciler send, with their
    parameters. *)
Inductive Sql : Type :=
| SetFailed (reason_ : string) (id_ : Z)
    (* UPDATE requests SET status='failed', reason=$1 WHERE id=$2 *)
| SetBroadcast (hash : string) (id_ : Z)
    (* UPDATE requests SET status='broadcast', tx_hash=$1 WHERE id=$2 *)
| SetSentIfHash (id_ : Z) (hash : string)
    (* UPDATE requests SET status='sent' WHERE id=$1 AND tx_hash=$2 *)
| SetSent (id_ : Z)
    (* UPDATE requests SET status='sent' WHERE id=$1 *)
| SelectBroadcast (limit : nat)
    (* SELECT id, tx_hash FROM requests WHERE status='broadcast'
       ORDER BY created_at ASC LIMIT $1 *).

Module Db.

Definition with_status (s : Status) (r : Row) : Row :=
  {| id := id r; address := address r; ip := ip r; created_at := created_at r;
     status := s; tx_hash := tx_hash r; reason := reason r |}.

Definition with_reason (m : string) (r : Row) : Row :=
  {| id := id r; address := address r; ip := ip r; created_at := created_at r;
     status := status r; tx_hash := tx_hash r; reason := Some m |}.

Definition with_tx_hash (h : string) (r : Row) : Row :=
  {| id := id r; address := address r; ip := ip r; created_at := created_at r;
     status := status r; tx_hash := Some h; reason := reason r |}.

(** [tx_hash = $2]: never true of a NULL column. *)
Definition hash_is (h : string) (r : Row) : bool :=
  match tx_hash r with Some h' => String.eqb h' h | None => false end.

(** [UPDATE requests SET ... WHERE cond]: every row satisfying [cond] is
    rewritten, the others are kept, the order is kept. *)
Definition update_where (cond : Row -> bool) (set : Row -> Row) (t : Table) : Table :=
  map (fun r => if cond r then set r else r) t.

(** Stable insertion by [created_at]: rows with equal times keep their
    table order. *)
Fixpoint insert_by_created (r : Row) (l : list Row) : list Row :=
  match l with
  | [] => [r]
  | x :: l' =>
      if created_at r <=? created_at x then r :: x :: l'
      else x :: insert_by_created r l'
  end.

Definition order_by_created (l : list Row) : list Row :=
  foldr insert_by_created [] l.

Definition fetched (r : Row) : Fetched :=
  {| f_id := id r; f_tx_hash := tx_hash r |}.

Definition select_broadcast (limit : nat) (t : Table) : list Fetched :=
  map fetched
    (firstn limit
       (order_by_created (List.filter (fun r => Status_eqb (status r) Broadcast) t))).

(** The table after a statement. *)
Definition exec (s : Sql) (t : Table) : Table :=
  match s with
  | SetFailed m i =>
      update_where (fun r => id r =? i)
        (fun r => with_reason m (with_status Failed r)) t
  | SetBroadcast h i =>
      update_where (fun r => id r =? i)
        (fun r => with_tx_hash h (with_status Broadcast r)) t
  | SetSentIfHash i h =>
      update_where (fun r => (id r =? i) && hash_is h r) (with_status Sent) t
  | SetSent i =>
      update_where (fun r => id r =? i) (with_status Sent) t
  | SelectBroadcast _ => t
  end.

(** The rows a statement returns. *)
Definition rows (s : Sql) (t : Table) : list Fetched :=
  match s with
  | SelectBroadcast n => select_broadcast n t
  | _ => []
  end.

End Db.

(* ===================================================================== *)
(** ** The Redis key space                                               *)
(* ===================================================================== *)

Inductive RVal : Type :=
| VStr (s : string)
| VInt (n : Z).

Definition RVal_eqb (a b : RVal) : bool :=
  match a, b with
  | VStr s, VStr s' => String.eqb s s'
  | VInt n, VInt n' => n =? n'
  | _, _ => false
  end.

(** A key's value and the time (ms) at which it expires, if it does. *)
Record Entry : Type := mkEntry {
  r_val : RVal;
  r_exp : option Z
}.

Module Redis.

(** A key is expired once the time is past its expiry ([now > when]). *)
Definition live (now : Z) (e : Entry) : bool :=
  match r_exp e with Some t => now <=? t | None => true end.

(** [GET key] *)
Definition get (now : Z) (key : string) (kv : gmap string Entry) : option RVal :=
  match kv !! key with
  | Some e => if live now e then Some (r_val e) else None
  | None => None
  end.

(** [SET key v NX PX ttl]: the new store and whether the reply is OK. *)
Definition set_nx_px (now : Z) (key : string) (v : RVal) (ttlMs : Z)
    (kv : gmap string Entry) : bool * gmap string Entry :=
  match get now key kv with
  | Some _ => (false, kv)
  | None => (true, <[key := {| r_val := v; r_exp := Some (now + ttlMs) |}]> kv)
  end.

(** [DEL key]: the new store and the number of keys removed. *)
Definition del (now : Z) (key : string) (kv : gmap string Entry) : Z * gmap string Entry :=
  match get now key kv with
  | Some _ => (1, delete key kv)
  | None => (0, delete key kv)
  end.

(** [EVAL UNLOCK_LUA 1 key token], one indivisible command:
    [if redis.call("get", KEYS[1]) == ARGV[1] then return redis.call("del", KEYS[1]) else return 0 end] *)
Definition eval_unlock (now : Z) (key : string) (token : string)
    (kv : gmap string Entry) : Z * gmap string Entry :=
  match get now key kv with
  | Some v => if RVal_eqb v (VStr token) then del now key kv else (0, kv)
  | None => (0, kv)
  end.

(** [INCRBY key n]; a key that does not hold an integer is an error. *)
Definition incrby (now : Z) (key : string) (n : Z)
    (kv : gmap string Entry) : option (Z * gmap string Entry) :=
  match kv !! key with
  | Some e =>
      if live now e then
        match r_val e with
        | VInt k => Some (k + n, <[key := {| r_val := VInt (k + n); r_exp := r_exp e |}]> kv)
        | VStr _ => None
        end
      else Some (n, <[key := {| r_val := VInt n; r_exp := None |}]> kv)
  | None => Some (n, <[key := {| r_val := VInt n; r_exp := None |}]> kv)
  end.

End Redis.

Inductive RedisCmd : Type :=
| RSetNxEx (key : string) (v : string) (ttlSec : Z)
| RSetNxPx (key : string) (v : string) (ttlMs : Z)
| RDel (key : string)
| REvalUnlock (key : string) (token : string)
| RIncrBy (key : string) (n : Z).

(* ===================================================================== *)
(** ** The chain endpoint and the ethers helpers                         *)
(* ===================================================================== *)

(** Outcome of an awaited call: a value, or a thrown error. *)
Inductive Res (A : Type) : Type :=
| Ok (a : A)
| Throw (e : JsError).

Arguments Ok {A} a.
Arguments Throw {A} e.

(** [FeeData]: each field is a [bigint] or null. *)
Record FeeData : Type := mkFeeData {
  fd_gasPrice             : option Z;
  fd_maxFeePerGas         : option Z;
  fd_maxPriorityFeePerGas : option Z
}.

(** The transaction request passed to [wallet.sendTransaction]. *)
Record TxRequest : Type := mkTxRequest {
  tx_to                   : string;
  tx_value                : Z;
  tx_gasLimit             : Z;
  tx_maxFeePerGas         : Z;
  tx_maxPriorityFeePerGas : option Z
}.

(** A receipt, of which only [status] is read ([number | null]). *)
Record Receipt : Type := mkReceipt {
  rcpt_status : option Z
}.

Inductive RpcCall : Type :=
| CGetFeeData
| CGetBalance (addr : string)
| CEstimateGas (to : string) (value : Z)
| CSendTransaction (req : TxRequest)
| CWaitForTransaction (hash : string) (confirms : Z) (timeoutMs : Z)
| CGetTransactionReceipt (hash : string).

(** The ethers provider and wallet, over an abstract state [Chain] of the
    network and endpoint. Every call may throw. *)
Class Provider (Chain : Type) : Type := {
  getFeeData            : Chain -> Res FeeData * Chain;
  getBalance            : string -> Chain -> Res Z * Chain;
  estimateGas           : string -> Z -> Chain -> Res Z * Chain;
  sendTransaction       : TxRequest -> Chain -> Res string * Chain;
  waitForTransaction    : string -> Z -> Z -> Chain -> Res unit * Chain;
  getTransactionReceipt : string -> Chain -> Res (option Receipt) * Chain;
  isAddress             : string -> bool;
  parseEther            : string -> Res Z
}.

(** The environment variables read at start-up and the wallet address. *)
Record Config : Type := mkConfig {
  DRIP_AMOUNT        : string;
  TX_WAIT_TIMEOUT_MS : Z;
  FALLBACK_GAS_LIMIT : Z;
  MAX_FEE_BUMP_MULT  : Q;
  sender             : string;
  BATCH              : nat;
  MAX_LOOPS          : nat;
  LOCK_TTL_MS        : Z
}.

(** The defaults of worker.ts and of the reconciler, for a wallet address. *)
Definition default_config (wallet_address : string) : Config :=
  {| DRIP_AMOUNT := "0.02";
     TX_WAIT_TIMEOUT_MS := 120000;
     FALLBACK_GAS_LIMIT := 21000;
     MAX_FEE_BUMP_MULT := 125 # 100;
     sender := JsString.toLowerCase wallet_address;
     BATCH := 200;
     MAX_LOOPS := 20;
     LOCK_TTL_MS := 55000 |}.

(* ===================================================================== *)
(** ** Worlds, effects and programs                                      *)
(* ===================================================================== *)

Inductive Event : Type :=
| EvSleep (ms : Q)
| EvSql (s : Sql)
| EvRedis (c : RedisCmd)
| EvRpc (c : RpcCall).

Section Engine.

Context {Chain : Type} `{Provider Chain}.

(** Everything a program can read or change. [rnd] is the stream of values
    [Math.random()] will return, [tok] the stream of tokens [randHex] will
    return; [trace] lists the effects issued so far, oldest first. *)
Record World : Type := mkWorld {
  chain : Chain;
  db    : Table;
  kv    : gmap string Entry;
  now   : Z;
  rnd   : nat -> Q;
  tok   : nat -> string;
  trace : list Event
}.

Definition set_chain (c : Chain) (w : World) : World :=
  {| chain := c; db := db w; kv := kv w; now := now w; rnd := rnd w;
     tok := tok w; trace := trace w |}.

Definition set_db (t : Table) (w : World) : World :=
  {| chain := chain w; db := t; kv := kv w; now := now w; rnd := rnd w;
     tok := tok w; trace := trace w |}.

Definition set_kv (m : gmap string Entry) (w : World) : World :=
  {| chain := chain w; db := db w; kv := m; now := now w; rnd := rnd w;
     tok := tok w; trace := trace w |}.

(** Time passes. *)
Definition advance (ms : Z) (w : World) : World :=
  {| chain := chain w; db := db w; kv := kv w; now := now w + ms; rnd := rnd w;
     tok := tok w; trace := trace w |}.

Definition next_rnd (w : World) : World :=
  {| chain := chain w; db := db w; kv := kv w; now := now w;
     rnd := fun n => rnd w (S n); tok := tok w; trace := trace w |}.

Definition next_tok (w : World) : World :=
  {| chain := chain w; db := db w; kv := kv w; now := now w; rnd := rnd w;
     tok := fun n => tok w (S n); trace := trace w |}.

Definition log (e : Event) (w : World) : World :=
  {| chain := chain w; db := db w; kv := kv w; now := now w; rnd := rnd w;
     tok := tok w; trace := trace w ++ [e] |}.

(** An awaited operation: it returns or throws, and leaves a world. *)
Definition Op (A : Type) : Type := World -> Res A * World.

(** A program: as [Op], or no result within the fuel given to its loops. *)
Definition M (A : Type) : Type := World -> option (Res A * World).

Definition ret {A} (a : A) : M A := fun w => Some (Ok a, w).

Definition throw {A} (e : JsError) : M A := fun w => Some (Throw e, w).

Definition bind {A B} (m : M A) (k : A -> M B) : M B :=
  fun w =>
    match m w with
    | None => None
    | Some (Throw e, w') => Some (Throw e, w')
    | Some (Ok a, w') => k a w'
    end.

Definition lift {A} (op : Op A) : M A := fun w => Some (op w).

(** [try { body } catch (e) { handler e }] *)
Definition tryCatch {A} (body : M A) (handler : JsError -> M A) : M A :=
  fun w =>
    match body w with
    | None => None
    | Some (Throw e, w') => handler e w'
    | Some (Ok a, w') => Some (Ok a, w')
    end.

(** [try { body } finally { fin }]: [fin] runs on every exit of [body]; the
    outcome is that of [body] unless [fin] throws. *)
Definition tryFinally {A} (body : M A) (fin : M unit) : M A :=
  fun w =>
    match body w with
    | None => None
    | Some (r, w') =>
        match fin w' with
        | None => None
        | Some (Throw e, w'') => Some (Throw e, w'')
        | Some (Ok _, w'') => Some (r, w'')
        end
    end.

(** A call of the provider, recorded when it is issued. *)
Definition rpc {A} (c : RpcCall) (f : Chain -> Res A * Chain) : Op A :=
  fun w =>
    let w1 := log (EvRpc c) w in
    let '(r, ch) := f (chain w1) in
    (r, set_chain ch w1).

(** [await query(text, params)] (packages/shared/src/db.ts): the statement is
    run against the table and its rows are returned. *)
Definition query (s : Sql) : Op (list Fetched) :=
  fun w => (Ok (Db.rows s (db w)), set_db (Db.exec s (db w)) (log (EvSql s) w)).

End Engine.

Declare Scope prog_scope.
Delimit Scope prog_scope with prog.
Notation "'let!' x ':=' m 'in' k" := (bind m (fun x => k))
  (at level 10, x name, m at level 100, k at level 200) : prog_scope.
Notation "m ';;;' k" := (bind m (fun _ => k))
  (at level 100, k at level 200, right associativity) : prog_scope.

Arguments World : clear implicits.
Arguments Op : clear implicits.
Arguments M : clear implicits.

(* ===================================================================== *)
(** ** packages/shared/src/retry.ts                                      *)
(* ===================================================================== *)

Module Retry.
Import JsString Regex.

(** [String(err?.code ?? "").toUpperCase()] *)
Definition toCode (err : JsError) : string :=
  toUpperCase (default "" (e_code err)).

(** [const s = err?.status ?? err?.response?.status;
     return Number.isFinite(s) ? Number(s) : NaN] *)
Definition toStatus (err : JsError) : number :=
  finite_or_NaN (status_or (e_status err) (e_resp_status err)).

(** [String((err?.message ?? err?.response?.data?.message ?? err?.body ?? err) ?? "").toLowerCase()] *)
Definition toMsg (err : JsError) : string :=
  toLowerCase
    (default (e_text err)
       (e_message err ?? e_resp_message err ?? e_body err)).

(** [/ec?onn?(refused|reset)|timed?out|dns|socket|temporar|unreachable|network/i] *)
Definition re_network : regex :=
  alts [ seqs [Lit "e"; Opt (Lit "c"); Lit "on"; Opt (Lit "n");
               Alt (Lit "refused") (Lit "reset")];
         seqs [Lit "time"; Opt (Lit "d"); Lit "out"];
         Lit "dns"; Lit "socket"; Lit "temporar"; Lit "unreachable";
         Lit "network" ].

(** [/rate|quota|throttle|forbidden.*rate/] *)
Definition re_throttle : regex :=
  alts [ Lit "rate"; Lit "quota"; Lit "throttle";
         seqs [Lit "forbidden"; DotStar; Lit "rate"] ].

(** [/revert|execution reverted|invalid argument|invalid address|insufficient funds|bad response/i] *)
Definition re_failFast : regex :=
  alts [ Lit "revert"; Lit "execution reverted"; Lit "invalid argument";
         Lit "invalid address"; Lit "insufficient funds"; Lit "bad response" ].

Definition isRetryableError (error : JsError) : bool :=
  let code := toCode error in
  let status := toStatus error in
  let msg := toMsg error in
  if includes "NETWORK" code || includes "TIMEOUT" code then true
  else if test true re_network msg then true
  else if js_is status 429 then true
  else if js_in status 500 600 then true
  else if js_is status 403 && test false re_throttle msg then true
  else false.

(** The [failFast] flag computed in the [catch] of [retryRpc]. *)
Definition failFast (err : JsError) : bool :=
  let status := toStatus err in
  let code := toCode err in
  let msg := toMsg err in
  js_is status 400 || js_is status 401 ||
  includes "CALL_EXCEPTION" code || includes "UNPREDICTABLE_GAS_LIMIT" code ||
  test true re_failFast msg.

Definition MAX_DELAY_MS : Z := 15000.

(** Lines 63-65 of retry.ts, for the value [r] returned by [Math.random()]:
    [base = Math.min(baseDelayMs * 2 ** attempt, MAX_DELAY_MS)],
    [jitterMult = 1.10 + r * 0.15],
    [delay = Math.min(Math.floor(base * jitterMult), MAX_DELAY_MS)]. *)
Definition backoffBase (baseDelayMs : Q) (attempt : nat) : number :=
  js_min (js_mul (lit baseDelayMs) (js_pow2 attempt)) (Finite (inject_Z MAX_DELAY_MS)).

Definition jitterMult (r : Q) : number :=
  js_add (lit (110 # 100)) (js_mul (lit r) (lit (15 # 100))).

Definition delayMs (baseDelayMs : Q) (attempt : nat) (r : Q) : number :=
  js_min (js_floor (js_mul (backoffBase baseDelayMs attempt) (jitterMult r)))
         (Finite (inject_Z MAX_DELAY_MS)).

(** [setTimeout(f, ms)] (Node.js): the delay of the timer in milliseconds.
    A delay that is not an integer is truncated; one below 1, above
    2147483647 or NaN is set to 1. *)
Definition timeout (ms : number) : Z :=
  match ms with
  | Finite q =>
      if Qle_bool 1 q && Qle_bool q (inject_Z 2147483647) then Qfloor q else 1
  | _ => 1
  end.

(** The delay of the timer that [sleep(delay)] arms. *)
Definition backoffDelay (baseDelayMs : Q) (attempt : nat) (r : Q) : Z :=
  timeout (delayMs baseDelayMs attempt r).

Section RetryRpc.

Context {Chain : Type} `{Provider Chain}.
Local Open Scope prog_scope.

(** [await sleep(ms)], that is [new Promise(r => setTimeout(r, ms))]: the
    trace records the delay of the timer and the clock moves by it. *)
Definition sleep (ms : number) : Op Chain unit :=
  fun w => (Ok tt, advance (timeout ms) (log (EvSleep (inject_Z (timeout ms))) w)).

(** [Math.random()] *)
Definition random : Op Chain Q :=
  fun w => (Ok (rnd w 0%nat), next_rnd w).

(** No result within the fuel. *)
Definition out_of_fuel {A} : M Chain A := fun _ => None.

(** The [while (true)] loop of [retryRpc], [fuel] iterations of it, entered
    with the given value of [attempt]. *)
Fixpoint retryLoop {T} (fn : Op Chain T) (maxRetries : nat) (baseDelayMs : Q)
    (fuel : nat) (attempt : nat) : M Chain T :=
  match fuel with
  | O => out_of_fuel
  | S fuel' =>
      tryCatch (lift fn) (fun err =>
        if failFast err || (maxRetries <=? attempt)%nat || negb (isRetryableError err)
        then throw err
        else
          let! r := lift random in
          lift (sleep (delayMs baseDelayMs attempt r)) ;;;
          retryLoop fn maxRetries baseDelayMs fuel' (S attempt))
  end.

(** [retryRpc(fn, maxRetries, baseDelayMs)]. The loop leaves at the latest
    when [attempt] reaches [maxRetries], so [maxRetries + 1] iterations
    suffice ([retryRpc_returns]). *)
Definition retryRpc {T} (fn : Op Chain T) (maxRetries : nat) (baseDelayMs : Q) : M Chain T :=
  retryLoop fn maxRetries baseDelayMs (S maxRetries) 0.

(** [retryRpc(fn)] with the default parameters. *)
Definition retryRpc_default {T} (fn : Op Chain T) : M Chain T :=
  retryRpc fn 3 (500 # 1).

(** The world after the backoff that follows a failed attempt: one value of
    [Math.random()] is consumed and the delay is slept. *)
Definition backoff (baseDelayMs : Q) (attempt : nat) (w : World Chain) : World Chain :=
  let d := backoffDelay baseDelayMs attempt (rnd w 0%nat) in
  advance d (log (EvSleep (inject_Z d)) (next_rnd w)).

(** [FailsThenReturns fn bd a n w v w']: called at [w] as attempt number [a],
    [fn] throws [n] times in a row, each time an error that is retryable and
    not fail-fast and is followed by the backoff, and its next call returns
    [v], leaving [w']. *)
Inductive FailsThenReturns {T} (fn : Op Chain T) (baseDelayMs : Q) :
    nat -> nat -> World Chain -> T -> World Chain -> Prop :=
| ftr_returns a w v w' :
    fn w = (Ok v, w') ->
    FailsThenReturns fn baseDelayMs a 0 w v w'
| ftr_fails a n w e w1 v w' :
    fn w = (Throw e, w1) ->
    failFast e = false ->
    isRetryableError e = true ->
    FailsThenReturns fn baseDelayMs (S a) n (backoff baseDelayMs a w1) v w' ->
    FailsThenReturns fn baseDelayMs a (S n) w v w'.

(** [KeepsFailing fn bd a n w e w']: called at [w] as attempt number [a],
    [fn] throws on [n] calls in a row; the errors before the last are
    retryable and not fail-fast and are followed by the backoff; the last
    call throws [e] and leaves [w']. *)
Inductive KeepsFailing {T} (fn : Op Chain T) (baseDelayMs : Q) :
    nat -> nat -> World Chain -> JsError -> World Chain -> Prop :=
| kf_last a w e w' :
    fn w = (Throw e, w') ->
    KeepsFailing fn baseDelayMs a 1 w e w'
| kf_more a n w e0 w1 e w' :
    fn w = (Throw e0, w1) ->
    failFast e0 = false ->
    isRetryableError e0 = true ->
    KeepsFailing fn baseDelayMs (S a) n (backoff baseDelayMs a w1) e w' ->
    KeepsFailing fn baseDelayMs a (S n) w e w'.

End RetryRpc.

End Retry.

(* ===================================================================== *)
(** ** apps/worker/src/worker.ts                                         *)
(* ===================================================================== *)

(** [DripJob] *)
Record DripJob : Type := mkDripJob {
  requestId : Z;
  j_address : string;
  j_ip      : string
}.

(** What [getFeeSuggestion] returns. *)
Record FeeSuggestion : Type := mkFeeSuggestion {
  maxPriorityFeePerGas : Z;
  maxFeePerGas         : Z;
  gasPrice             : Z
}.

Module Worker.
Import JsString Regex Retry.

Section Worker.

Context {Chain : Type} `{Provider Chain}.
Variable cfg : Config.
Local Open Scope prog_scope.

Definition lockKey (s : string) : string := "nonce-lock:" ++ s.

(** [redis.set(key, "1", "NX", "EX", ttlSec)], true when the reply is OK. *)
Definition acquireLock (key : string) (ttlSec : Z) : Op Chain bool :=
  fun w =>
    let w1 := log (EvRedis (RSetNxEx key "1" ttlSec)) w in
    let '(ok, kv') := Redis.set_nx_px (now w1) key (VStr "1") (ttlSec * 1000) (kv w1) in
    (Ok ok, set_kv kv' w1).

(** The [for] loop of [acquireLockWithBackoff] with [n] iterations left. *)
Fixpoint acquireLockLoop (key : string) (ttlSec : Z) (n : nat) (delay : number) : M Chain bool :=
  match n with
  | O => ret false
  | S n' =>
      let! got := lift (acquireLock key ttlSec) in
      if got then ret true
      else
        let! r := lift random in
        lift (sleep (js_add delay (js_mul (lit r) (Finite (80 # 1))))) ;;;
        acquireLockLoop key ttlSec n' (js_floor (js_mul delay (lit (15 # 10))))
  end.

Definition acquireLockWithBackoff (key : string) (ttlSec : Z) : M Chain bool :=
  acquireLockLoop key ttlSec 4 (Finite (150 # 1)).

(** [try { await redis.del(key); } catch {}] *)
Definition releaseLock (key : string) : Op Chain unit :=
  fun w =>
    let w1 := log (EvRedis (RDel key)) w in
    let '(_, kv') := Redis.del (now w1) key (kv w1) in
    (Ok tt, set_kv kv' w1).

(** What [BigInt(m)] throws for a number that is not an integer. *)
Definition rangeError (shown : string) : JsError :=
  let msg := "The number " ++ shown
             ++ " cannot be converted to a BigInt because it is not an integer" in
  {| e_code := None; e_status := StUndefined; e_resp_status := StUndefined;
     e_message := Some msg; e_resp_message := None; e_body := None;
     e_text := "RangeError: " ++ msg |}.

(** [Math.round(mult * 100)] *)
Definition percent (mult : Q) : number :=
  js_round (js_mul (lit mult) (Finite (100 # 1))).

(** [(x * BigInt(Math.round(mult * 100))) / 100n]; [bigint] division
    truncates, and [BigInt] throws for a number that is not finite. *)
Definition bumpBig (x : Z) (mult : Q) : Res Z :=
  match percent mult with
  | Finite m => Ok (Z.quot (x * Qfloor m) 100)
  | PosInf => Throw (rangeError "Infinity")
  | NegInf => Throw (rangeError "-Infinity")
  | NaN => Throw (rangeError "NaN")
  end.

Definition getFeeSuggestion : M Chain FeeSuggestion :=
  let! fee := retryRpc_default (rpc CGetFeeData getFeeData) in
  let gasPrice := default (1 * 10 ^ 9) (fd_gasPrice fee) in
  let maxPrio := default (Z.quot gasPrice 2) (fd_maxPriorityFeePerGas fee) in
  let maxFee := default (gasPrice + maxPrio) (fd_maxFeePerGas fee) in
  let! bumpedPrio := (fun w => Some (bumpBig maxPrio (MAX_FEE_BUMP_MULT cfg), w)) in
  let! bumpedFee := (fun w => Some (bumpBig maxFee (MAX_FEE_BUMP_MULT cfg), w)) in
  let! bumpedPrice := (fun w => Some (bumpBig gasPrice (MAX_FEE_BUMP_MULT cfg), w)) in
  ret {| maxPriorityFeePerGas := bumpedPrio;
         maxFeePerGas := bumpedFee;
         gasPrice := bumpedPrice |}.

Definition ensureBalanceCovers (amountWei feeWei : Z) : M Chain unit :=
  let! bal := retryRpc_default (rpc (CGetBalance (sender cfg)) (getBalance (sender cfg))) in
  if bal <? amountWei + feeWei
  then throw (newError "insufficient funds in faucet wallet for amount+fees")
  else ret tt.

(** [/revert|execution reverted|invalid argument|invalid address|insufficient funds/i] *)
Definition re_permanent : regex :=
  alts [ Lit "revert"; Lit "execution reverted"; Lit "invalid argument";
         Lit "invalid address"; Lit "insufficient funds" ].

Definition isPermanentError (err : JsError) : bool :=
  let code := toUpperCase (default "" (e_code err)) in
  let status := to_number (e_status err) in
  let msg := toLowerCase (default (e_text err) (e_message err)) in
  js_is status 400 || js_is status 401 ||
  includes "CALL_EXCEPTION" code || includes "UNPREDICTABLE_GAS_LIMIT" code ||
  test true re_permanent msg.

Definition formatReason (err : JsError) : string :=
  let msg := default (e_text err) (e_message err) in
  slice0 400 msg.

(** [String(e?.message ?? "").toLowerCase().includes("timeout")] *)
Definition isWaitTimeout (e : JsError) : bool :=
  includes "timeout" (toLowerCase (default "" (e_message e))).

(** The inner [try]/[catch] around the confirmation wait (lines 136-148). *)
Definition confirm (requestId : Z) (hash : string) : M Chain unit :=
  tryCatch
    (retryRpc_default
       (rpc (CWaitForTransaction hash 1 (TX_WAIT_TIMEOUT_MS cfg))
            (waitForTransaction hash 1 (TX_WAIT_TIMEOUT_MS cfg))) ;;;
     lift (query (SetSentIfHash requestId hash)) ;;;
     ret tt)
    (fun e => if isWaitTimeout e then ret tt else throw e).

(** The outer [try] up to the checkpoint (lines 108-133): gas limit, fees,
    balance check, submission, and the statement that records the hash; the
    value is the hash of the submitted transaction. *)
Definition broadcast (job : DripJob) : M Chain string :=
  let! amountWei := (fun w => Some (parseEther (DRIP_AMOUNT cfg), w)) in
  let! gasLimit :=
    tryCatch
      (retryRpc_default
         (rpc (CEstimateGas (j_address job) amountWei)
              (estimateGas (j_address job) amountWei)))
      (fun _ => ret (FALLBACK_GAS_LIMIT cfg)) in
  let! fees := getFeeSuggestion in
  let effectiveFeePerGas := maxFeePerGas fees in
  let feeCost := effectiveFeePerGas * gasLimit in
  ensureBalanceCovers amountWei feeCost ;;;
  let req := {| tx_to := j_address job; tx_value := amountWei;
                tx_gasLimit := gasLimit; tx_maxFeePerGas := maxFeePerGas fees;
                tx_maxPriorityFeePerGas := None |} in
  let! hash := retryRpc_default (rpc (CSendTransaction req) (sendTransaction req)) in
  lift (query (SetBroadcast hash (requestId job))) ;;;
  ret hash.

(** The outer [try] up to the submission (lines 108-121): amount, gas
    limit, fees and balance check; the value is the transaction that
    [wallet.sendTransaction] is given. *)
Definition prepare (job : DripJob) : M Chain TxRequest :=
  let! amountWei := (fun w => Some (parseEther (DRIP_AMOUNT cfg), w)) in
  let! gasLimit :=
    tryCatch
      (retryRpc_default
         (rpc (CEstimateGas (j_address job) amountWei)
              (estimateGas (j_address job) amountWei)))
      (fun _ => ret (FALLBACK_GAS_LIMIT cfg)) in
  let! fees := getFeeSuggestion in
  let effectiveFeePerGas := maxFeePerGas fees in
  let feeCost := effectiveFeePerGas * gasLimit in
  ensureBalanceCovers amountWei feeCost ;;;
  ret {| tx_to := j_address job; tx_value := amountWei;
         tx_gasLimit := gasLimit; tx_maxFeePerGas := maxFeePerGas fees;
         tx_maxPriorityFeePerGas := None |}.

(** [retryRpc(() => wallet.sendTransaction(req))] (lines 123-130). *)
Definition send (req : TxRequest) : M Chain string :=
  retryRpc_default (rpc (CSendTransaction req) (sendTransaction req)).

(** The body of the outer [try] (lines 108-148). *)
Definition submit (job : DripJob) : M Chain unit :=
  let! hash := broadcast job in
  confirm (requestId job) hash.

(** The outer [catch (err)] (lines 149-156). *)
Definition catchAll (job : DripJob) (err : JsError) : M Chain unit :=
  let reason := formatReason err in
  lift (query (SetFailed reason (requestId job))) ;;;
  if isPermanentError err then ret tt
  else if negb (isRetryableError err) then ret tt
  else throw err.

(** The job processor passed to [new Worker]. [Ok tt] is a normal return
    (the queue acknowledges the job), [Throw] a rejection (the queue
    redelivers it). *)
Definition processor (job : DripJob) : M Chain unit :=
  if negb (isAddress (j_address job)) then
    lift (query (SetFailed "invalid recipient address" (requestId job))) ;;;
    ret tt
  else
    let lk := lockKey (sender cfg) in
    let! got := acquireLockWithBackoff lk 15 in
    if negb got then throw (newError "nonce lock not acquired (backoff exhausted)")
    else
      tryFinally
        (tryCatch (submit job) (catchAll job))
        (lift (releaseLock lk)).

End Worker.

End Worker.

(* ===================================================================== *)
(** ** The reconciler (imported by worker.ts as "./reconciler")          *)
(* ===================================================================== *)

Module Reconciler.
Import JsString Retry.

Section Reconciler.

Context {Chain : Type} `{Provider Chain}.
Variable cfg : Config.
Local Open Scope prog_scope.

Definition LOCK_KEY : string := "reconciler:lock".

(** [!v] for a value that is a string or null. *)
Definition falsy (v : option string) : bool :=
  match v with
  | None => true
  | Some s => String.eqb s ""
  end.

(** [randHex(8)] (packages/shared/src/utils, not among the sources): the next
    token of the world's token stream. *)
Definition randHex : Op Chain string :=
  fun w => (Ok (tok w 0%nat), next_tok w).

(** [const token = randHex(8); const res = await redis.set(key, token, "NX", "PX", ttlMs);
     return res === "OK" ? token : null] *)
Definition tryAcquireLock (key : string) (ttlMs : Z) : Op Chain (option string) :=
  fun w =>
    match randHex w with
    | (Throw e, w0) => (Throw e, w0)
    | (Ok token, w0) =>
        let w1 := log (EvRedis (RSetNxPx key token ttlMs)) w0 in
        let '(ok, kv') := Redis.set_nx_px (now w1) key (VStr token) ttlMs (kv w1) in
        (Ok (if ok then Some token else None), set_kv kv' w1)
    end.

(** [try { await redis.eval(UNLOCK_LUA, 1, key, token); } catch {}] *)
Definition releaseLock (key : string) (token : string) : Op Chain unit :=
  fun w =>
    let w1 := log (EvRedis (REvalUnlock key token)) w in
    let '(_, kv') := Redis.eval_unlock (now w1) key token (kv w1) in
    (Ok tt, set_kv kv' w1).

(** [try { await redis.incrby("reconciler:skips", 1); } catch {}] *)
Definition countSkip : Op Chain unit :=
  fun w =>
    let w1 := log (EvRedis (RIncrBy "reconciler:skips" 1)) w in
    match Redis.incrby (now w1) "reconciler:skips" 1 (kv w1) with
    | Some (_, kv') => (Ok tt, set_kv kv' w1)
    | None => (Ok tt, w1)
    end.

(** The body of [for (const r of rows)] (lines 67-91). *)
Definition reconcileRow (r : Fetched) : M Chain unit :=
  if falsy (f_tx_hash r) then
    lift (query (SetFailed "missing tx_hash in broadcast state" (f_id r))) ;;;
    ret tt
  else
    let h := default "" (f_tx_hash r) in
    tryCatch
      (let! rcpt := retryRpc_default (rpc (CGetTransactionReceipt h) (getTransactionReceipt h)) in
       match rcpt with
       | None => ret tt
       | Some rc =>
           if num_is (rcpt_status rc) 1 then
             lift (query (SetSent (f_id r))) ;;; ret tt
           else if num_is (rcpt_status rc) 0 then
             lift (query (SetFailed "transaction reverted" (f_id r))) ;;; ret tt
           else ret tt
       end)
      (fun _ => ret tt).

(** [for (const r of rows) { ... }] *)
Fixpoint forEach {A} (l : list A) (body : A -> M Chain unit) : M Chain unit :=
  match l with
  | [] => ret tt
  | x :: l' => body x ;;; forEach l' body
  end.

(** [while (loops++ < MAX_LOOPS) { ... }] with [n] iterations left. *)
Fixpoint reconcileLoop (n : nat) : M Chain unit :=
  match n with
  | O => ret tt
  | S n' =>
      let! rows := lift (query (SelectBroadcast (BATCH cfg))) in
      if (length rows =? 0)%nat then ret tt
      else
        forEach rows reconcileRow ;;;
        if (length rows <? BATCH cfg)%nat then ret tt
        else reconcileLoop n'
  end.

Definition reconcileBroadcastsOnce : M Chain unit :=
  reconcileLoop (MAX_LOOPS cfg).

Definition reconcileBroadcastsWithLock : M Chain unit :=
  let! token := lift (tryAcquireLock LOCK_KEY (LOCK_TTL_MS cfg)) in
  if falsy token then
    lift countSkip ;;; ret tt
  else
    tryFinally reconcileBroadcastsOnce
      (lift (releaseLock LOCK_KEY (default "" token))).

End Reconciler.

End Reconciler.

(* ===================================================================== *)
(** ** A scripted endpoint, for running the programs on concrete inputs  *)
(* ===================================================================== *)

Module Scenario.
Import JsString.

(** The chain as a script: the reply of each method is a function of the
    number of provider calls made before it. *)
Record Script : Type := mkScript {
  sc_calls   : nat;
  sc_fee     : nat -> Res FeeData;
  sc_balance : nat -> Res Z;
  sc_gas     : nat -> Res Z;
  sc_send    : nat -> Res string;
  sc_wait    : nat -> Res unit;
  sc_receipt : string -> nat -> Res (option Receipt)
}.

Definition tick (s : Script) : Script :=
  {| sc_calls := S (sc_calls s); sc_fee := sc_fee s; sc_balance := sc_balance s;
     sc_gas := sc_gas s; sc_send := sc_send s; sc_wait := sc_wait s;
     sc_receipt := sc_receipt s |}.

#[export] Instance script_provider : Provider Script := {|
  getFeeData := fun s => (sc_fee s (sc_calls s), tick s);
  getBalance := fun _ s => (sc_balance s (sc_calls s), tick s);
  estimateGas := fun _ _ s => (sc_gas s (sc_calls s), tick s);
  sendTransaction := fun _ s => (sc_send s (sc_calls s), tick s);
  waitForTransaction := fun _ _ _ s => (sc_wait s (sc_calls s), tick s);
  getTransactionReceipt := fun h s => (sc_receipt s h (sc_calls s), tick s);
  isAddress := fun a => startsWith "0x" a && (String.length a =? 42)%nat;
  parseEther := fun a =>
    if String.eqb a "0.02" then Ok 20000000000000000
    else Throw (newError "invalid FixedNumber string value")
|}.

(** An error as an HTTP client reports it. *)
Definition http_error (st : Z) (msg : string) : JsError :=
  {| e_code := None; e_status := StNumber (Finite (inject_Z st));
     e_resp_status := StUndefined;
     e_message := Some msg; e_resp_message := None; e_body := None;
     e_text := "Error: " ++ msg |}.

(** The error with which ethers rejects a wait that ran out of time. *)
Definition wait_timeout : JsError :=
  {| e_code := Some "TIMEOUT"; e_status := StUndefined; e_resp_status := StUndefined;
     e_message := Some "wait for transaction timeout"; e_resp_message := None;
     e_body := None; e_text := "Error: wait for transaction timeout" |}.

(** A healthy endpoint: 1 gwei gas price, 1 ETH balance, 21000 gas, the
    submission returns [hash], the wait returns, the receipt reports success. *)
Definition healthy (hash : string) : Script :=
  {| sc_calls := 0;
     sc_fee := fun _ => Ok {| fd_gasPrice := Some (10 ^ 9); fd_maxFeePerGas := None;
                              fd_maxPriorityFeePerGas := None |};
     sc_balance := fun _ => Ok (10 ^ 18);
     sc_gas := fun _ => Ok 21000;
     sc_send := fun _ => Ok hash;
     sc_wait := fun _ => Ok tt;
     sc_receipt := fun _ _ => Ok (Some {| rcpt_status := Some 1 |}) |}.

Definition with_wait (f : nat -> Res unit) (s : Script) : Script :=
  {| sc_calls := sc_calls s; sc_fee := sc_fee s; sc_balance := sc_balance s;
     sc_gas := sc_gas s; sc_send := sc_send s; sc_wait := f;
     sc_receipt := sc_receipt s |}.

Definition with_balance (f : nat -> Res Z) (s : Script) : Script :=
  {| sc_calls := sc_calls s; sc_fee := sc_fee s; sc_balance := f;
     sc_gas := sc_gas s; sc_send := sc_send s; sc_wait := sc_wait s;
     sc_receipt := sc_receipt s |}.

Definition with_receipt (f : string -> nat -> Res (option Receipt)) (s : Script) : Script :=
  {| sc_calls := sc_calls s; sc_fee := sc_fee s; sc_balance := sc_balance s;
     sc_gas := sc_gas s; sc_send := sc_send s; sc_wait := sc_wait s;
     sc_receipt := f |}.

(** Fails with [e] on the first [n] calls, returns [v] afterwards. *)
Definition fails_then {A} (n : nat) (e : JsError) (v : A) : nat -> Res A :=
  fun k => if (k <? n)%nat then Throw e else Ok v.

(** A world at time 0 with an empty key space, [Math.random()] returning 0
    and tokens t0, t1, ... *)
Definition world0 (sc : Script) (t : Table) : World Script :=
  {| chain := sc; db := t; kv := ∅; now := 0;
     rnd := fun _ => 0%Q;
     tok := fun n => String (ascii_of_nat (48 + n)) "deadbeef";
     trace := [] |}.

Definition wallet : string := "0x00000000000000000000000000000000000000aa".

Definition cfg0 : Config := default_config wallet.

Definition addr1 : string := "0x00000000000000000000000000000000000000b1".

Definition job1 : DripJob :=
  {| requestId := 1; j_address := addr1; j_ip := "203.0.113.7" |}.

Definition row (i : Z) (at_ : Z) (st : Status) (h : option string) : Row :=
  {| id := i; address := addr1; ip := "203.0.113.7"; created_at := at_;
     status := st; tx_hash := h; reason := None |}.

(** The statuses and hashes of a table, row by row. *)
Definition summary (t : Table) : list (Z * Status * option string) :=
  map (fun r => (id r, status r, tx_hash r)) t.

(** The delays slept, oldest first. *)
Definition sleeps (evs : list Event) : list Q :=
  omap (fun e => match e with EvSleep ms => Some ms | _ => None end) evs.

(** The statements sent, oldest first. *)
Definition statements (evs : list Event) : list Sql :=
  omap (fun e => match e with EvSql s => Some s | _ => None end) evs.

(** The balance query of the wallet, as [ensureBalanceCovers] passes it to
    [retryRpc]. *)
Definition balanceOf : Op Script Z :=
  rpc (CGetBalance wallet) (getBalance wallet).

Definition e500 : JsError := http_error 500 "Internal Server Error".

(** HTTP 500 with a message that matches the fail-fast pattern. *)
Definition e500_funds : JsError :=
  http_error 500 "insufficient funds for gas * price + value".

(** An endpoint whose balance query throws [e] on its first [n] calls. *)
Definition flaky (n : nat) (e : JsError) : World Script :=
  world0 (with_balance (fails_then n e 7) (healthy "0x111")) [].

(** One queued request, and endpoints whose confirmation wait fails. *)
Definition queued1 : Table := [row 1 10 Queued None].

Definition wait_times_out : World Script :=
  world0 (with_wait (fun _ => Throw wait_timeout) (healthy "0x111")) queued1.

Definition wait_breaks : World Script :=
  world0 (with_wait (fun _ => Throw e500) (healthy "0x111")) queued1.

(** Three requests in status broadcast: one without a hash, one whose
    transaction succeeded, one whose transaction reverted. *)
Definition three_broadcast : Table :=
  [row 1 10 Broadcast None; row 2 11 Broadcast (Some "0xa");
   row 3 12 Broadcast (Some "0xb")].

Definition receipts (h : string) (_ : nat) : Res (option Receipt) :=
  if String.eqb h "0xa" then Ok (Some {| rcpt_status := Some 1 |})
  else if String.eqb h "0xb" then Ok (Some {| rcpt_status := Some 0 |})
  else Ok None.

Definition sweep_world : World Script :=
  world0 (with_receipt receipts (healthy "0x111")) three_broadcast.

(** A queued request beside one in flight. *)
Definition queued_and_broadcast : Table :=
  [row 1 10 Queued None; row 2 11 Broadcast (Some "0xa")].

(** One request in flight, with hash 0x111. *)
Definition broadcast1 : Table := [row 1 10 Broadcast (Some "0x111")].

(** What the reconciler's [SELECT] returns for [broadcast1]. *)
Definition fetched1 : Fetched := {| f_id := 1; f_tx_hash := Some "0x111" |}.

(** The key of the signer lock. *)
Definition signer_key : string := Worker.lockKey (sender cfg0).

End Scenario.

(* ===================================================================== *)
(** ** Vocabulary of the properties                                      *)
(* ===================================================================== *)

(** The table after the statements among [evs], in order. *)
Definition replay (evs : list Event) (t : Table) : Table :=
  fold_left (fun t e => match e with EvSql s => Db.exec s t | _ => t end) evs t.

Definition is_sql (e : Event) : bool :=
  match e with EvSql _ => true | _ => false end.

Definition is_wait (e : Event) : bool :=
  match e with EvRpc (CWaitForTransaction _ _ _) => true | _ => false end.

(** The event is no confirmation wait. *)
Definition NoWait (e : Event) : Prop := is_wait e = false.

(** The event is no confirmation wait, unless for the hash [h]. *)
Definition WaitsFor (h : string) (e : Event) : Prop :=
  is_wait e = true -> exists c t, e = EvRpc (CWaitForTransaction h c t).

(** Neither a confirmation wait nor a statement. *)
Definition Quiet (e : Event) : Prop := is_wait e = false /\ is_sql e = false.

(** [UPDATE requests SET status='sent' WHERE id=$1], the reconciler's
    statement, names no hash. *)
Definition is_SetSent (e : Event) : bool :=
  match e with EvSql (SetSent _) => true | _ => false end.

(** Neither a confirmation wait nor the reconciler's [SetSent]. *)
Definition Calm (e : Event) : Prop := is_wait e = false /\ is_SetSent e = false.

(** [Calm], or the confirmation wait for [h] with the given parameters. *)
Definition CalmOrWait (h : string) (c t : Z) (e : Event) : Prop :=
  Calm e \/ e = EvRpc (CWaitForTransaction h c t).

(** The event is no statement. *)
Definition NoSql (e : Event) : Prop := is_sql e = false.

(** In [evs], every confirmation wait for a hash comes after the statement
    that records that hash on row [i] with status broadcast. *)
Definition BroadcastBeforeWait (i : Z) (evs : list Event) : Prop :=
  forall pre h c t post,
    evs = (pre ++ EvRpc (CWaitForTransaction h c t) :: post)%list ->
    In (EvSql (SetBroadcast h i)) pre.

(** A row in flight has its transaction hash. *)
Definition hash_if_inflight (r : Row) : bool :=
  match status r with
  | Broadcast | Sent => match tx_hash r with Some _ => true | None => false end
  | Queued | Failed => true
  end.

Definition InflightHaveHash (t : Table) : Prop :=
  Forall (fun r => hash_if_inflight r = true) t.

(** The rows in flight have their hash in [t] and after every statement of
    [evs], run in order from [t]. *)
Definition InflightHaveHashThroughout (t : Table) (evs : list Event) : Prop :=
  forall pre post, evs = (pre ++ post)%list -> InflightHaveHash (replay pre t).

(** A queued row has no transaction hash. *)
Definition no_hash_if_queued (r : Row) : bool :=
  match status r with
  | Queued => match tx_hash r with Some _ => false | None => true end
  | Broadcast | Sent | Failed => true
  end.

Definition QueuedHaveNoHash (t : Table) : Prop :=
  Forall (fun r => no_hash_if_queued r = true) t.

(** The invariant of the specification, both directions. *)
Definition hash_iff_inflight (r : Row) : bool :=
  match status r, tx_hash r with
  | (Broadcast | Sent), Some _ => true
  | (Queued | Failed), None => true
  | _, _ => false
  end.

(** The invariant with a failed row left free: a row in flight has its
    hash, a queued row has none, a failed row may have one or not. *)
Definition hash_by_status (r : Row) : bool :=
  match status r, tx_hash r with
  | (Broadcast | Sent), Some _ => true
  | Queued, None => true
  | Failed, _ => true
  | _, _ => false
  end.

Definition HashByStatus (t : Table) : Prop :=
  Forall (fun r => hash_by_status r = true) t.

(** [HashByStatus] holds in [t] and after every statement of [evs], run in
    order from [t]. *)
Definition HashByStatusThroughout (t : Table) (evs : list Event) : Prop :=
  forall pre post, evs = (pre ++ post)%list -> HashByStatus (replay pre t).

(** [id] is a primary key. *)
Definition UniqueIds (t : Table) : Prop := NoDup (map id t).

(** The id and the hash of each row. *)
Definition hashes (t : Table) : list (Z * option string) :=
  map (fun r => (id r, tx_hash r)) t.

(** The fetched row [f] shows a hash, and so does every row of [t] with its
    id. *)
Definition HashOnRow (t : Table) (f : Fetched) : Prop :=
  Reconciler.falsy (f_tx_hash f) = false ->
  forall x, In x t -> id x = f_id f -> tx_hash x <> None.

(** The events of the reconciler's work on the fetched row [f]: no statement
    sets a hash, and [SetSent] is for the id of [f], which shows a hash. *)
Definition RowEvent (f : Fetched) (e : Event) : Prop :=
  match e with
  | EvSql (SetBroadcast _ _) => False
  | EvSql (SetSent i) => i = f_id f /\ Reconciler.falsy (f_tx_hash f) = false
  | _ => True
  end.

Section Observations.

Context {Chain : Type}.

(** From [w] to [w'] the trace grew by events of class [P], and the table
    changed by the statements among them and nothing else. *)
Definition run (P : Event -> Prop) (w w' : World Chain) : Prop :=
  exists evs,
    trace w' = (trace w ++ evs)%list /\ Forall P evs /\ db w' = replay evs (db w).

(** From [w] to [w'] the table changed by the statements recorded in the
    trace, and the rows in flight had their hash at every point. *)
Definition keeps_hashes (w w' : World Chain) : Prop :=
  exists evs,
    trace w' = (trace w ++ evs)%list
    /\ db w' = replay evs (db w)
    /\ InflightHaveHashThroughout (db w) evs.

(** From [w] to [w'] the table changed by the statements recorded in the
    trace, and [HashByStatus] held at every point. *)
Definition keeps_hash_by_status (w w' : World Chain) : Prop :=
  exists evs,
    trace w' = (trace w ++ evs)%list
    /\ db w' = replay evs (db w)
    /\ HashByStatusThroughout (db w) evs.

(** Every result of [m] is reached by a [run] of class [P]. *)
Definition runs {A} (P : Event -> Prop) (m : M Chain A) : Prop :=
  forall w r w', m w = Some (r, w') -> run P w w'.

(** As [runs], with more said of a result that is a value: [Q a w w'] for
    the value [a]. *)
Definition runs_to {A} (P : Event -> Prop) (Q : A -> World Chain -> World Chain -> Prop)
    (m : M Chain A) : Prop :=
  forall w r w', m w = Some (r, w') ->
    match r with
    | Ok a => Q a w w'
    | Throw _ => run P w w'
    end.

(** [m] has a result in every world. *)
Definition returns {A} (m : M Chain A) : Prop :=
  forall w, exists r w', m w = Some (r, w').

End Observations.

(* ===================================================================== *)
(** ** Vocabulary of further properties                                  *)
(* ===================================================================== *)

(** The delays slept, oldest first. *)
Definition delays (evs : list Event) : list Q :=
  omap (fun e => match e with EvSleep ms => Some ms | _ => None end) evs.

(** The provider calls issued, oldest first. *)
Definition calls (evs : list Event) : list RpcCall :=
  omap (fun e => match e with EvRpc c => Some c | _ => None end) evs.

(** The statements sent, oldest first. *)
Definition stmts (evs : list Event) : list Sql :=
  omap (fun e => match e with EvSql s => Some s | _ => None end) evs.

(** The Redis commands sent, oldest first. *)
Definition commands (evs : list Event) : list RedisCmd :=
  omap (fun e => match e with EvRedis c => Some c | _ => None end) evs.

Section Frames.

Context {Chain : Type}.

(** Every result of [m] is related to the world it started from. *)
Definition follows {A} (R : World Chain -> World Chain -> Prop) (m : M Chain A) : Prop :=
  forall w r w', m w = Some (r, w') -> R w w'.

(** No provider method was called: the chain is as it was. *)
Definition same_chain (w w' : World Chain) : Prop := chain w' = chain w.

(** No Redis command was run, and time did not go back. *)
Definition same_keys (w w' : World Chain) : Prop :=
  kv w' = kv w /\ now w <= now w'.

End Frames.

Section LockRound.

Context {Chain : Type}.

(** The world after a failed attempt of [acquireLockWithBackoff] and the sleep
    that follows it. *)
(** The delay of the timer armed with [delay + Math.random() * 80]. *)
Definition lock_timer (delay : number) (r : Q) : Z :=
  Retry.timeout (js_add delay (js_mul (lit r) (Finite (80 # 1)))).

Definition lock_round (key : string) (ttlSec : Z) (delay : number) (w : World Chain) : World Chain :=
  let ms := lock_timer delay (rnd w 0%nat) in
  advance ms
    (log (EvSleep (inject_Z ms))
       (next_rnd (set_kv (kv w) (log (EvRedis (RSetNxEx key "1" ttlSec)) w)))).

(** The world after [n] failed attempts in a row, the first with [delay]. *)
Fixpoint lock_rounds (key : string) (ttlSec : Z) (n : nat) (delay : number)
    (w : World Chain) : World Chain :=
  match n with
  | O => w
  | S n' =>
      lock_rounds key ttlSec n' (js_floor (js_mul delay (lit (15 # 10))))
        (lock_round key ttlSec delay w)
  end.

End LockRound.

(** A statement, if the event is one, is keyed by the id [i]. *)
Definition OnId (i : Z) (e : Event) : Prop :=
  match e with
  | EvSql (SetFailed _ j) | EvSql (SetBroadcast _ j)
  | EvSql (SetSentIfHash j _) | EvSql (SetSent j) => j = i
  | _ => True
  end.

Definition is_send (e : Event) : bool :=
  match e with EvRpc (CSendTransaction _) => true | _ => false end.

(** The event is no submission of a transaction. *)
Definition NoSend (e : Event) : Prop := is_send e = false.

(** A submission, if the event is one, is a transfer of [amount] to [to] that
    leaves the priority fee to the provider. *)
Definition DripTo (to : string) (amount : Res Z) (e : Event) : Prop :=
  match e with
  | EvRpc (CSendTransaction req) =>
      tx_to req = to /\ amount = Ok (tx_value req)
      /\ tx_maxPriorityFeePerGas req = None
  | _ => True
  end.

(** A submission, if the event is one, has gas limit [g]. *)
Definition GasIs (g : Z) (e : Event) : Prop :=
  match e with
  | EvRpc (CSendTransaction req) => tx_gasLimit req = g
  | _ => True
  end.

(** [t'] has the rows of [t], in the same order and with the same id,
    address, ip and creation time; a row that is not [touch]ed is the same in
    both. *)
Definition kept_unless (touch : Row -> Prop) (t t' : Table) : Prop :=
  Forall2
    (fun x y =>
       id y = id x /\ address y = address x /\ ip y = ip x
       /\ created_at y = created_at x /\ (touch x \/ y = x))
    t t'.

Section Statements.

Context {Chain : Type}.

(** From [w] to [w'] the statements sent were those of [l], in order. *)
Definition wrote (l : list Sql) (w w' : World Chain) : Prop :=
  exists evs, trace w' = (trace w ++ evs)%list /\ stmts evs = l.

End Statements.

(** A statement of the sweep for the row with id [i]: [SetSent] or
    [SetFailed], keyed by [i]. *)
Definition Settles (i : Z) (e : Event) : Prop :=
  match e with
  | EvSql (SetFailed _ j) | EvSql (SetSent j) => j = i
  | EvSql (SetBroadcast _ _) | EvSql (SetSentIfHash _ _) => False
  | _ => True
  end.

(** The row [y] is the row [x], or [x] was in status broadcast and [y] is
    [x] moved to sent or failed: same id, address, ip, creation time and
    hash. *)
Definition settled (x y : Row) : Prop :=
  y = x
  \/ (status x = Broadcast
      /\ (status y = Sent \/ status y = Failed)
      /\ id y = id x /\ address y = address x /\ ip y = ip x
      /\ created_at y = created_at x /\ tx_hash y = tx_hash x).

Section Work.

Context {Chain : Type}.

(** From [w] to [w'] at most [c] provider calls were issued and at most [s]
    statements were sent. *)
Definition within (c s : nat) (w w' : World Chain) : Prop :=
  exists evs,
    trace w' = (trace w ++ evs)%list
    /\ (length (calls evs) <= c)%nat /\ (length (stmts evs) <= s)%nat.

End Work.

Section Blind.

Context {Chain : Type}.

(** [m] does not read the table: started on another table it has the same
    result and the same effects, the statements it sent being run on that
    table instead. *)
Definition oblivious {A} (m : M Chain A) : Prop :=
  forall w r w', m w = Some (r, w') ->
    exists evs,
      trace w' = (trace w ++ evs)%list
      /\ db w' = replay evs (db w)
      /\ forall t, m (set_db t w) = Some (r, set_db (replay evs t) w').

End Blind.


(** ** The terms of a backoff delay *)

Section DelayTerms.
Import Retry.

(** [Math.min(q, MAX_DELAY_MS)] for a finite [q]. *)
Definition capQ (q : Q) : Q :=
  if Qle_bool q (inject_Z MAX_DELAY_MS) then q else inject_Z MAX_DELAY_MS.

(** The delay of the timer armed with [Math.min(Math.floor(x), MAX_DELAY_MS)]. *)
Definition clamp (x : number) : Z :=
  timeout (js_min (js_floor x) (Finite (inject_Z MAX_DELAY_MS))).

(** The value of [base] for a [baseDelayMs] that does not round to 0. *)
Definition baseQ (baseDelayMs : Q) (attempt : nat) : Q :=
  if Qle_bool (pow2 1024) (round64 baseDelayMs) then inject_Z MAX_DELAY_MS
  else if (attempt <? 1024)%nat
  then capQ (round64 (round64 baseDelayMs * inject_Z (2 ^ Z.of_nat attempt)))
  else inject_Z MAX_DELAY_MS.

(** The doubles that the literals [1.10] and [0.15] denote. *)
Definition c110 : Q := Eval vm_compute in round64 (110 # 100).
Definition c015 : Q := Eval vm_compute in round64 (15 # 100).

End DelayTerms.

(* ===================================================================== *)
(** ** Further concrete inputs                                           *)
(* ===================================================================== *)

Module Cases.
Import Scenario.

(** A world in which another worker holds the signer lock until 15000 ms. *)
Definition lock_held : World Script :=
  set_kv (<[signer_key := {| r_val := VStr "1"; r_exp := Some 15000 |}]> ∅)
    (world0 (healthy "0x111") queued1).

Definition with_gas (f : nat -> Res Z) (s : Script) : Script :=
  {| sc_calls := sc_calls s; sc_fee := sc_fee s; sc_balance := sc_balance s;
     sc_gas := f; sc_send := sc_send s; sc_wait := sc_wait s;
     sc_receipt := sc_receipt s |}.

(** An endpoint that cannot estimate gas. *)
Definition no_estimate : World Script :=
  world0 (with_gas (fun _ => Throw (http_error 400 "Bad Request")) (healthy "0x111"))
    queued1.

(** The request the processor submits for [job1] on the healthy endpoint:
    0.02 ETH, the estimate of 21000 gas, and 1.25 times the fee of 1.5 gwei. *)
Definition drip1 : TxRequest :=
  {| tx_to := addr1; tx_value := 20000000000000000; tx_gasLimit := 21000;
     tx_maxFeePerGas := 1875000000; tx_maxPriorityFeePerGas := None |}.

(** The three broadcast rows while another instance holds the reconciler
    lock until 55000 ms. *)
Definition sweep_locked : World Script :=
  set_kv (<[Reconciler.LOCK_KEY := {| r_val := VStr "feedfacefeedface";
                                      r_exp := Some 55000 |}]> ∅)
    sweep_world.



(** A queued request beside one in flight whose transaction succeeded. *)
Definition sweep_mixed : World Script :=
  world0 (with_receipt receipts (healthy "0x111")) queued_and_broadcast.

End Cases.

(** The world [w] with [Math.random()] returning the values of [r]. *)
Definition with_random (r : nat -> Q) (w : World Scenario.Script) : World Scenario.Script :=
  {| chain := chain w; db := db w; kv := kv w; now := now w; rnd := r;
     tok := tok w; trace := trace w |}.

(** A value of [Math.random()], a multiple of [2 ^ -52]. *)
Definition draw1 : Q := 300239975158033 # 4503599627370496.

(** An error whose [status] is the string ['400']. *)
Definition e400_string : JsError :=
  {| e_code := None; e_status := StOther (Finite (400 # 1));
     e_resp_status := StUndefined;
     e_message := Some "Bad Request"; e_resp_message := None; e_body := None;
     e_text := "Error: Bad Request" |}.

(** The largest value of [Math.random()]: [1 - 2^-52] at 52 random bits. *)
Definition draw_max : Q := 4503599627370495 # 4503599627370496.

(** Two requests in flight, each with its hash: the transaction of one
    succeeded, the transaction of the other reverted. *)
Definition reverted_world : World Scenario.Script :=
  Scenario.world0 (Scenario.with_receipt Scenario.receipts (Scenario.healthy "0x111"))
    [Scenario.row 2 11 Broadcast (Some "0xa"); Scenario.row 3 12 Broadcast (Some "0xb")].

(** An endpoint whose first confirmation wait runs out of time (it is the
    fifth call of the run) and whose later waits end as [then_]. *)
Definition wait_times_out_once (then_ : Res unit) : World Scenario.Script :=
  Scenario.world0
    (Scenario.with_wait
       (fun k => if (k <=? 4)%nat then Throw Scenario.wait_timeout else then_)
       (Scenario.healthy "0x111"))
    Scenario.queued1.

(* ===================================================================== *)
(** * Properties                                                         *)
(* ===================================================================== *)

Local Open Scope list_scope.

(** ** JavaScript numbers *)

Section NumberFacts.
Import Retry Worker.

Lemma pow2_pos e : (0 < pow2 e)%Q.
Proof.
  unfold pow2. destruct (0 <=? e) eqn:He.
  - apply Z.leb_le in He. change 0%Q with (inject_Z 0). rewrite <- Zlt_Qlt.
    apply Z.pow_pos_nonneg; lia.
  - reflexivity.
Qed.

Lemma pow2_nonneg_eq e : 0 <= e -> pow2 e = inject_Z (2 ^ e).
Proof. intros He. unfold pow2. apply Z.leb_le in He. rewrite He. reflexivity. Qed.

Lemma pow2_neg_eq e : e < 0 -> (pow2 e == / inject_Z (2 ^ (- e)))%Q.
Proof.
  intros He. unfold pow2. replace (0 <=? e) with false by (symmetry; apply Z.leb_gt; lia).
  assert (Hp : 0 < 2 ^ (- e)) by (apply Z.pow_pos_nonneg; lia).
  destruct (2 ^ (- e)) as [|p|p] eqn:E; try lia.
  cbn. unfold Qinv, inject_Z. cbn. reflexivity.
Qed.

Lemma pow2_add a b : (pow2 (a + b) == pow2 a * pow2 b)%Q.
Proof.
  assert (Hz : forall n, 0 <= n -> ~ (inject_Z (2 ^ n) == 0)%Q).
  { intros n Hn Heq. unfold Qeq in Heq. cbn in Heq.
    assert (0 < 2 ^ n) by (apply Z.pow_pos_nonneg; lia). lia. }
  assert (Hpos : forall a b, 0 <= a -> 0 <= b ->
             (pow2 (a + b) == pow2 a * pow2 b)%Q).
  { intros x y Hx Hy. rewrite !pow2_nonneg_eq by lia.
    rewrite Z.pow_add_r by lia. rewrite inject_Z_mult. reflexivity. }
  assert (Hmix : forall a b, 0 <= a -> b < 0 ->
             (pow2 (a + b) == pow2 a * pow2 b)%Q).
  { intros x y Hx Hy. rewrite (pow2_neg_eq y Hy).
    rewrite (pow2_nonneg_eq x Hx).
    destruct (Z.le_gt_cases 0 (x + y)) as [Hs|Hs].
    - rewrite pow2_nonneg_eq by lia.
      assert (E : 2 ^ x = 2 ^ (x + y) * 2 ^ (- y)).
      { rewrite <- Z.pow_add_r by lia. f_equal. lia. }
      rewrite E, inject_Z_mult. field. apply Hz. lia.
    - rewrite pow2_neg_eq by lia.
      assert (E : 2 ^ (- y) = 2 ^ x * 2 ^ (- (x + y))).
      { rewrite <- Z.pow_add_r by lia. f_equal. lia. }
      rewrite E, inject_Z_mult. field. split; apply Hz; lia. }
  destruct (Z.le_gt_cases 0 a) as [Ha|Ha], (Z.le_gt_cases 0 b) as [Hb|Hb].
  - apply Hpos; assumption.
  - apply Hmix; assumption.
  - rewrite Z.add_comm, Qmult_comm. apply Hmix; assumption.
  - rewrite (pow2_neg_eq a), (pow2_neg_eq b), (pow2_neg_eq (a + b)) by lia.
    replace (- (a + b)) with (- a + - b) by lia.
    rewrite Z.pow_add_r by lia. rewrite inject_Z_mult.
    field. split; apply Hz; lia.
Qed.

Lemma pow2_le a b : a <= b -> (pow2 a <= pow2 b)%Q.
Proof.
  intros Hab. replace b with (a + (b - a)) by lia. rewrite pow2_add.
  rewrite <- (Qmult_1_r (pow2 a)) at 1.
  apply Qmult_le_l; [apply pow2_pos|].
  rewrite pow2_nonneg_eq by lia. change 1%Q with (inject_Z 1).
  rewrite <- Zle_Qle. assert (0 < 2 ^ (b - a)) by (apply Z.pow_pos_nonneg; lia). lia.
Qed.

Lemma pow2_lt a b : a < b -> (pow2 a < pow2 b)%Q.
Proof.
  intros Hab. replace b with (a + (b - a)) by lia. rewrite pow2_add.
  rewrite <- (Qmult_1_r (pow2 a)) at 1.
  apply Qmult_lt_l; [apply pow2_pos|].
  rewrite pow2_nonneg_eq by lia. change 1%Q with (inject_Z 1).
  rewrite <- Zlt_Qlt. apply Z.pow_gt_1; lia.
Qed.

Lemma pow2_div a b : (pow2 a / pow2 b == pow2 (a - b))%Q.
Proof.
  replace a with ((a - b) + b) at 1 by lia. rewrite pow2_add.
  field. intros Heq. pose proof (pow2_pos b) as Hp. rewrite Heq in Hp. discriminate.
Qed.

(** [ilog2 q] is the binary exponent of a positive [q]. *)
Lemma ilog2_spec q : (0 < q)%Q -> (pow2 (ilog2 q) <= q)%Q /\ (q < pow2 (ilog2 q + 1))%Q.
Proof.
  intros Hq. destruct q as [n d]. unfold Qlt in Hq. cbn in Hq. rewrite Z.mul_1_r in Hq.
  unfold ilog2. cbn [Qnum Qden].
  set (a := Z.log2 n). set (b := Z.log2 (Z.pos d)).
  pose proof (Z.log2_spec n Hq) as [Ha1 Ha2]. fold a in Ha1, Ha2.
  pose proof (Z.log2_spec (Z.pos d) (Pos2Z.is_pos d)) as [Hb1 Hb2]. fold b in Hb1, Hb2.
  assert (Ha0 : 0 <= a) by apply Z.log2_nonneg.
  assert (Hb0 : 0 <= b) by apply Z.log2_nonneg.
  assert (Hq' : (n # d == inject_Z n / inject_Z (Z.pos d))%Q).
  { unfold Qeq, Qdiv, Qmult, Qinv, inject_Z. cbn. lia. }
  assert (Hn1 : (pow2 a <= inject_Z n)%Q).
  { rewrite pow2_nonneg_eq by lia. rewrite <- Zle_Qle. exact Ha1. }
  assert (Hn2 : (inject_Z n < pow2 (a + 1))%Q).
  { rewrite pow2_nonneg_eq by lia. rewrite <- Zlt_Qlt. replace (a + 1) with (Z.succ a) by lia. exact Ha2. }
  assert (Hd1 : (pow2 b <= inject_Z (Z.pos d))%Q).
  { rewrite pow2_nonneg_eq by lia. rewrite <- Zle_Qle. exact Hb1. }
  assert (Hd2 : (inject_Z (Z.pos d) < pow2 (b + 1))%Q).
  { rewrite pow2_nonneg_eq by lia. rewrite <- Zlt_Qlt. replace (b + 1) with (Z.succ b) by lia. exact Hb2. }
  assert (Hdpos : (0 < inject_Z (Z.pos d))%Q) by reflexivity.
  destruct (Qle_bool (pow2 (a - b)) (n # d)) eqn:Hc.
  - apply Qle_bool_iff in Hc. split; [exact Hc|].
    rewrite Hq'. apply Qlt_shift_div_r; [exact Hdpos|].
    eapply Qlt_le_trans; [exact Hn2|].
    replace (a + 1) with ((a - b + 1) + b) by lia. rewrite pow2_add.
    apply Qmult_le_l; [apply pow2_pos|exact Hd1].
  - assert (Hlt : (n # d < pow2 (a - b))%Q).
    { apply Qnot_le_lt. intros Hle. apply Qle_bool_iff in Hle. congruence. }
    split; [|replace (a - b - 1 + 1) with (a - b) by lia; exact Hlt].
    rewrite Hq'. apply Qle_shift_div_l; [exact Hdpos|].
    eapply Qle_trans; [|exact Hn1].
    replace a with ((a - b - 1) + (b + 1)) at 2 by lia. rewrite pow2_add.
    apply Qmult_le_l; [apply pow2_pos|]. apply Qlt_le_weak. exact Hd2.
Qed.

Lemma ilog2_mono x y : (0 < x)%Q -> (x <= y)%Q -> ilog2 x <= ilog2 y.
Proof.
  intros Hx Hxy. assert (Hy : (0 < y)%Q) by (eapply Qlt_le_trans; eauto).
  destruct (ilog2_spec x Hx) as [Hx1 _]. destruct (ilog2_spec y Hy) as [_ Hy2].
  destruct (Z.le_gt_cases (ilog2 x) (ilog2 y)) as [H|H]; [exact H|exfalso].
  assert (Hp : (pow2 (ilog2 y + 1) <= pow2 (ilog2 x))%Q) by (apply pow2_le; lia).
  assert (Hc : (y < y)%Q).
  { eapply Qlt_le_trans; [exact Hy2|]. eapply Qle_trans; [exact Hp|].
    eapply Qle_trans; [exact Hx1|exact Hxy]. }
  exact (Qlt_irrefl _ Hc).
Qed.

(** ** Rounding to the nearest integer, ties to even *)

Lemma rhe_bounds q : Qfloor q <= rhe q <= Qfloor q + 1.
Proof. unfold rhe. destruct (_ ?= _)%Q; [destruct (Z.even _)| |]; lia. Qed.

Lemma rhe_Z k : rhe (inject_Z k) = k.
Proof.
  unfold rhe. rewrite Qfloor_Z.
  assert (E : (inject_Z k - inject_Z k ?= 1 # 2)%Q = Lt).
  { apply Qlt_alt. assert (Hz : (inject_Z k - inject_Z k == 0)%Q) by ring.
    rewrite Hz. reflexivity. }
  rewrite E. reflexivity.
Qed.

Lemma rhe_mono x y : (x <= y)%Q -> rhe x <= rhe y.
Proof.
  intros Hxy. pose proof (Qfloor_resp_le x y Hxy) as Hf.
  pose proof (rhe_bounds x) as Hx. pose proof (rhe_bounds y) as Hy.
  destruct (Z.eq_dec (Qfloor x) (Qfloor y)) as [E|E]; [|lia].
  unfold rhe in *. rewrite <- E in *.
  set (f := Qfloor x) in *.
  assert (Hd : (x - inject_Z f <= y - inject_Z f)%Q).
  { lra. }
  destruct (Qcompare_spec (x - inject_Z f) (1 # 2)) as [Ex|Lx|Gx];
    destruct (Qcompare_spec (y - inject_Z f) (1 # 2)) as [Ey|Ly|Gy];
    try destruct (Z.even f); try lia; exfalso; lra.
Qed.

Lemma rhe_ge k q : (inject_Z k <= q)%Q -> k <= rhe q.
Proof. intros H. rewrite <- (rhe_Z k). apply rhe_mono. exact H. Qed.

Lemma rhe_le k q : (q <= inject_Z k)%Q -> rhe q <= k.
Proof. intros H. rewrite <- (rhe_Z k). apply rhe_mono. exact H. Qed.

(** ** Rounding to binary64 *)

Lemma quantum_pos q : (0 < q)%Q -> quantum q = Z.max (ilog2 q - 52) (-1074).
Proof.
  intros Hq. unfold quantum.
  assert (E : ilog2 (Qabs q) = ilog2 q).
  { destruct q as [n d]. unfold Qlt in Hq. cbn in Hq.
    destruct n; try lia. reflexivity. }
  rewrite E. reflexivity.
Qed.

Lemma round64_pos q :
  (0 < q)%Q ->
  (round64 q == inject_Z (rhe (q / pow2 (quantum q))) * pow2 (quantum q))%Q.
Proof.
  intros Hq. unfold round64.
  destruct (Qeq_bool q 0) eqn:E.
  - apply Qeq_bool_eq in E. rewrite E in Hq. discriminate.
  - apply Qred_correct.
Qed.

Lemma round64_zero q : (q == 0)%Q -> round64 q = 0%Q.
Proof. intros E. unfold round64. rewrite (Qeq_eq_bool _ _ E). reflexivity. Qed.

Lemma div_pow2_le x y e : (x <= y)%Q -> (x / pow2 e <= y / pow2 e)%Q.
Proof.
  intros H. unfold Qdiv. apply Qmult_le_compat_r; [exact H|].
  apply Qlt_le_weak, Qinv_lt_0_compat, pow2_pos.
Qed.

Lemma round64_nonneg q : (0 <= q)%Q -> (0 <= round64 q)%Q.
Proof.
  intros Hq. destruct (Qeq_bool q 0) eqn:E.
  - apply Qeq_bool_eq in E. rewrite (round64_zero _ E). apply Qle_refl.
  - assert (Hp : (0 < q)%Q).
    { apply Qle_lteq in Hq as [H|H]; [exact H|].
      symmetry in H. apply Qeq_eq_bool in H. congruence. }
    rewrite (round64_pos _ Hp).
    apply Qmult_le_0_compat; [|apply Qlt_le_weak, pow2_pos].
    change 0%Q with (inject_Z 0). rewrite <- Zle_Qle. apply rhe_ge.
    apply Qle_shift_div_l; [apply pow2_pos|]. rewrite Qmult_0_l. exact Hq.
Qed.

(** A positive number rounds to at least the power of two below it... *)
Lemma round64_ge_pow2 q e :
  (0 < q)%Q -> quantum q <= e -> (pow2 e <= q)%Q -> (pow2 e <= round64 q)%Q.
Proof.
  intros Hq He Hle. rewrite (round64_pos _ Hq).
  set (g := quantum q) in *.
  assert (Hk : (pow2 e == inject_Z (2 ^ (e - g)) * pow2 g)%Q).
  { replace e with ((e - g) + g) at 1 by lia. rewrite pow2_add.
    rewrite (pow2_nonneg_eq (e - g)) by lia. reflexivity. }
  rewrite Hk. apply Qmult_le_compat_r; [|apply Qlt_le_weak, pow2_pos].
  rewrite <- Zle_Qle. apply rhe_ge.
  apply Qle_shift_div_l; [apply pow2_pos|]. rewrite <- Hk. exact Hle.
Qed.

(** ... and to at most the power of two above it. *)
Lemma round64_le_pow2 q e :
  (0 < q)%Q -> quantum q <= e -> (q <= pow2 e)%Q -> (round64 q <= pow2 e)%Q.
Proof.
  intros Hq He Hle. rewrite (round64_pos _ Hq).
  set (g := quantum q) in *.
  assert (Hk : (pow2 e == inject_Z (2 ^ (e - g)) * pow2 g)%Q).
  { replace e with ((e - g) + g) at 1 by lia. rewrite pow2_add.
    rewrite (pow2_nonneg_eq (e - g)) by lia. reflexivity. }
  rewrite Hk. apply Qmult_le_compat_r; [|apply Qlt_le_weak, pow2_pos].
  rewrite <- Zle_Qle. apply rhe_le.
  apply Qle_shift_div_r; [apply pow2_pos|]. rewrite <- Hk. exact Hle.
Qed.

(** Rounding is monotone (shown here for what is not negative). *)
Lemma round64_mono x y : (0 <= x)%Q -> (x <= y)%Q -> (round64 x <= round64 y)%Q.
Proof.
  intros Hx Hxy.
  destruct (Qeq_bool x 0) eqn:Ex.
  { apply Qeq_bool_eq in Ex. rewrite (round64_zero _ Ex).
    apply round64_nonneg. eapply Qle_trans; eauto. }
  assert (Hxp : (0 < x)%Q).
  { apply Qle_lteq in Hx as [H|H]; [exact H|].
    symmetry in H. apply Qeq_eq_bool in H. congruence. }
  assert (Hyp : (0 < y)%Q) by (eapply Qlt_le_trans; eauto).
  pose proof (ilog2_mono x y Hxp Hxy) as He.
  pose proof (quantum_pos x Hxp) as Hgx. pose proof (quantum_pos y Hyp) as Hgy.
  destruct (ilog2_spec x Hxp) as [Hx1 Hx2]. destruct (ilog2_spec y Hyp) as [Hy1 Hy2].
  destruct (Z.eq_dec (quantum x) (quantum y)) as [Eg|Ng].
  - rewrite (round64_pos _ Hxp), (round64_pos _ Hyp), Eg.
    apply Qmult_le_compat_r; [|apply Qlt_le_weak, pow2_pos].
    rewrite <- Zle_Qle. apply rhe_mono. apply div_pow2_le. exact Hxy.
  - (* the exponents differ: a power of two lies between the two *)
    set (u := Z.max (ilog2 x + 1) (quantum x)).
    apply Qle_trans with (pow2 u).
    + apply round64_le_pow2; [exact Hxp|lia|].
      eapply Qle_trans; [apply Qlt_le_weak; exact Hx2|]. apply pow2_le. lia.
    + apply Qle_trans with (pow2 (ilog2 y)); [apply pow2_le; lia|].
      apply round64_ge_pow2; [exact Hyp|lia|exact Hy1].
Qed.

Lemma Qle_bool_false x y : Qle_bool x y = false <-> (y < x)%Q.
Proof.
  split.
  - intros H. apply Qnot_le_lt. intros C. apply Qle_bool_iff in C. congruence.
  - intros H. destruct (Qle_bool x y) eqn:E; [|reflexivity].
    apply Qle_bool_iff in E. exfalso. apply (Qlt_not_le _ _ H E).
Qed.

Lemma cap_lt_huge : (inject_Z MAX_DELAY_MS < pow2 1024)%Q.
Proof. rewrite pow2_nonneg_eq by lia. rewrite <- Zlt_Qlt. reflexivity. Qed.

Lemma fl_nonneg q :
  (0 <= q)%Q ->
  fl q = if Qle_bool (pow2 1024) (round64 q) then PosInf else Finite (round64 q).
Proof.
  intros Hq. unfold fl. cbv zeta.
  destruct (Qle_bool (pow2 1024) (round64 q)); [reflexivity|].
  replace (Qle_bool (round64 q) (- pow2 1024)) with false; [reflexivity|].
  symmetry. apply Qle_bool_false.
  apply Qlt_le_trans with 0%Q; [|apply round64_nonneg; exact Hq].
  pose proof (pow2_pos 1024). lra.
Qed.

Lemma capQ_le q : (capQ q <= inject_Z MAX_DELAY_MS)%Q.
Proof.
  unfold capQ. destruct (Qle_bool q _) eqn:E; [apply Qle_bool_iff; exact E|apply Qle_refl].
Qed.

Lemma capQ_mono x y : (x <= y)%Q -> (capQ x <= capQ y)%Q.
Proof.
  intros H. unfold capQ.
  destruct (Qle_bool x _) eqn:Ex, (Qle_bool y _) eqn:Ey;
    try apply Qle_bool_iff in Ex; try apply Qle_bool_iff in Ey;
    try apply Qle_bool_false in Ex; try apply Qle_bool_false in Ey; lra.
Qed.

Lemma capQ_ge x c : (c <= x)%Q -> (c <= inject_Z MAX_DELAY_MS)%Q -> (c <= capQ x)%Q.
Proof. intros H1 H2. unfold capQ. destruct (Qle_bool x _); assumption. Qed.

Lemma min_fl_cap q :
  (0 <= q)%Q ->
  js_min (fl q) (Finite (inject_Z MAX_DELAY_MS)) = Finite (capQ (round64 q)).
Proof.
  intros Hq. rewrite (fl_nonneg _ Hq).
  destruct (Qle_bool (pow2 1024) (round64 q)) eqn:E; [|reflexivity].
  apply Qle_bool_iff in E. cbn [js_min]. unfold capQ.
  replace (Qle_bool (round64 q) (inject_Z MAX_DELAY_MS)) with false; [reflexivity|].
  symmetry. apply Qle_bool_false. pose proof cap_lt_huge. lra.
Qed.

Lemma timeout_ge_1 x : 1 <= timeout x.
Proof.
  destruct x as [q| | |]; cbn; try lia.
  destruct (Qle_bool 1 q) eqn:E; cbn; [|lia].
  destruct (Qle_bool q _); [|lia].
  apply Qle_bool_iff in E. change 1%Q with (inject_Z 1) in E.
  apply Qfloor_resp_le in E. rewrite Qfloor_Z in E. exact E.
Qed.

Lemma timeout_Z d : 1 <= d <= 2147483647 -> timeout (Finite (inject_Z d)) = d.
Proof.
  intros [H1 H2]. unfold timeout.
  replace (Qle_bool 1 (inject_Z d)) with true
    by (symmetry; apply Qle_bool_iff; change 1%Q with (inject_Z 1); rewrite <- Zle_Qle; exact H1).
  replace (Qle_bool (inject_Z d) (inject_Z 2147483647)) with true
    by (symmetry; apply Qle_bool_iff; rewrite <- Zle_Qle; exact H2).
  apply Qfloor_Z.
Qed.

Lemma timeout_small d : d <= 1 -> timeout (Finite (inject_Z d)) = 1.
Proof.
  intros H. unfold timeout.
  destruct (Qle_bool 1 (inject_Z d)) eqn:E; [|reflexivity].
  apply Qle_bool_iff in E. change 1%Q with (inject_Z 1) in E. rewrite <- Zle_Qle in E.
  assert (d = 1) as -> by lia. reflexivity.
Qed.

Lemma clamp_Finite q : clamp (Finite q) = Z.max 1 (Z.min (Qfloor q) MAX_DELAY_MS).
Proof.
  unfold clamp. cbn [js_floor js_min].
  destruct (Qle_bool (inject_Z (Qfloor q)) (inject_Z MAX_DELAY_MS)) eqn:E.
  - apply Qle_bool_iff in E. rewrite <- Zle_Qle in E. unfold MAX_DELAY_MS in *.
    destruct (Z_le_gt_dec 1 (Qfloor q)).
    + rewrite timeout_Z by lia. lia.
    + rewrite timeout_small by lia. lia.
  - apply Qle_bool_false in E. rewrite <- Zlt_Qlt in E. unfold MAX_DELAY_MS in *.
    rewrite timeout_Z by lia. lia.
Qed.

Lemma clamp_range x : 1 <= clamp x <= MAX_DELAY_MS.
Proof.
  destruct x as [q| | |]; [rewrite clamp_Finite; unfold MAX_DELAY_MS; lia| | |];
    vm_compute; split; congruence.
Qed.

Lemma clamp_fl q :
  (0 <= q)%Q -> clamp (fl q) = Z.max 1 (Z.min (Qfloor (round64 q)) MAX_DELAY_MS).
Proof.
  intros Hq. rewrite (fl_nonneg _ Hq).
  destruct (Qle_bool (pow2 1024) (round64 q)) eqn:E; [|apply clamp_Finite].
  apply Qle_bool_iff in E.
  assert (H : MAX_DELAY_MS <= Qfloor (round64 q)).
  { rewrite <- (Qfloor_Z MAX_DELAY_MS). apply Qfloor_resp_le.
    pose proof cap_lt_huge. lra. }
  change (clamp PosInf) with MAX_DELAY_MS. unfold MAX_DELAY_MS in *. lia.
Qed.

Lemma pow2Z_pos (a : nat) : (0 < inject_Z (2 ^ Z.of_nat a))%Q.
Proof.
  change 0%Q with (inject_Z 0). rewrite <- Zlt_Qlt.
  apply Z.pow_pos_nonneg; lia.
Qed.

Lemma pow2Z_mono (a a' : nat) :
  (a <= a')%nat -> (inject_Z (2 ^ Z.of_nat a) <= inject_Z (2 ^ Z.of_nat a'))%Q.
Proof. intros H. rewrite <- Zle_Qle. apply Z.pow_le_mono_r; lia. Qed.

Lemma js_mul_PosInf_pow2 a : js_mul PosInf (js_pow2 a) = PosInf.
Proof.
  unfold js_pow2. destruct (a <? 1024)%nat; [|reflexivity].
  cbn [js_mul]. pose proof (pow2Z_pos a) as H. apply Qgt_alt in H. rewrite H. reflexivity.
Qed.

Lemma backoffBase_pos bd a :
  (0 <= bd)%Q -> (0 < round64 bd)%Q -> backoffBase bd a = Finite (baseQ bd a).
Proof.
  intros Hb Hp. unfold backoffBase, baseQ, lit. rewrite (fl_nonneg _ Hb).
  destruct (Qle_bool (pow2 1024) (round64 bd)).
  { rewrite js_mul_PosInf_pow2. reflexivity. }
  unfold js_pow2. destruct (a <? 1024)%nat.
  - cbn [js_mul]. apply min_fl_cap.
    apply Qmult_le_0_compat; [lra|]. apply Qlt_le_weak, pow2Z_pos.
  - cbn [js_mul]. apply Qgt_alt in Hp. rewrite Hp. reflexivity.
Qed.

Lemma backoffBase_zero bd a :
  (0 <= bd)%Q -> (round64 bd == 0)%Q ->
  backoffBase bd a = Finite 0 \/ backoffBase bd a = NaN.
Proof.
  intros Hb Hz. unfold backoffBase, lit. rewrite (fl_nonneg _ Hb).
  replace (Qle_bool (pow2 1024) (round64 bd)) with false.
  2:{ symmetry. apply Qle_bool_false. rewrite Hz. apply pow2_pos. }
  unfold js_pow2. destruct (a <? 1024)%nat.
  - left. cbn [js_mul]. rewrite min_fl_cap.
    + rewrite round64_zero; [reflexivity|]. rewrite Hz. apply Qmult_0_l.
    + rewrite Hz, Qmult_0_l. apply Qle_refl.
  - right. cbn [js_mul]. apply Qeq_alt in Hz. rewrite Hz. reflexivity.
Qed.

Lemma baseQ_range bd a : (0 <= bd)%Q -> (0 <= baseQ bd a <= inject_Z MAX_DELAY_MS)%Q.
Proof.
  intros Hb. unfold baseQ.
  destruct (Qle_bool _ _); [split; vm_compute; discriminate|].
  destruct (a <? 1024)%nat; [|split; vm_compute; discriminate].
  split; [|apply capQ_le]. apply capQ_ge; [|vm_compute; discriminate].
  apply round64_nonneg. apply Qmult_le_0_compat; [apply round64_nonneg; exact Hb|].
  apply Qlt_le_weak, pow2Z_pos.
Qed.

Lemma baseQ_mono bd a a' : (0 <= bd)%Q -> (a <= a')%nat -> (baseQ bd a <= baseQ bd a')%Q.
Proof.
  intros Hb H. unfold baseQ.
  destruct (Qle_bool _ _); [apply Qle_refl|].
  pose proof (round64_nonneg _ Hb) as Hr.
  destruct (a <? 1024)%nat eqn:E, (a' <? 1024)%nat eqn:E'.
  - apply capQ_mono, round64_mono.
    + apply Qmult_le_0_compat; [exact Hr|]. apply Qlt_le_weak, pow2Z_pos.
    + rewrite !(Qmult_comm (round64 bd)).
      apply Qmult_le_compat_r; [apply pow2Z_mono; exact H|exact Hr].
  - apply capQ_le.
  - apply Nat.ltb_ge in E. apply Nat.ltb_lt in E'. lia.
  - apply Qle_refl.
Qed.

Lemma round64_ge_1 q : (1 <= q)%Q -> (1 <= round64 q)%Q.
Proof. intros H. change 1%Q with (round64 1) at 1. apply round64_mono; [lra|exact H]. Qed.

Lemma baseQ_ge_1 bd a : (1 <= bd)%Q -> (1 <= baseQ bd a)%Q.
Proof.
  intros Hb. unfold baseQ.
  destruct (Qle_bool _ _); [vm_compute; discriminate|].
  destruct (a <? 1024)%nat; [|vm_compute; discriminate].
  apply capQ_ge; [|vm_compute; discriminate].
  apply round64_ge_1.
  pose proof (round64_ge_1 _ Hb).
  assert (H1 : (1 <= inject_Z (2 ^ Z.of_nat a))%Q).
  { change 1%Q with (inject_Z 1). rewrite <- Zle_Qle.
    pose proof (Z.pow_pos_nonneg 2 (Z.of_nat a)). lia. }
  nra.
Qed.

Lemma lit_110 : lit (110 # 100) = Finite c110.
Proof. vm_compute. reflexivity. Qed.

Lemma lit_015 : lit (15 # 100) = Finite c015.
Proof. vm_compute. reflexivity. Qed.

Lemma c110_ge : (110 # 100 <= c110)%Q.
Proof. vm_compute. discriminate. Qed.

Lemma c015_pos : (0 < c015)%Q.
Proof. vm_compute. reflexivity. Qed.

Lemma jitterMult_form r :
  (0 <= r)%Q ->
  jitterMult r = PosInf \/ exists j, jitterMult r = Finite j /\ (c110 <= j)%Q.
Proof.
  intros Hr. unfold jitterMult. rewrite lit_110, lit_015. unfold lit.
  rewrite (fl_nonneg _ Hr).
  destruct (Qle_bool (pow2 1024) (round64 r)).
  { left. cbn [js_mul]. pose proof c015_pos as H. apply Qgt_alt in H. rewrite H. reflexivity. }
  cbn [js_mul].
  pose proof (round64_nonneg _ Hr) as Hr'. pose proof c015_pos as Hc.
  assert (H0 : (0 <= round64 r * c015)%Q) by (apply Qmult_le_0_compat; lra).
  rewrite (fl_nonneg _ H0).
  destruct (Qle_bool (pow2 1024) (round64 (round64 r * c015))); [left; reflexivity|].
  cbn [js_add].
  pose proof (round64_nonneg _ H0) as Hp.
  assert (H1 : (0 <= c110 + round64 (round64 r * c015))%Q) by (unfold c110 at 1; lra).
  rewrite (fl_nonneg _ H1).
  destruct (Qle_bool (pow2 1024) _); [left; reflexivity|].
  right. eexists. split; [reflexivity|].
  change c110 with (round64 c110) at 1. apply round64_mono; [vm_compute; discriminate|].
  lra.
Qed.

Lemma round64_le_1 q : (0 <= q)%Q -> (q <= 1)%Q -> (round64 q <= 1)%Q.
Proof.
  intros H0 H. apply Qle_trans with (round64 1); [|vm_compute; discriminate].
  apply round64_mono; assumption.
Qed.

Lemma jitterMult_range r :
  (0 <= r)%Q -> (r < 1)%Q ->
  exists j, jitterMult r = Finite j /\ (110 # 100 <= j)%Q /\ (j <= 125 # 100)%Q.
Proof.
  intros Hr Hr1. unfold jitterMult. rewrite lit_110, lit_015. unfold lit.
  pose proof (round64_nonneg _ Hr) as Hr'.
  assert (Hr1' : (round64 r <= 1)%Q) by (apply round64_le_1; lra).
  pose proof c015_pos as Hc.
  rewrite (fl_nonneg _ Hr).
  replace (Qle_bool (pow2 1024) (round64 r)) with false.
  2:{ symmetry. apply Qle_bool_false. apply Qle_lt_trans with 1%Q; [exact Hr1'|].
      vm_compute. reflexivity. }
  cbn [js_mul].
  assert (H0 : (0 <= round64 r * c015)%Q) by (apply Qmult_le_0_compat; lra).
  assert (Hp : (0 <= round64 (round64 r * c015) <= c015)%Q).
  { split; [apply round64_nonneg; exact H0|].
    change c015 with (round64 c015) at 2. apply round64_mono; [exact H0|]. nra. }
  rewrite (fl_nonneg _ H0).
  replace (Qle_bool (pow2 1024) (round64 (round64 r * c015))) with false.
  2:{ symmetry. apply Qle_bool_false. apply Qle_lt_trans with c015; [apply Hp|].
      vm_compute. reflexivity. }
  cbn [js_add].
  assert (H1 : (0 <= c110 + round64 (round64 r * c015))%Q) by (unfold c110 at 1; lra).
  assert (Hj : (c110 <= round64 (c110 + round64 (round64 r * c015)) <= 125 # 100)%Q).
  { split.
    - change c110 with (round64 c110) at 1. apply round64_mono; [vm_compute; discriminate|lra].
    - apply Qle_trans with (round64 (c110 + c015)); [|vm_compute; discriminate].
      apply round64_mono; [exact H1|]. lra. }
  rewrite (fl_nonneg _ H1).
  replace (Qle_bool (pow2 1024) _) with false.
  2:{ symmetry. apply Qle_bool_false. apply Qle_lt_trans with (125 # 100)%Q; [apply Hj|].
      vm_compute. reflexivity. }
  eexists. split; [reflexivity|]. split; [|apply Hj].
  eapply Qle_trans; [apply c110_ge|apply Hj].
Qed.

(** The timer of the product. *)
Lemma clamp_mul_mono b b' J :
  (0 <= b)%Q -> (b <= b')%Q ->
  (J = PosInf \/ exists j, J = Finite j /\ (0 <= j)%Q) ->
  clamp (js_mul (Finite b) J) <= clamp (js_mul (Finite b') J).
Proof.
  intros Hb Hbb [->|(j & -> & Hj)].
  - cbn [js_mul]. destruct (b ?= 0)%Q eqn:E.
    + apply clamp_range.
    + apply Qlt_alt in E. lra.
    + apply Qgt_alt in E. assert (H : (0 < b')%Q) by lra.
      apply Qgt_alt in H. rewrite H. lia.
  - cbn [js_mul].
    assert (H0 : (0 <= b * j)%Q) by (apply Qmult_le_0_compat; assumption).
    assert (H1 : (b * j <= b' * j)%Q) by (apply Qmult_le_compat_r; assumption).
    rewrite !clamp_fl by lra.
    pose proof (Qfloor_resp_le _ _ (round64_mono _ _ H0 H1)). lia.
Qed.

Lemma backoffDelay_range bd a r : 1 <= backoffDelay bd a r <= MAX_DELAY_MS.
Proof. apply clamp_range. Qed.

Lemma backoffDelay_mono bd a a' r :
  (0 <= bd)%Q -> (0 <= r)%Q -> (a <= a')%nat ->
  backoffDelay bd a r <= backoffDelay bd a' r.
Proof.
  intros Hb Hr Ha.
  change (clamp (js_mul (backoffBase bd a) (jitterMult r))
          <= clamp (js_mul (backoffBase bd a') (jitterMult r))).
  assert (HJ : jitterMult r = PosInf \/ exists j, jitterMult r = Finite j /\ (0 <= j)%Q).
  { destruct (jitterMult_form r Hr) as [HJ|(j & HJ & Hj)]; [left; exact HJ|].
    right. exists j. split; [exact HJ|]. pose proof c110_ge. lra. }
  pose proof (round64_nonneg _ Hb) as Hn.
  destruct (Qeq_bool (round64 bd) 0) eqn:E.
  - apply Qeq_bool_eq in E.
    assert (H1 : forall k, clamp (js_mul (backoffBase bd k) (jitterMult r)) = 1).
    { intros k. destruct (backoffBase_zero bd k Hb E) as [->| ->]; [|reflexivity].
      destruct HJ as [->|(j & -> & Hj)]; [reflexivity|].
      cbn [js_mul]. rewrite clamp_fl by (rewrite Qmult_0_l; apply Qle_refl).
      rewrite round64_zero by apply Qmult_0_l. reflexivity. }
    rewrite !H1. lia.
  - assert (Hp : (0 < round64 bd)%Q).
    { apply Qle_lteq in Hn as [H|H]; [exact H|].
      symmetry in H. apply Qeq_eq_bool in H. congruence. }
    rewrite !backoffBase_pos by assumption.
    apply clamp_mul_mono; [apply baseQ_range; exact Hb|apply baseQ_mono; assumption|exact HJ].
Qed.

(** The delay for a base of at least one millisecond and a draw in [0, 1). *)
Lemma delayMs_value bd a r :
  (1 <= bd)%Q -> (0 <= r)%Q -> (r < 1)%Q ->
  exists b j p,
    backoffBase bd a = Finite b /\ (1 <= b)%Q /\ (b <= inject_Z MAX_DELAY_MS)%Q
    /\ jitterMult r = Finite j /\ (110 # 100 <= j)%Q /\ (j <= 125 # 100)%Q
    /\ js_mul (Finite b) (Finite j) = Finite p
    /\ delayMs bd a r = Finite (inject_Z (Z.min (Qfloor p) MAX_DELAY_MS))
    /\ backoffDelay bd a r = Z.min (Qfloor p) MAX_DELAY_MS
    /\ 1 <= Z.min (Qfloor p) MAX_DELAY_MS.
Proof.
  intros Hb Hr Hr1.
  assert (Hb0 : (0 <= bd)%Q) by lra.
  pose proof (round64_ge_1 _ Hb) as Hb1.
  assert (HB : backoffBase bd a = Finite (baseQ bd a)) by (apply backoffBase_pos; lra).
  destruct (jitterMult_range r Hr Hr1) as (j & HJ & Hj1 & Hj2).
  pose proof (baseQ_range bd a Hb0) as [_ Hcap]. pose proof (baseQ_ge_1 bd a Hb) as Hge.
  set (b := baseQ bd a) in *.
  assert (Hcap' : (b <= 15000)%Q) by exact Hcap.
  assert (H0 : (0 <= b * j)%Q) by nra.
  assert (Hp1 : (1 <= round64 (b * j))%Q) by (apply round64_ge_1; nra).
  assert (Hp2 : (round64 (b * j) <= 18750)%Q).
  { change 18750%Q with (round64 18750). apply round64_mono; [exact H0|]. nra. }
  exists b, j, (round64 (b * j)).
  assert (Hm : js_mul (Finite b) (Finite j) = Finite (round64 (b * j))).
  { cbn [js_mul]. rewrite (fl_nonneg _ H0).
    replace (Qle_bool (pow2 1024) _) with false; [reflexivity|].
    symmetry. apply Qle_bool_false. apply Qle_lt_trans with 18750%Q; [exact Hp2|].
    vm_compute. reflexivity. }
  assert (Hf : 1 <= Qfloor (round64 (b * j))).
  { rewrite <- (Qfloor_Z 1). apply Qfloor_resp_le. exact Hp1. }
  assert (Hd : delayMs bd a r
               = Finite (inject_Z (Z.min (Qfloor (round64 (b * j))) MAX_DELAY_MS))).
  { unfold delayMs. rewrite HB, HJ, Hm. cbn [js_floor js_min].
    destruct (Qle_bool _ _) eqn:E.
    - apply Qle_bool_iff in E. rewrite <- Zle_Qle in E. rewrite Z.min_l by exact E. reflexivity.
    - apply Qle_bool_false in E. rewrite <- Zlt_Qlt in E. rewrite Z.min_r by lia. reflexivity. }
  repeat split; try assumption.
  - unfold backoffDelay. rewrite Hd. apply timeout_Z. unfold MAX_DELAY_MS. lia.
  - unfold MAX_DELAY_MS. lia.
Qed.

(** [Math.round(mult * 100)] is at least 100 for a multiplier of at least 1. *)

Lemma percent_ge mult :
  (1 <= mult)%Q -> percent mult = PosInf \/ exists m, percent mult = Finite (inject_Z m) /\ 100 <= m.
Proof.
  intros Hm. unfold percent, lit.
  assert (H0 : (0 <= mult)%Q) by lra.
  pose proof (round64_ge_1 _ Hm) as H1.
  rewrite (fl_nonneg _ H0). destruct (Qle_bool (pow2 1024) (round64 mult)); [left; reflexivity|].
  cbn [js_mul].
  assert (H2 : (0 <= round64 mult * (100 # 1))%Q) by nra.
  rewrite (fl_nonneg _ H2). destruct (Qle_bool (pow2 1024) _); [left; reflexivity|].
  right. cbn [js_round]. eexists. split; [reflexivity|].
  assert (H3 : (100 # 1 <= round64 (round64 mult * (100 # 1)))%Q).
  { apply Qle_trans with (round64 (100 # 1)); [vm_compute; discriminate|].
    apply round64_mono; [vm_compute; discriminate|]. nra. }
  assert (H4 : (inject_Z 100 <= round64 (round64 mult * (100 # 1)) + (1 # 2))%Q)
    by (change (inject_Z 100) with (100 # 1)%Q; lra).
  apply Qfloor_resp_le in H4. rewrite Qfloor_Z in H4. exact H4.
Qed.

End NumberFacts.

(** Values computed as the sources compute them. The sum of 0.1 and 0.2 is
    the double above 0.3. The double 1.005 times 100 is below 100.5, so a
    bump by 1.005 is a bump by 100 percent; a bump by 1.25 adds a quarter; a
    multiplier beyond the doubles makes [BigInt] throw. With
    [Math.random()] at 300239975158033 / 2^52 the first backoff of
    [retryRpc] is 555 ms; with every draw, [2 ** attempt] beyond the doubles
    is [Infinity] and the delay is the cap; a base delay of 0 gives a NaN
    there, and the timer waits 1 ms. *)
Lemma double_examples :
  js_add (lit (1 # 10)) (lit (2 # 10))
    = Finite (1351079888211149 # 4503599627370496)
  /\ lit (3 # 10) = Finite (5404319552844595 # 18014398509481984)
  /\ Worker.percent (1005 # 1000) = Finite (100 # 1)
  /\ Worker.bumpBig 1000 (1005 # 1000) = Ok 1000
  /\ Worker.bumpBig 1000 (125 # 100) = Ok 1250
  /\ Worker.bumpBig 1000 (inject_Z (10 ^ 400)) = Throw (Worker.rangeError "Infinity")
  /\ Retry.backoffDelay (500 # 1) 0 draw1 = 555
  /\ Retry.backoffDelay (500 # 1) 2000 (1 # 2) = 15000
  /\ Retry.delayMs 0 2000 (1 # 2) = NaN
  /\ Retry.backoffDelay 0 2000 (1 # 2) = 1.
Proof. repeat split; vm_compute; reflexivity. Qed.

(** ** Strings and classification *)

Lemma slice0_length n s : (String.length (JsString.slice0 n s) <= n)%nat.
Proof.
  revert s; induction n as [|n IH]; intros [|c s]; simpl; try lia.
  specialize (IH s). lia.
Qed.

Lemma slice0_short n s :
  (String.length s <= n)%nat -> JsString.slice0 n s = s.
Proof.
  revert s; induction n as [|n IH]; intros [|c s]; simpl; intros Hl;
    try reflexivity; try lia.
  f_equal. apply IH. lia.
Qed.

Section ClassificationExamples.
Import Retry Scenario.

Example http_429_retryable :
  isRetryableError (http_error 429 "Too Many Requests") = true.
Proof. reflexivity. Qed.

Example http_500_retryable :
  isRetryableError (http_error 500 "Internal Server Error") = true
  /\ failFast (http_error 500 "Internal Server Error") = false.
Proof. split; reflexivity. Qed.

Example http_400_failfast : failFast (http_error 400 "Bad Request") = true.
Proof. reflexivity. Qed.

Example econnreset_retryable :
  isRetryableError (newError "read ECONNRESET") = true.
Proof. reflexivity. Qed.

Example http_403_throttled :
  isRetryableError (http_error 403 "Forbidden: request rate exceeded") = true
  /\ isRetryableError (http_error 403 "Forbidden") = false.
Proof. split; reflexivity. Qed.

Example unknown_not_retryable :
  isRetryableError (newError "something odd") = false
  /\ failFast (newError "something odd") = false.
Proof. split; reflexivity. Qed.

(** [timed?out] has no blank: "ETIMEDOUT" and "timeout" match, "timed out"
    does not. *)
Example timed_out_retryable :
  isRetryableError (newError "connect ETIMEDOUT 10.0.0.1:443") = true
  /\ isRetryableError (newError "request timeout") = true
  /\ isRetryableError (newError "request timed out") = false.
Proof. repeat split; reflexivity. Qed.

Example revert_failfast_not_retryable :
  failFast (newError "execution reverted: paused") = true
  /\ isRetryableError (newError "execution reverted: paused") = false.
Proof. split; reflexivity. Qed.

Example wait_timeout_retryable :
  isRetryableError wait_timeout = true /\ failFast wait_timeout = false.
Proof. split; reflexivity. Qed.

End ClassificationExamples.

(** ** [retryRpc] *)

Section RetryFacts.
Import Retry.

Context {Chain : Type} `{Provider Chain}.
Context {T : Type}.
Variable fn : Op Chain T.
Variable maxRetries : nat.
Variable baseDelayMs : Q.

(** One iteration of the loop. *)
Lemma retryLoop_step fuel attempt w :
  retryLoop fn maxRetries baseDelayMs (S fuel) attempt w =
  match fn w with
  | (Ok v, w1) => Some (Ok v, w1)
  | (Throw err, w1) =>
      if failFast err || (maxRetries <=? attempt)%nat || negb (isRetryableError err)
      then Some (Throw err, w1)
      else retryLoop fn maxRetries baseDelayMs fuel (S attempt)
             (backoff baseDelayMs attempt w1)
  end.
Proof.
  cbn [retryLoop]. unfold tryCatch, lift.
  destruct (fn w) as [[v|err] w1]; [reflexivity|].
  destruct (failFast err || (maxRetries <=? attempt)%nat || negb (isRetryableError err));
    [reflexivity|].
  unfold bind, lift, random, sleep, backoff. reflexivity.
Qed.

(** The loop returns once the fuel exceeds the retries that are left. *)
Lemma retryLoop_returns fuel attempt w :
  (0 < fuel)%nat ->
  (maxRetries < attempt + fuel)%nat ->
  exists r w', retryLoop fn maxRetries baseDelayMs fuel attempt w = Some (r, w').
Proof.
  revert attempt w. induction fuel as [|fuel IH]; intros attempt w Hpos Hf.
  - exfalso. lia.
  - rewrite retryLoop_step.
    destruct (fn w) as [[v|err] w1]; [eauto|].
    destruct (failFast err) eqn:Hff; cbn [orb]; [eauto|].
    destruct (maxRetries <=? attempt)%nat eqn:Hle; cbn [orb]; [eauto|].
    destruct (isRetryableError err); cbn [negb]; [|eauto].
    apply Nat.leb_gt in Hle. apply IH; lia.
Qed.

Lemma retryRpc_returns w :
  exists r w', retryRpc fn maxRetries baseDelayMs w = Some (r, w').
Proof. unfold retryRpc. apply retryLoop_returns; lia. Qed.

Lemma retryLoop_FailsThenReturns attempt n w v w' :
  FailsThenReturns fn baseDelayMs attempt n w v w' ->
  forall fuel,
  (attempt + n <= maxRetries)%nat ->
  (n < fuel)%nat ->
  retryLoop fn maxRetries baseDelayMs fuel attempt w = Some (Ok v, w').
Proof.
  induction 1 as [a w v w' Hfn | a n w e w1 v w' Hfn Hff Hre Hrest IH];
    intros fuel Hle Hfuel; (destruct fuel as [|fuel]; [lia|]);
    rewrite retryLoop_step, Hfn.
  - reflexivity.
  - rewrite Hff, Hre. cbn [orb negb].
    replace (maxRetries <=? a)%nat with false
      by (symmetry; apply Nat.leb_gt; lia).
    cbn [orb]. apply IH; lia.
Qed.

Lemma KeepsFailing_pos attempt n w e w' :
  KeepsFailing fn baseDelayMs attempt n w e w' -> (0 < n)%nat.
Proof. destruct 1; lia. Qed.

Lemma retryLoop_KeepsFailing attempt n w e w' :
  KeepsFailing fn baseDelayMs attempt n w e w' ->
  forall fuel,
  (attempt + n = S maxRetries)%nat ->
  (n <= fuel)%nat ->
  retryLoop fn maxRetries baseDelayMs fuel attempt w = Some (Throw e, w').
Proof.
  induction 1 as [a w e w' Hfn | a n w e0 w1 e w' Hfn Hff Hre Hrest IH];
    intros fuel Hle Hfuel; (destruct fuel as [|fuel]; [lia|]);
    rewrite retryLoop_step, Hfn.
  - replace (maxRetries <=? a)%nat with true
      by (symmetry; apply Nat.leb_le; lia).
    rewrite orb_true_r. reflexivity.
  - rewrite Hff, Hre. cbn [orb negb].
    apply KeepsFailing_pos in Hrest as Hpos.
    replace (maxRetries <=? a)%nat with false
      by (symmetry; apply Nat.leb_gt; lia).
    cbn [orb]. apply IH; lia.
Qed.

(** C6 (as amended). An operation that throws [N] times, each time a
    retryable error that is not fail-fast, and then returns, with
    [N <= maxRetries], makes [retryRpc] return the value after [N] retries;
    an operation that throws on each of its first [maxRetries + 1] calls makes
    [retryRpc] rethrow the error of call number [maxRetries + 1], after
    exactly [maxRetries + 1] attempts ([maxRetries] retries). *)
Theorem retryRpc_outcome :
  (forall N w v w',
      FailsThenReturns fn baseDelayMs 0 N w v w' ->
      (N <= maxRetries)%nat ->
      retryRpc fn maxRetries baseDelayMs w = Some (Ok v, w'))
  /\
  (forall w e w',
      KeepsFailing fn baseDelayMs 0 (S maxRetries) w e w' ->
      retryRpc fn maxRetries baseDelayMs w = Some (Throw e, w')).
Proof.
  split.
  - intros N w v w' Hf Hle. unfold retryRpc.
    eapply retryLoop_FailsThenReturns; eauto; lia.
  - intros w e w' Hf. unfold retryRpc.
    eapply retryLoop_KeepsFailing; eauto.
Qed.

(** C10. An error that is both fail-fast and retryable is rethrown on the
    attempt that raised it: the world [retryRpc] leaves is the one the single
    call of the operation left, with no value of [Math.random()] consumed and
    no delay slept. *)
Theorem retryRpc_failFast_first (err : JsError) (w w' : World Chain) :
  fn w = (Throw err, w') ->
  failFast err = true ->
  isRetryableError err = true ->
  retryRpc fn maxRetries baseDelayMs w = Some (Throw err, w').
Proof.
  intros Hfn Hff _. unfold retryRpc.
  rewrite retryLoop_step, Hfn, Hff. reflexivity.
Qed.

(** C7 (as amended). When attempt number [attempt] throws an error that is
    retried, the loop goes on with attempt [attempt + 1] after a sleep of
    [delay = min(floor(base * jitter), 15000)] ms, where
    [base = min(baseDelayMs * 2^attempt, 15000)] and
    [jitter = 1.10 + r * 0.15] for the value [r] of [Math.random()], every
    operation being the one of doubles. For [baseDelayMs] of 1 ms or more
    and [r] in [0, 1): [base] lies in [1, 15000]; [jitter] lies in
    [1.10, 1.25], both ends included; the product is finite and [delay] is
    its integer part or 15000, an integer between 1 and 15000, which is the
    time the timer waits. *)
Theorem retryRpc_backoff_delay (fuel attempt : nat) (err : JsError) (w w1 : World Chain) :
  fn w = (Throw err, w1) ->
  failFast err = false ->
  isRetryableError err = true ->
  (attempt < maxRetries)%nat ->
  let r := rnd w1 0%nat in
  let base := js_min (js_mul (lit baseDelayMs) (js_pow2 attempt)) (Finite (15000 # 1)) in
  let jitter := js_add (lit (110 # 100)) (js_mul (lit r) (lit (15 # 100))) in
  let delay := js_min (js_floor (js_mul base jitter)) (Finite (15000 # 1)) in
  retryLoop fn maxRetries baseDelayMs (S fuel) attempt w =
    retryLoop fn maxRetries baseDelayMs fuel (S attempt)
      (advance (timeout delay) (log (EvSleep (inject_Z (timeout delay))) (next_rnd w1)))
  /\ ((1 <= baseDelayMs)%Q -> (0 <= r)%Q -> (r < 1)%Q ->
      exists b j p,
        base = Finite b /\ (1 <= b)%Q /\ (b <= 15000 # 1)%Q
        /\ jitter = Finite j /\ (110 # 100 <= j)%Q /\ (j <= 125 # 100)%Q
        /\ js_mul (Finite b) (Finite j) = Finite p
        /\ delay = Finite (inject_Z (Z.min (Qfloor p) 15000))
        /\ timeout delay = Z.min (Qfloor p) 15000
        /\ 1 <= Z.min (Qfloor p) 15000).
Proof.
  intros Hfn Hff Hre Hlt r base jitter delay. split.
  - rewrite retryLoop_step, Hfn, Hff, Hre. cbn [orb negb].
    replace (maxRetries <=? attempt)%nat with false
      by (symmetry; apply Nat.leb_gt; lia).
    reflexivity.
  - intros Hb H0 H1.
    destruct (delayMs_value baseDelayMs attempt r Hb H0 H1)
      as (b & j & p & HB & Hb1 & Hb2 & HJ & Hj1 & Hj2 & Hm & Hd & Ht & Hge).
    exists b, j, p.
    change base with (backoffBase baseDelayMs attempt).
    change jitter with (jitterMult r).
    change delay with (delayMs baseDelayMs attempt r).
    rewrite HB, HJ. repeat split; try assumption.
Qed.

End RetryFacts.

(** ** [retryRpc] on the scripted endpoint *)

Section RetryRuns.
Import Retry Scenario.

(** Two failures, then the value: returned after two retries (three calls). *)
Lemma retryRpc_outcome_witness :
  exists w',
    retryRpc balanceOf 3 (500 # 1) (flaky 2 e500) = Some (Ok 7, w')
    /\ sc_calls (chain w') = 3%nat
    /\ sleeps (trace w') = [550 # 1; 1100 # 1]%Q.
Proof.
  eexists. split.
  - apply (proj1 (retryRpc_outcome balanceOf 3 (500 # 1))) with (N := 2%nat); [|lia].
    eapply ftr_fails; [vm_compute; reflexivity | reflexivity | reflexivity |].
    eapply ftr_fails; [vm_compute; reflexivity | reflexivity | reflexivity |].
    eapply ftr_returns. vm_compute. reflexivity.
  - split; reflexivity.
Defined.

(** C6, as stated, fails at [N = maxRetries = 1]: the operation throws once
    and then returns, and [retryRpc] returns its value after a second call
    instead of rethrowing; an operation that keeps throwing is called twice,
    not once, before its error is rethrown. *)
Lemma retryRpc_outcome_counterexample :
  (exists w',
      retryRpc balanceOf 1 (500 # 1) (flaky 1 e500) = Some (Ok 7, w')
      /\ sc_calls (chain w') = 2%nat)
  /\
  (exists w',
      retryRpc balanceOf 1 (500 # 1) (flaky 5 e500) = Some (Throw e500, w')
      /\ sc_calls (chain w') = 2%nat).
Proof.
  split; eexists; (split; [vm_compute; reflexivity | reflexivity]).
Qed.

(** An error with status 500 and the message of an underfunded account is
    retryable by its status and fail-fast by its message: it is rethrown
    after one call, with no delay slept. *)
Lemma retryRpc_failFast_first_witness :
  exists w',
    retryRpc balanceOf 3 (500 # 1) (flaky 5 e500_funds) = Some (Throw e500_funds, w')
    /\ sc_calls (chain w') = 1%nat
    /\ sleeps (trace w') = [].
Proof.
  eexists. split.
  - apply (retryRpc_failFast_first balanceOf 3 (500 # 1) e500_funds (flaky 5 e500_funds)).
    + vm_compute. reflexivity.
    + reflexivity.
    + reflexivity.
  - split; reflexivity.
Defined.

(** The first backoff with the default parameters when [Math.random()]
    returns 300239975158033 / 2^52: the jitter is a double just above
    1.11, its product with 500 rounds to 555, and 555 ms are slept. *)
Lemma retryRpc_backoff_delay_witness :
  exists w1,
    balanceOf (with_random (fun _ => draw1) (flaky 5 e500)) = (Throw e500, w1)
    /\ retryLoop balanceOf 3 (500 # 1) 4 0 (with_random (fun _ => draw1) (flaky 5 e500)) =
       retryLoop balanceOf 3 (500 # 1) 3 1
         (advance 555 (log (EvSleep (555 # 1)) (next_rnd w1)))
    /\ exists j p,
         jitterMult draw1 = Finite j /\ (110 # 100 <= j)%Q /\ (j <= 125 # 100)%Q
         /\ js_mul (Finite (500 # 1)) (Finite j) = Finite p
         /\ Z.min (Qfloor p) 15000 = 555.
Proof.
  eexists. split; [vm_compute; reflexivity|].
  destruct (retryRpc_backoff_delay balanceOf 3 (500 # 1) 3 0 e500
              (with_random (fun _ => draw1) (flaky 5 e500)) _
              ltac:(vm_compute; reflexivity) eq_refl eq_refl ltac:(lia))
    as [Hstep Hnum].
  split.
  - etransitivity; [exact Hstep|]. vm_compute. reflexivity.
  - destruct Hnum as (b & j & p & HB & _ & _ & HJ & Hj1 & Hj2 & Hm & _ & Ht & _);
      [vm_compute; discriminate|vm_compute; discriminate|vm_compute; reflexivity|].
    vm_compute in HB, HJ. injection HB as <-. injection HJ as <-.
    eexists _, p. split; [vm_compute; reflexivity|].
    repeat split; try assumption.
    rewrite <- Ht. vm_compute. reflexivity.
Defined.

(** C7, as stated, fails in two ways. The product is floored: with
    [baseDelayMs = 500] and [Math.random() = 0.5] the product is 587.5 and
    587 ms are slept. The delay is capped a second time: the sixth attempt
    has base [min(16000, 15000)] and jitter at least 1.10, and the delay
    slept is 15000 ms, below [15000 * 1.10]; the delays of a run with
    [Math.random() = 0] are 550, 1100, 2200, 4400, 8800, 15000. *)
Lemma retryRpc_backoff_delay_counterexample :
  (js_mul (backoffBase (500 # 1) 0) (jitterMult (1 # 2)) = Finite (1175 # 2)
   /\ backoffDelay (500 # 1) 0 (1 # 2) = 587)
  /\ (backoffBase (500 # 1) 5 = Finite (15000 # 1)
      /\ (exists j, jitterMult 0 = Finite j /\ (110 # 100 <= j)%Q)
      /\ backoffDelay (500 # 1) 5 0 = 15000
      /\ (inject_Z 15000 < (15000 # 1) * (110 # 100))%Q)
  /\ (exists w',
        retryRpc balanceOf 6 (500 # 1) (flaky 9 e500) = Some (Throw e500, w')
        /\ sleeps (trace w') =
           [550 # 1; 1100 # 1; 2200 # 1; 4400 # 1; 8800 # 1; 15000 # 1]%Q).
Proof.
  split; [split; vm_compute; reflexivity|].
  split.
  - split; [vm_compute; reflexivity|].
    split; [eexists; split; [vm_compute; reflexivity|vm_compute; discriminate]|].
    split; vm_compute; reflexivity.
  - eexists. split; [vm_compute; reflexivity | reflexivity].
Qed.

End RetryRuns.

(** ** Runs: how programs extend the trace and change the table *)

Section ProgramLogic.
Import Retry.

Context {Chain : Type} `{Provider Chain}.
Implicit Types (w : World Chain) (P Q : Event -> Prop).

Lemma replay_app evs1 evs2 t :
  replay (evs1 ++ evs2) t = replay evs2 (replay evs1 t).
Proof. unfold replay. apply fold_left_app. Qed.

Lemma replay_cons e evs t :
  replay (e :: evs) t =
  replay evs (match e with EvSql s => Db.exec s t | _ => t end).
Proof. reflexivity. Qed.

Lemma replay_no_sql evs t :
  Forall (fun e => is_sql e = false) evs -> replay evs t = t.
Proof.
  intros Hf. revert t. induction Hf as [|e evs He _ IH]; intros t; [reflexivity|].
  cbn. destruct e; try discriminate; apply IH.
Qed.

Lemma run_refl P w : run P w w.
Proof.
  exists []. split; [symmetry; apply app_nil_r|]. split; [constructor|reflexivity].
Qed.

Lemma run_trans P w1 w2 w3 : run P w1 w2 -> run P w2 w3 -> run P w1 w3.
Proof.
  intros (e1 & Ht1 & Hp1 & Hd1) (e2 & Ht2 & Hp2 & Hd2).
  exists (e1 ++ e2). split; [|split].
  - rewrite Ht2, Ht1. symmetry. apply app_assoc.
  - apply Forall_app. split; assumption.
  - rewrite Hd2, Hd1. symmetry. apply replay_app.
Qed.

Lemma run_weaken P Q w w' :
  (forall e, P e -> Q e) -> run P w w' -> run Q w w'.
Proof.
  intros HPQ (evs & Ht & Hp & Hd). exists evs. split; [exact Ht|]. split; [|exact Hd].
  eapply Forall_impl; eauto.
Qed.

(** A step that touches neither the trace nor the table. *)
Lemma run_silent P w w' : trace w' = trace w -> db w' = db w -> run P w w'.
Proof.
  intros Ht Hd. exists []. split; [rewrite Ht; symmetry; apply app_nil_r|].
  split; [constructor|exact Hd].
Qed.

(** A step that issues one effect. *)
Lemma run_event P e w w' :
  P e -> trace w' = (trace w ++ [e])%list -> db w' = replay [e] (db w) -> run P w w'.
Proof.
  intros He Ht Hd. exists [e]. split; [exact Ht|]. split; [|exact Hd].
  constructor; [exact He|constructor].
Qed.

(** A run of a class without statements leaves the table as it was. *)
Lemma run_no_sql_db P w w' :
  (forall e, P e -> is_sql e = false) -> run P w w' -> db w' = db w.
Proof.
  intros HP (evs & _ & Hp & Hd). rewrite Hd. apply replay_no_sql.
  eapply Forall_impl; eauto.
Qed.

Lemma run_sleep P ms w :
  P (EvSleep (inject_Z (timeout ms))) -> run P w (snd (sleep ms w)).
Proof. intros HP. eapply run_event; [exact HP | reflexivity | reflexivity]. Qed.

Lemma run_random P w : run P w (snd (random w)).
Proof. apply run_silent; reflexivity. Qed.

Lemma run_backoff P bd a w : (forall ms, P (EvSleep ms)) -> run P w (backoff bd a w).
Proof. intros HP. eapply run_event; [apply HP | reflexivity | reflexivity]. Qed.

Lemma run_rpc {A} P c (f : Chain -> Res A * Chain) w :
  P (EvRpc c) -> run P w (snd (rpc c f w)).
Proof.
  intros HP. unfold rpc. cbn. destruct (f (chain w)) as [r ch]. cbn.
  eapply run_event; [exact HP | reflexivity | reflexivity].
Qed.

Lemma run_query P s w : P (EvSql s) -> run P w (snd (query s w)).
Proof. intros HP. eapply run_event; [exact HP | reflexivity | reflexivity]. Qed.

(** *** Rules *)

Lemma runs_ret {A} P (a : A) : runs P (ret (Chain := Chain) a).
Proof. intros w r w' [= <- <-]. apply run_refl. Qed.

Lemma runs_throw {A} P e : runs P (throw (Chain := Chain) (A := A) e).
Proof. intros w r w' [= <- <-]. apply run_refl. Qed.

(** A value computed without effect, or the exception it throws. *)
Lemma runs_res {A} P (x : Res A) : runs P (fun w : World Chain => Some (x, w)).
Proof. intros w r w' [= <- <-]. apply run_refl. Qed.

Lemma runs_lift {A} P (op : Op Chain A) :
  (forall w, run P w (snd (op w))) -> runs P (lift op).
Proof. intros Hop w r w' [= Hr]. specialize (Hop w). rewrite Hr in Hop. exact Hop. Qed.

Lemma runs_bind {A B} P (m : M Chain A) (k : A -> M Chain B) :
  runs P m -> (forall a, runs P (k a)) -> runs P (bind m k).
Proof.
  intros Hm Hk w r w'. unfold bind.
  destruct (m w) as [[[a|e] w1]|] eqn:Em; [| |discriminate].
  - intros Hk'. eapply run_trans; [eapply Hm; eauto | eapply Hk; eauto].
  - intros [= <- <-]. eapply Hm; eauto.
Qed.

Lemma runs_tryCatch {A} P (m : M Chain A) (h : JsError -> M Chain A) :
  runs P m -> (forall e, runs P (h e)) -> runs P (tryCatch m h).
Proof.
  intros Hm Hh w r w'. unfold tryCatch.
  destruct (m w) as [[[a|e] w1]|] eqn:Em; [| |discriminate].
  - intros [= <- <-]. eapply Hm; eauto.
  - intros Hh'. eapply run_trans; [eapply Hm; eauto | eapply Hh; eauto].
Qed.

Lemma runs_tryFinally {A} P (m : M Chain A) (fin : M Chain unit) :
  runs P m -> runs P fin -> runs P (tryFinally m fin).
Proof.
  intros Hm Hf w r w'. unfold tryFinally.
  destruct (m w) as [[r1 w1]|] eqn:Em; [|discriminate].
  destruct (fin w1) as [[[u|e] w2]|] eqn:Ef; [| |discriminate];
    intros [= <- <-]; (eapply run_trans; [eapply Hm; eauto | eapply Hf; eauto]).
Qed.

Lemma runs_weaken {A} P Q (m : M Chain A) :
  (forall e, P e -> Q e) -> runs P m -> runs Q m.
Proof. intros HPQ Hm w r w' Hw. eapply run_weaken; eauto. Qed.

Lemma runs_retryLoop {T} P (fn : Op Chain T) mr bd fuel :
  (forall w, run P w (snd (fn w))) ->
  (forall ms, P (EvSleep ms)) ->
  forall a, runs P (retryLoop fn mr bd fuel a).
Proof.
  intros Hfn Hs. induction fuel as [|fuel IH]; intros a w r w'; [discriminate|].
  rewrite retryLoop_step. pose proof (Hfn w) as Hw.
  destruct (fn w) as [[v|err] w1]; cbn in Hw.
  - intros [= <- <-]. exact Hw.
  - destruct (failFast err || (mr <=? a)%nat || negb (isRetryableError err)).
    + intros [= <- <-]. exact Hw.
    + intros Hr. eapply run_trans; [exact Hw|].
      eapply run_trans; [apply run_backoff; exact Hs|]. eapply IH; eauto.
Qed.

Lemma runs_retryRpc {T} P (fn : Op Chain T) mr bd :
  (forall w, run P w (snd (fn w))) ->
  (forall ms, P (EvSleep ms)) ->
  runs P (retryRpc fn mr bd).
Proof. intros Hfn Hs. apply runs_retryLoop; assumption. Qed.

(** A retried provider call issues that call and timers, nothing else. *)
Lemma runs_retry_rpc {A} P c (f : Chain -> Res A * Chain) :
  P (EvRpc c) -> (forall ms, P (EvSleep ms)) -> runs P (retryRpc_default (rpc c f)).
Proof. intros Hc Hs. apply runs_retryRpc; [intros w; apply run_rpc; exact Hc | exact Hs]. Qed.

(** *** Programs return *)

Lemma returns_ret {A} (a : A) : returns (ret (Chain := Chain) a).
Proof. intros w. eexists _, _. reflexivity. Qed.

Lemma returns_throw {A} e : returns (throw (Chain := Chain) (A := A) e).
Proof. intros w. eexists _, _. reflexivity. Qed.

Lemma returns_res {A} (x : Res A) : returns (fun w : World Chain => Some (x, w)).
Proof. intros w. eexists _, _. reflexivity. Qed.

Lemma returns_lift {A} (op : Op Chain A) : returns (lift op).
Proof. intros w. unfold lift. destruct (op w) as [r w']. eauto. Qed.

Lemma returns_bind {A B} (m : M Chain A) (k : A -> M Chain B) :
  returns m -> (forall a, returns (k a)) -> returns (bind m k).
Proof.
  intros Hm Hk w. unfold bind. destruct (Hm w) as (r & w1 & ->).
  destruct r as [a|e]; [apply Hk | eauto].
Qed.

Lemma returns_tryCatch {A} (m : M Chain A) (h : JsError -> M Chain A) :
  returns m -> (forall e, returns (h e)) -> returns (tryCatch m h).
Proof.
  intros Hm Hh w. unfold tryCatch. destruct (Hm w) as (r & w1 & ->).
  destruct r as [a|e]; [eauto | apply Hh].
Qed.

Lemma returns_tryFinally {A} (m : M Chain A) (fin : M Chain unit) :
  returns m -> returns fin -> returns (tryFinally m fin).
Proof.
  intros Hm Hf w. unfold tryFinally. destruct (Hm w) as (r & w1 & ->).
  destruct (Hf w1) as (r2 & w2 & ->). destruct r2; eauto.
Qed.

Lemma returns_retryRpc {T} (fn : Op Chain T) mr bd : returns (retryRpc fn mr bd).
Proof. intros w. apply retryRpc_returns. Qed.

End ProgramLogic.

(** ** The request table *)

Section DbFacts.
Import Db.

Lemma update_where_ids cond set t :
  (forall r, id (set r) = id r) ->
  map id (update_where cond set t) = map id t.
Proof.
  intros Hset. unfold update_where. rewrite map_map. apply map_ext.
  intros r. destruct (cond r); [apply Hset|reflexivity].
Qed.

(** No statement changes an id. *)
Lemma exec_ids s t : map id (exec s t) = map id t.
Proof. destruct s; cbn [exec]; try apply update_where_ids; reflexivity. Qed.

Lemma exec_UniqueIds s t : UniqueIds t -> UniqueIds (exec s t).
Proof. unfold UniqueIds. rewrite exec_ids. trivial. Qed.

(** No statement but [SetBroadcast] changes a hash. *)
Lemma exec_hashes s t :
  match s with SetBroadcast _ _ => False | _ => True end ->
  hashes (exec s t) = hashes t.
Proof.
  unfold hashes.
  destruct s; cbn [exec]; intros Hs; try contradiction; try reflexivity;
    unfold update_where; rewrite map_map; apply map_ext; intros r;
    match goal with |- context [if ?c then _ else _] => destruct c end; reflexivity.
Qed.

Lemma hashes_ids t : map id t = map fst (hashes t).
Proof. unfold hashes. rewrite map_map. reflexivity. Qed.

Lemma HashOnRow_hashes t t' f :
  hashes t' = hashes t -> HashOnRow t f -> HashOnRow t' f.
Proof.
  intros He Hh Hf x Hx Hid.
  assert (Hin : In (id x, tx_hash x) (hashes t')).
  { unfold hashes. apply in_map_iff. exists x. split; [reflexivity|exact Hx]. }
  rewrite He in Hin. unfold hashes in Hin. apply in_map_iff in Hin as (x0 & [= Hi Ht] & Hx0).
  rewrite <- Ht. apply (Hh Hf x0 Hx0). congruence.
Qed.

(** [SetSent i] keeps the hash of every row in flight when the rows with id
    [i] have one. *)
Lemma exec_SetSent_InflightHaveHash i t :
  InflightHaveHash t ->
  (forall x, In x t -> id x = i -> tx_hash x <> None) ->
  InflightHaveHash (exec (SetSent i) t).
Proof.
  unfold InflightHaveHash. rewrite !Forall_forall. intros Ht Hi y Hy.
  cbn [exec] in Hy. unfold update_where in Hy.
  apply list_elem_of_In, in_map_iff in Hy as (x & <- & Hx).
  destruct (id x =? i) eqn:Hc.
  - apply Z.eqb_eq in Hc. specialize (Hi x Hx Hc).
    unfold hash_if_inflight. cbn. destruct (tx_hash x); [reflexivity|contradiction].
  - apply Ht. apply list_elem_of_In. exact Hx.
Qed.

Lemma In_insert_by_created x r l :
  In x (insert_by_created r l) -> x = r \/ In x l.
Proof.
  induction l as [|y l IH]; cbn.
  - intros [->|[]]. left. reflexivity.
  - destruct (created_at r <=? created_at y); cbn.
    + intros [->|[->|Hx]]; auto.
    + intros [->|Hx]; [auto|]. destruct (IH Hx); auto.
Qed.

Lemma In_order_by_created x l : In x (order_by_created l) -> In x l.
Proof.
  induction l as [|y l IH]; cbn; [trivial|].
  intros Hx. apply In_insert_by_created in Hx as [->|Hx]; auto.
Qed.

Lemma In_firstn {A} (x : A) n l : In x (firstn n l) -> In x l.
Proof.
  revert l. induction n as [|n IH]; intros [|y l]; cbn; try contradiction.
  intros [->|Hx]; auto.
Qed.

(** Every fetched row is a row of the table. *)
Lemma select_broadcast_In n t f :
  In f (select_broadcast n t) -> exists r, In r t /\ f = fetched r.
Proof.
  unfold select_broadcast. rewrite in_map_iff. intros (r & <- & Hr).
  exists r. split; [|reflexivity].
  apply In_firstn, In_order_by_created, filter_In in Hr as [Hr _]. exact Hr.
Qed.

Lemma UniqueIds_eq t x y :
  UniqueIds t -> In x t -> In y t -> id x = id y -> x = y.
Proof.
  unfold UniqueIds. induction t as [|r t IH]; cbn; [contradiction|].
  intros Hnd. apply NoDup_cons in Hnd as [Hr Hnd].
  intros [->|Hx] [->|Hy] Hid; auto.
  - exfalso. apply Hr. rewrite Hid. apply list_elem_of_In, in_map. exact Hy.
  - exfalso. apply Hr. rewrite <- Hid. apply list_elem_of_In, in_map. exact Hx.
Qed.

(** On a table with unique ids, a fetched row that shows a hash is the only
    row with its id. *)
Lemma select_broadcast_HashOnRow n t :
  UniqueIds t -> Forall (HashOnRow t) (select_broadcast n t).
Proof.
  intros Hu. apply Forall_forall. intros f Hf Hfalsy x Hx Hid.
  apply list_elem_of_In, select_broadcast_In in Hf as (r & Hr & ->).
  cbn in Hid, Hfalsy. rewrite (UniqueIds_eq t x r Hu Hx Hr Hid).
  destruct (tx_hash r); [discriminate|discriminate Hfalsy].
Qed.

Lemma replay_ids evs t : map id (replay evs t) = map id t.
Proof.
  revert t. induction evs as [|e evs IH]; intros t; [reflexivity|].
  cbn. rewrite IH. destruct e; try reflexivity. apply exec_ids.
Qed.

Lemma update_where_Forall (Q : Row -> Prop) cond set t :
  (forall r, Q r -> cond r = true -> Q (set r)) ->
  Forall Q t -> Forall Q (update_where cond set t).
Proof.
  intros Hset Ht. unfold update_where. apply Forall_map.
  eapply Forall_impl; [exact Ht|]. intros r Hr. cbn.
  destruct (cond r) eqn:Hc; [apply Hset; assumption|exact Hr].
Qed.

(** Every row of the table after [SetBroadcast h i] that has id [i] is in
    status broadcast with hash [h]. *)
Lemma exec_SetBroadcast_row h i t r :
  In r (exec (SetBroadcast h i) t) -> id r = i ->
  status r = Broadcast /\ tx_hash r = Some h.
Proof.
  cbn [exec]. unfold update_where. rewrite in_map_iff.
  intros (r0 & Hr & _) Hid.
  destruct (id r0 =? i) eqn:Hc; subst r.
  - split; reflexivity.
  - apply Z.eqb_neq in Hc. contradiction.
Qed.

(** Every row with id [i] of the table after [SetSent i] has status sent;
    after [SetFailed m i], status failed and reason [m]. *)
Lemma exec_SetSent_row i t r :
  In r (exec (SetSent i) t) -> id r = i -> status r = Sent.
Proof.
  cbn [exec]. unfold update_where. rewrite in_map_iff.
  intros (r0 & Hr & _) Hid.
  destruct (id r0 =? i) eqn:Hc; subst r.
  - reflexivity.
  - apply Z.eqb_neq in Hc. contradiction.
Qed.

Lemma exec_SetFailed_row m i t r :
  In r (exec (SetFailed m i) t) -> id r = i ->
  status r = Failed /\ reason r = Some m.
Proof.
  cbn [exec]. unfold update_where. rewrite in_map_iff.
  intros (r0 & Hr & _) Hid.
  destruct (id r0 =? i) eqn:Hc; subst r.
  - split; reflexivity.
  - apply Z.eqb_neq in Hc. contradiction.
Qed.

(** The statements keyed by an id leave the rows with another id alone. *)
Lemma exec_other_rows s i t r :
  match s with
  | SetFailed _ j | SetBroadcast _ j | SetSentIfHash j _ | SetSent j => j = i
  | SelectBroadcast _ => True
  end ->
  In r (exec s t) -> id r <> i -> In r t.
Proof.
  destruct s; cbn [exec]; intros Hs; try (intros Hr _; exact Hr);
    subst; unfold update_where; rewrite in_map_iff; intros (r0 & Hr & Hin) Hid;
    match type of Hr with
    | (if ?c then _ else _) = _ => destruct c eqn:Hc
    end; subst r; try exact Hin; exfalso; apply Hid; cbn;
    try (apply andb_true_iff in Hc as [Hc _]); apply Z.eqb_eq in Hc; exact Hc.
Qed.

(** The statements of the worker keep the hash of every row in flight. *)
Lemma exec_InflightHaveHash s t :
  match s with SetSent _ => False | _ => True end ->
  InflightHaveHash t -> InflightHaveHash (exec s t).
Proof.
  unfold InflightHaveHash. destruct s; cbn [exec]; intros Hs Ht; try contradiction;
    try exact Ht; apply update_where_Forall; try exact Ht; intros r Hr Hc.
  - reflexivity.
  - reflexivity.
  - apply andb_true_iff in Hc as [_ Hh]. unfold hash_is in Hh.
    unfold hash_if_inflight. cbn. destruct (tx_hash r); [reflexivity|discriminate].
Qed.

End DbFacts.

(** ** The job processor *)

Section WorkerFacts.
Import Retry Worker.

Context {Chain : Type} `{Provider Chain}.
Variable cfg : Config.
Implicit Types (w : World Chain) (P : Event -> Prop).

Lemma Calm_NoWait e : Calm e -> NoWait e.
Proof. intros [Hw _]. exact Hw. Qed.

Lemma Calm_WaitsFor h e : Calm e -> WaitsFor h e.
Proof. intros [Hw _] Hw'. congruence. Qed.

Lemma CalmOrWait_WaitsFor h c t e : CalmOrWait h c t e -> WaitsFor h e.
Proof. intros [Hc | ->]; [apply Calm_WaitsFor; exact Hc|]. intros _. eauto. Qed.

Lemma Calm_CalmOrWait h c t e : Calm e -> CalmOrWait h c t e.
Proof. intros Hc. left. exact Hc. Qed.

Lemma runs_to_bind {A B} P (Q : B -> World Chain -> World Chain -> Prop)
    (m : M Chain A) (k : A -> M Chain B) :
  runs P m ->
  (forall a, runs_to P Q (k a)) ->
  (forall b w w1 w2, run P w w1 -> Q b w1 w2 -> Q b w w2) ->
  runs_to P Q (bind m k).
Proof.
  intros Hm Hk HQ w r w'. unfold bind.
  destruct (m w) as [[[a|e] w1]|] eqn:Em; [| |discriminate].
  - intros Hk'. pose proof (Hk a w1 r w' Hk') as Hr.
    destruct r as [b|e].
    + eapply HQ; [eapply Hm; eauto | exact Hr].
    + eapply run_trans; [eapply Hm; eauto | exact Hr].
  - intros [= <- <-]. eapply Hm; eauto.
Qed.

Lemma run_acquireLock P key ttl w :
  (forall c, P (EvRedis c)) -> run P w (snd (acquireLock key ttl w)).
Proof.
  intros HP. unfold acquireLock.
  destruct (Redis.set_nx_px _ _ _ _ _) as [ok kv'].
  eapply run_event; [apply HP | reflexivity | reflexivity].
Qed.

Lemma run_releaseLock P key w :
  (forall c, P (EvRedis c)) -> run P w (snd (releaseLock key w)).
Proof.
  intros HP. unfold releaseLock.
  destruct (Redis.del _ _ _) as [n kv'].
  eapply run_event; [apply HP | reflexivity | reflexivity].
Qed.

Lemma runs_acquireLockLoop P key ttl n :
  (forall c, P (EvRedis c)) -> (forall ms, P (EvSleep ms)) ->
  forall delay, runs (Chain := Chain) P (acquireLockLoop key ttl n delay).
Proof.
  intros Hr Hs. induction n as [|n IH]; intros delay; cbn [acquireLockLoop].
  - apply runs_ret.
  - apply runs_bind; [apply runs_lift; intros; apply run_acquireLock; exact Hr|].
    intros [|]; [apply runs_ret|].
    apply runs_bind; [apply runs_lift; intros; apply run_random|]. intros r.
    apply runs_bind; [apply runs_lift; intros; apply run_sleep; apply Hs|].
    intros _. apply IH.
Qed.

Lemma Quiet_redis c : Quiet (EvRedis c).
Proof. split; reflexivity. Qed.

Lemma Quiet_sleep ms : Quiet (EvSleep ms).
Proof. split; reflexivity. Qed.

Lemma Quiet_Calm e : Quiet e -> Calm e.
Proof. intros [Hw Hs]. split; [exact Hw|]. destruct e as [| [] | |]; try reflexivity; discriminate. Qed.

Lemma Quiet_NoSql e : Quiet e -> NoSql e.
Proof. intros [_ Hs]. exact Hs. Qed.

Lemma Calm_sleep ms : Calm (EvSleep ms).
Proof. split; reflexivity. Qed.

(** Up to the checkpoint the processor issues no confirmation wait; when
    [broadcast] returns a hash, the last thing it did was to record it. *)
Lemma broadcast_runs job :
  runs_to Quiet
    (fun h w w1 =>
       exists w0, run Quiet w w0 /\ w1 = snd (query (SetBroadcast h (requestId job)) w0))
    (broadcast cfg job).
Proof.
  assert (HQ : forall (b : string) w w1 w2,
             run Quiet w w1 ->
             (exists w0, run Quiet w1 w0 /\ w2 = snd (query (SetBroadcast b (requestId job)) w0)) ->
             exists w0, run Quiet w w0 /\ w2 = snd (query (SetBroadcast b (requestId job)) w0)).
  { intros b w w1 w2 Hr (w0 & Hr0 & ->). exists w0. split; [eapply run_trans; eauto|reflexivity]. }
  unfold broadcast.
  apply runs_to_bind; [|intros amountWei|exact HQ].
  { intros w r w' [= <- <-]. apply run_refl. }
  apply runs_to_bind; [|intros gasLimit|exact HQ].
  { apply runs_tryCatch; [|intros; apply runs_ret].
    apply runs_retry_rpc; [split; reflexivity|apply Quiet_sleep]. }
  apply runs_to_bind; [|intros fees|exact HQ].
  { unfold getFeeSuggestion. apply runs_bind.
    - apply runs_retry_rpc; [split; reflexivity|apply Quiet_sleep].
    - intros fee. do 3 (apply runs_bind; [apply runs_res|intros ?]). apply runs_ret. }
  apply runs_to_bind; [|intros _|exact HQ].
  { unfold ensureBalanceCovers. apply runs_bind.
    - apply runs_retry_rpc; [split; reflexivity|apply Quiet_sleep].
    - intros bal. destruct (bal <? _); [apply runs_throw|apply runs_ret]. }
  apply runs_to_bind; [|intros hash|exact HQ].
  { apply runs_retry_rpc; [split; reflexivity|apply Quiet_sleep]. }
  intros w r w'. unfold bind, lift, ret. cbn. intros [= <- <-].
  exists w. split; [apply run_refl|reflexivity].
Qed.

Lemma confirm_runs i h :
  runs (CalmOrWait h 1 (TX_WAIT_TIMEOUT_MS cfg)) (confirm cfg i h).
Proof.
  unfold confirm. apply runs_tryCatch.
  - apply runs_bind.
    + apply runs_retry_rpc; [right; reflexivity|intros; left; apply Calm_sleep].
    + intros _. apply runs_bind; [|intros; apply runs_ret].
      apply runs_lift. intros w. apply run_query. left. split; reflexivity.
  - intros e. destruct (isWaitTimeout e); [apply runs_ret|apply runs_throw].
Qed.

(** What the catch-all does, for any error. *)
Lemma catchAll_eq job err w :
  catchAll job err w =
  Some (if isRetryableError err && negb (isPermanentError err) then Throw err else Ok tt,
        snd (query (SetFailed (formatReason err) (requestId job)) w)).
Proof.
  unfold catchAll, bind, lift. cbn.
  destruct (isPermanentError err), (isRetryableError err); reflexivity.
Qed.

Lemma catchAll_runs job err : runs (Chain := Chain) Calm (catchAll job err).
Proof.
  intros w r w'. rewrite catchAll_eq. intros [= <- <-].
  apply run_query. split; reflexivity.
Qed.

Lemma try_bind_ok {A B} (m : M Chain A) (k : A -> M Chain B) h fin w a w1 :
  m w = Some (Ok a, w1) ->
  tryFinally (tryCatch (bind m k) h) fin w = tryFinally (tryCatch (k a) h) fin w1.
Proof. intros Hm. unfold tryFinally, tryCatch, bind. rewrite Hm. reflexivity. Qed.

Lemma try_bind_throw {A B} (m : M Chain A) (k : A -> M Chain B) h fin w e w1 :
  m w = Some (Throw e, w1) ->
  tryFinally (tryCatch (bind m k) h) fin w = tryFinally (h e) fin w1.
Proof. intros Hm. unfold tryFinally, tryCatch, bind. rewrite Hm. reflexivity. Qed.

Lemma lift_releaseLock key w :
  lift (releaseLock key) w = Some (Ok tt, snd (releaseLock key w)).
Proof. unfold lift, releaseLock. destruct (Redis.del _ _ _). reflexivity. Qed.

Lemma releaseLock_trace key w :
  trace (snd (releaseLock key w)) = trace w ++ [EvRedis (RDel key)]
  /\ db (snd (releaseLock key w)) = db w.
Proof. unfold releaseLock. destruct (Redis.del _ _ _). split; reflexivity. Qed.

(** The processor once the address is valid and the lock is held. *)
Lemma processor_locked job w w0 :
  isAddress (j_address job) = true ->
  acquireLockWithBackoff (lockKey (sender cfg)) 15 w = Some (Ok true, w0) ->
  processor cfg job w =
  tryFinally (tryCatch (submit cfg job) (catchAll job))
    (lift (releaseLock (lockKey (sender cfg)))) w0.
Proof.
  intros Ha Hl. unfold processor. rewrite Ha. cbn [negb].
  unfold bind at 1. rewrite Hl. reflexivity.
Qed.

(** C8. When an exception [e] escapes the steps after validation, the
    processor writes status failed with the first 400 characters of the
    message, releases the lock, and rethrows [e] if and only if [e] is
    retryable and not permanent; otherwise it returns. *)
Theorem processor_catch_all (job : DripJob) (w w0 w1 : World Chain) (e : JsError) :
  isAddress (j_address job) = true ->
  acquireLockWithBackoff (lockKey (sender cfg)) 15 w = Some (Ok true, w0) ->
  submit cfg job w0 = Some (Throw e, w1) ->
  let lk := lockKey (sender cfg) in
  let stmt := SetFailed (formatReason e) (requestId job) in
  exists w',
    processor cfg job w =
      Some (if isRetryableError e && negb (isPermanentError e) then Throw e else Ok tt, w')
    /\ (String.length (formatReason e) <= 400)%nat
    /\ db w' = Db.exec stmt (db w1)
    /\ trace w' = trace w1 ++ [EvSql stmt; EvRedis (RDel lk)].
Proof.
  intros Ha Hl Hs lk stmt.
  exists (snd (releaseLock lk (snd (query stmt w1)))).
  split; [|split; [|split]].
  - rewrite (processor_locked job w w0 Ha Hl).
    unfold tryFinally, tryCatch. rewrite Hs, catchAll_eq, lift_releaseLock.
    reflexivity.
  - apply slice0_length.
  - destruct (releaseLock_trace lk (snd (query stmt w1))) as [_ ->]. reflexivity.
  - destruct (releaseLock_trace lk (snd (query stmt w1))) as [-> _]. cbn.
    rewrite <- app_assoc. reflexivity.
Qed.

Lemma acquireLockWithBackoff_runs key ttl :
  runs (Chain := Chain) Quiet (acquireLockWithBackoff key ttl).
Proof. apply runs_acquireLockLoop; [apply Quiet_redis|apply Quiet_sleep]. Qed.

(** When the processor has recorded the broadcast of [h] and [retryRpc],
    having retried the confirmation wait as often as it does, ends in an error
    whose message contains "timeout", the processor returns normally (the job
    is acknowledged); the table is as the checkpoint left it, the row in
    status broadcast with hash [h]; and the only statement of the whole run
    is the one of the checkpoint: nothing is written as failed. *)
Lemma processor_wait_timeout (job : DripJob) (w w0 w1 w2 : World Chain)
    (h : string) (e : JsError) :
  isAddress (j_address job) = true ->
  acquireLockWithBackoff (lockKey (sender cfg)) 15 w = Some (Ok true, w0) ->
  broadcast cfg job w0 = Some (Ok h, w1) ->
  retryRpc_default
    (rpc (CWaitForTransaction h 1 (TX_WAIT_TIMEOUT_MS cfg))
         (waitForTransaction h 1 (TX_WAIT_TIMEOUT_MS cfg))) w1 = Some (Throw e, w2) ->
  isWaitTimeout e = true ->
  exists w',
    processor cfg job w = Some (Ok tt, w')
    /\ db w' = db w1
    /\ (forall r, In r (db w') -> id r = requestId job ->
          status r = Broadcast /\ tx_hash r = Some h)
    /\ (exists pre post,
          trace w' = trace w ++ pre ++ EvSql (SetBroadcast h (requestId job)) :: post
          /\ Forall NoSql pre /\ Forall NoSql post).
Proof.
  intros Ha Hl Hb Hw Ht.
  set (lk := lockKey (sender cfg)).
  exists (snd (releaseLock lk w2)).
  (* the wait issues calls and timers, no statement *)
  assert (Hrun : run NoSql w1 w2).
  { eapply (runs_retry_rpc NoSql); [| |exact Hw]; [reflexivity|intros; reflexivity]. }
  pose proof (run_no_sql_db NoSql w1 w2 (fun _ He => He) Hrun) as Hdb12.
  destruct (releaseLock_trace lk w2) as [Htr Hdbr].
  pose proof (broadcast_runs job w0 (Ok h) w1 Hb) as (w0' & Hq & Hw1).
  pose proof (acquireLockWithBackoff_runs _ _ w _ w0 Hl) as Hlock.
  split; [|split; [|split]].
  - rewrite (processor_locked job w w0 Ha Hl).
    unfold submit. rewrite (try_bind_ok _ _ _ _ _ _ _ Hb).
    unfold tryFinally, tryCatch, confirm, tryCatch, bind. rewrite Hw, Ht.
    cbn [ret]. rewrite lift_releaseLock. reflexivity.
  - rewrite Hdbr. exact Hdb12.
  - intros r Hr Hid. rewrite Hdbr, Hdb12, Hw1 in Hr. cbn in Hr.
    eapply exec_SetBroadcast_row; eauto.
  - pose proof (run_trans _ _ _ _ Hlock Hq) as (pre & Htp & Hpp & _).
    destruct Hrun as (post & Htq & Hpq & _).
    exists pre, (post ++ [EvRedis (RDel lk)]). split; [|split].
    + rewrite Htr, Htq, Hw1. cbn. rewrite Htp.
      rewrite <- !app_assoc. reflexivity.
    + eapply Forall_impl; [exact Hpp|apply Quiet_NoSql].
    + apply Forall_app. split; [exact Hpq|repeat constructor].
Qed.

(** *** The checkpoint precedes the wait *)

Lemma BroadcastBeforeWait_no_wait i evs :
  Forall NoWait evs -> BroadcastBeforeWait i evs.
Proof.
  intros Hf pre h c t post ->. apply Forall_app in Hf as [_ Hf].
  inversion Hf as [|x l Hx _]; subst. discriminate Hx.
Qed.

Lemma BroadcastBeforeWait_after i h pre post :
  Forall NoWait pre -> Forall (WaitsFor h) post ->
  BroadcastBeforeWait i (pre ++ EvSql (SetBroadcast h i) :: post).
Proof.
  intros Hpre Hpost. induction Hpre as [|a pre Ha _ IH];
    intros pre' h' c t post' Heq.
  - destruct pre' as [|b pre']; cbn in Heq; [discriminate|].
    injection Heq as <- Hpost'. subst post.
    apply Forall_app in Hpost as [_ Hpost].
    inversion Hpost as [|x l Hx _]; subst.
    destruct (Hx eq_refl) as (c' & t' & [= ->]). left. reflexivity.
  - destruct pre' as [|b pre']; cbn in Heq.
    + injection Heq as -> _. discriminate Ha.
    + injection Heq as <- Heq. right. eapply IH; eauto.
Qed.

(** The trace of a run of the processor: no confirmation wait at all, or the
    checkpoint for a hash [h] with no wait before it and only waits for [h]
    after it. *)
Lemma processor_trace job w r w' :
  processor cfg job w = Some (r, w') ->
  run NoWait w w'
  \/ exists h w0,
       run NoWait w w0
       /\ run (WaitsFor h) (snd (query (SetBroadcast h (requestId job)) w0)) w'.
Proof.
  unfold processor. destruct (isAddress (j_address job)); cbn [negb].
  - (* valid address *)
    unfold bind at 1.
    destruct (acquireLockWithBackoff _ _ w) as [[[got|e] w0]|] eqn:Hl; [| |discriminate].
    + pose proof (acquireLockWithBackoff_runs _ _ w _ w0 Hl) as Hlock.
      apply (run_weaken _ NoWait) in Hlock; [|intros ? [? _]; assumption].
      destruct got; cbn [negb].
      * unfold submit.
        destruct (broadcast cfg job w0) as [[[h|e] w1]|] eqn:Hb.
        -- rewrite (try_bind_ok _ _ _ _ _ _ _ Hb). intros Hrest.
           pose proof (broadcast_runs job w0 (Ok h) w1 Hb) as (w0' & Hq & ->).
           right. exists h, w0'. split.
           ++ eapply run_trans; [exact Hlock|].
              eapply run_weaken; [|exact Hq]. intros ? [? _]; assumption.
           ++ revert Hrest. apply runs_tryFinally.
              ** apply runs_tryCatch.
                 --- eapply runs_weaken; [|apply confirm_runs]. apply CalmOrWait_WaitsFor.
                 --- intros e. eapply runs_weaken; [|apply catchAll_runs]. apply Calm_WaitsFor.
              ** apply runs_lift. intros w1. apply run_releaseLock.
                 intros c Hc. discriminate Hc.
        -- rewrite (try_bind_throw _ _ _ _ _ _ _ Hb). intros Hrest.
           pose proof (broadcast_runs job w0 (Throw e) w1 Hb) as Hq.
           left. eapply run_trans; [exact Hlock|].
           eapply run_trans; [eapply run_weaken; [|exact Hq]; intros ? [? _]; assumption|].
           revert Hrest. apply runs_tryFinally.
           ++ eapply runs_weaken; [|apply catchAll_runs]. apply Calm_NoWait.
           ++ apply runs_lift. intros w2. apply run_releaseLock. reflexivity.
        -- unfold tryFinally, tryCatch, bind. rewrite Hb. discriminate.
      * intros [= <- <-]. left. exact Hlock.
    + intros [= <- <-]. left.
      eapply run_weaken; [|eapply acquireLockWithBackoff_runs; exact Hl].
      intros ? [? _]; assumption.
  - (* invalid address *)
    intros Hr. left. revert Hr.
    apply runs_bind; [|intros; apply runs_ret].
    apply runs_lift. intros w1. apply run_query. reflexivity.
Qed.

(** The processor has a result in every world. *)
Lemma processor_returns job : returns (processor cfg job).
Proof.
  unfold processor. destruct (negb (isAddress (j_address job))).
  - apply returns_bind; [apply returns_lift|intros; apply returns_ret].
  - apply returns_bind.
    + unfold acquireLockWithBackoff. generalize (Finite (150 # 1)). generalize 4%nat.
      intros n. induction n as [|n IH]; intros delay; cbn [acquireLockLoop].
      * apply returns_ret.
      * apply returns_bind; [apply returns_lift|]. intros [|]; [apply returns_ret|].
        apply returns_bind; [apply returns_lift|]. intros r.
        apply returns_bind; [apply returns_lift|]. intros _. apply IH.
    + intros got. destruct (negb got); [apply returns_throw|].
      apply returns_tryFinally; [|apply returns_lift].
      apply returns_tryCatch.
      * unfold submit. apply returns_bind.
        -- unfold broadcast.
           apply returns_bind; [intros w; eauto|]. intros amountWei.
           apply returns_bind.
           { apply returns_tryCatch; [apply returns_retryRpc|intros; apply returns_ret]. }
           intros gasLimit. apply returns_bind.
           { unfold getFeeSuggestion.
             apply returns_bind; [apply returns_retryRpc|intros fee].
             do 3 (apply returns_bind; [apply returns_res|intros ?]).
             apply returns_ret. }
           intros fees. apply returns_bind.
           { unfold ensureBalanceCovers. apply returns_bind; [apply returns_retryRpc|].
             intros bal. destruct (bal <? _); [apply returns_throw|apply returns_ret]. }
           intros _. apply returns_bind; [apply returns_retryRpc|]. intros hash.
           apply returns_bind; [apply returns_lift|intros; apply returns_ret].
        -- intros hash. unfold confirm. apply returns_tryCatch.
           ++ apply returns_bind; [apply returns_retryRpc|]. intros _.
              apply returns_bind; [apply returns_lift|intros; apply returns_ret].
           ++ intros e. destruct (isWaitTimeout e); [apply returns_ret|apply returns_throw].
      * intros e w. rewrite catchAll_eq. eauto.
Qed.

(** In every run of the processor, each confirmation wait for a hash is
    issued after the statement that sets the row to status broadcast with that
    hash has been run: no wait is issued for a hash that is not yet on the
    row. *)
Lemma processor_waits_after_checkpoint (job : DripJob) (w : World Chain) :
  exists r w' evs,
    processor cfg job w = Some (r, w')
    /\ trace w' = trace w ++ evs
    /\ BroadcastBeforeWait (requestId job) evs.
Proof.
  destruct (processor_returns job w) as (r & w' & Hp).
  exists r, w'.
  destruct (processor_trace job w r w' Hp) as [Hrun | (h & w0 & Hpre & Hpost)].
  - destruct Hrun as (evs & Ht & Hf & _). exists evs.
    split; [exact Hp|]. split; [exact Ht|].
    apply BroadcastBeforeWait_no_wait. exact Hf.
  - destruct Hpre as (pre & Htp & Hfp & _). destruct Hpost as (post & Htq & Hfq & _).
    exists (pre ++ EvSql (SetBroadcast h (requestId job)) :: post).
    split; [exact Hp|]. split.
    + rewrite Htq. cbn. rewrite Htp. rewrite <- !app_assoc. reflexivity.
    + apply BroadcastBeforeWait_after; assumption.
Qed.

(** The processor never issues the reconciler's [SetSent]. *)
Lemma processor_runs_no_SetSent job :
  runs (fun e => is_SetSent e = false) (processor cfg job).
Proof.
  unfold processor. destruct (negb (isAddress (j_address job))).
  - apply runs_bind; [|intros; apply runs_ret].
    apply runs_lift. intros w. apply run_query. reflexivity.
  - apply runs_bind.
    + eapply runs_weaken; [|apply acquireLockWithBackoff_runs].
      intros e He. apply Quiet_Calm in He as [_ He]. exact He.
    + intros got. destruct (negb got); [apply runs_throw|].
      apply runs_tryFinally.
      * apply runs_tryCatch.
        -- unfold submit. apply runs_bind.
           ++ intros w r w1 Hb. pose proof (broadcast_runs job w r w1 Hb) as Hr.
              destruct r as [h|e].
              ** destruct Hr as (w0 & Hq & ->).
                 eapply run_trans.
                 --- eapply run_weaken; [|exact Hq].
                     intros e He. apply Quiet_Calm in He as [_ He]. exact He.
                 --- apply run_query. reflexivity.
              ** eapply run_weaken; [|exact Hr].
                 intros e' He. apply Quiet_Calm in He as [_ He]. exact He.
           ++ intros h. eapply runs_weaken; [|apply confirm_runs].
              intros e [[_ He]| ->]; [exact He|reflexivity].
        -- intros e. eapply runs_weaken; [|apply catchAll_runs].
           intros e' [_ He]. exact He.
      * apply runs_lift. intros w. apply run_releaseLock. reflexivity.
Qed.

End WorkerFacts.

(** ** The job processor on the scripted endpoint *)

Section ProcessorRuns.
Import Retry Worker Scenario.

(** The happy path: queued, broadcast with the hash, then sent. *)
Example processor_happy_path :
  exists w',
    processor cfg0 job1 (world0 (healthy "0x111") queued1) = Some (Ok tt, w')
    /\ summary (db w') = [(1, Sent, Some "0x111")]
    /\ statements (trace w') = [SetBroadcast "0x111" 1; SetSentIfHash 1 "0x111"].
Proof. eexists. split; [vm_compute; reflexivity|]. split; reflexivity. Qed.

(** The confirmation wait fails with HTTP 500 on every call: the error
    escapes, the row is written as failed with the message as reason, and the
    error, retryable and not permanent, is rethrown. *)
Lemma processor_catch_all_witness :
  exists w',
    processor cfg0 job1 wait_breaks = Some (Throw e500, w')
    /\ map (fun r => (status r, reason r)) (db w') =
       [(Failed, Some "Internal Server Error")]
    /\ statements (trace w') =
       [SetBroadcast "0x111" 1; SetFailed "Internal Server Error" 1].
Proof.
  edestruct (processor_catch_all cfg0 job1 wait_breaks) as (w' & Hp & _ & Hdb & Htr).
  - reflexivity.
  - vm_compute. reflexivity.
  - vm_compute. reflexivity.
  - exists w'. split; [exact Hp|]. split.
    + rewrite Hdb. reflexivity.
    + rewrite Htr. reflexivity.
Defined.

(** The confirmation wait runs out of time on every call: [retryRpc] repeats
    it three times, the processor returns, the row stays broadcast. *)
Lemma processor_wait_timeout_witness :
  exists w',
    processor cfg0 job1 wait_times_out = Some (Ok tt, w')
    /\ summary (db w') = [(1, Broadcast, Some "0x111")].
Proof.
  edestruct (processor_wait_timeout cfg0 job1 wait_times_out) as (w' & Hp & Hdb & _ & _).
  - reflexivity.
  - vm_compute. reflexivity.
  - vm_compute. reflexivity.
  - vm_compute. reflexivity.
  - reflexivity.
  - exists w'. split; [exact Hp|]. rewrite Hdb. reflexivity.
Defined.

End ProcessorRuns.

(** ** The reconciler *)

Section ReconcilerFacts.
Import Retry Reconciler.

Context {Chain : Type} `{Provider Chain}.
Implicit Types (w : World Chain) (P : Event -> Prop).

(** The receipt lookup of a row, as [reconcileRow] runs it. *)
Lemma lookup_db h w res w1 :
  retryRpc_default (rpc (CGetTransactionReceipt h) (getTransactionReceipt h)) w
    = Some (res, w1) ->
  db w1 = db w.
Proof.
  intros Hl. eapply (run_no_sql_db NoSql); [intros e He; exact He|].
  eapply (runs_retry_rpc NoSql); [| |exact Hl]; [reflexivity|intros; reflexivity].
Qed.

Lemma reconcileRow_missing r w :
  falsy (f_tx_hash r) = true ->
  reconcileRow r w =
  Some (Ok tt, snd (query (SetFailed "missing tx_hash in broadcast state" (f_id r)) w)).
Proof. intros Hf. unfold reconcileRow. rewrite Hf. reflexivity. Qed.

Lemma reconcileRow_lookup r h w res w1 :
  f_tx_hash r = Some h ->
  falsy (f_tx_hash r) = false ->
  retryRpc_default (rpc (CGetTransactionReceipt h) (getTransactionReceipt h)) w
    = Some (res, w1) ->
  reconcileRow r w =
  Some (Ok tt,
        match res with
        | Ok (Some rc) =>
            if num_is (rcpt_status rc) 1 then snd (query (SetSent (f_id r)) w1)
            else if num_is (rcpt_status rc) 0
                 then snd (query (SetFailed "transaction reverted" (f_id r)) w1)
                 else w1
        | _ => w1
        end).
Proof.
  intros Hh Hf Hl. unfold reconcileRow. rewrite Hf, Hh.
  change (default "" (Some h)) with h.
  unfold tryCatch, bind at 1. rewrite Hl.
  destruct res as [[rc|]|e]; try reflexivity.
  destruct (num_is (rcpt_status rc) 1); [reflexivity|].
  destruct (num_is (rcpt_status rc) 0); reflexivity.
Qed.

(** *** Rows in flight keep their hash *)

Lemma replay_no_SetSent evs t :
  Forall (fun e => is_SetSent e = false) evs ->
  InflightHaveHash t -> InflightHaveHash (replay evs t).
Proof.
  intros Hf. revert t. induction Hf as [|e evs He _ IH]; intros t Ht; [exact Ht|].
  rewrite replay_cons. apply IH. destruct e as [|s| |]; try exact Ht.
  apply exec_InflightHaveHash; [|exact Ht]. destruct s; try exact I. discriminate He.
Qed.

Lemma replay_RowEvent f evs t :
  Forall (RowEvent f) evs ->
  InflightHaveHash t -> HashOnRow t f ->
  InflightHaveHash (replay evs t) /\ hashes (replay evs t) = hashes t.
Proof.
  intros Hf. revert t. induction Hf as [|e evs He _ IH]; intros t Ht Hh; [split; trivial|].
  rewrite replay_cons. destruct e as [|s| |]; try (apply IH; assumption).
  assert (Hs : InflightHaveHash (Db.exec s t) /\ hashes (Db.exec s t) = hashes t).
  { destruct s; cbn in He; try contradiction.
    - split; [apply exec_InflightHaveHash; [exact I|exact Ht] | apply exec_hashes; exact I].
    - split; [apply exec_InflightHaveHash; [exact I|exact Ht] | apply exec_hashes; exact I].
    - destruct He as [-> Hfalsy].
      split; [apply exec_SetSent_InflightHaveHash; [exact Ht|apply Hh; exact Hfalsy]
             | apply exec_hashes; exact I].
    - split; [exact Ht|reflexivity]. }
  destruct Hs as [Ht' He'].
  destruct (IH (Db.exec s t) Ht' (HashOnRow_hashes _ _ _ He' Hh)) as [Hi Hhs].
  split; [exact Hi|]. rewrite Hhs. exact He'.
Qed.

Lemma reconcileRow_runs f : runs (RowEvent f) (reconcileRow f).
Proof.
  unfold reconcileRow. destruct (falsy (f_tx_hash f)) eqn:Hf.
  - apply runs_bind; [|intros; apply runs_ret].
    apply runs_lift. intros w. apply run_query. exact I.
  - apply runs_tryCatch; [|intros; apply runs_ret].
    apply runs_bind; [apply runs_retry_rpc; [exact I|intros; exact I]|].
    intros [rc|]; [|apply runs_ret].
    destruct (num_is (rcpt_status rc) 1).
    + apply runs_bind; [|intros; apply runs_ret].
      apply runs_lift. intros w. apply run_query. split; [reflexivity|exact Hf].
    + destruct (num_is (rcpt_status rc) 0); [|apply runs_ret].
      apply runs_bind; [|intros; apply runs_ret].
      apply runs_lift. intros w. apply run_query. exact I.
Qed.

(** *** ... at every point of a run *)

Lemma throughout_app t e1 e2 :
  InflightHaveHashThroughout t e1 ->
  InflightHaveHashThroughout (replay e1 t) e2 ->
  InflightHaveHashThroughout t (e1 ++ e2).
Proof.
  intros H1 H2 pre post Heq.
  apply app_eq_app in Heq as (l & [[-> ->] | [-> ->]]).
  - eapply H1. reflexivity.
  - rewrite replay_app. eapply H2. reflexivity.
Qed.

Lemma throughout_no_SetSent t evs :
  Forall (fun e => is_SetSent e = false) evs ->
  InflightHaveHash t -> InflightHaveHashThroughout t evs.
Proof.
  intros Hf Ht pre post ->. apply Forall_app in Hf as [Hf _].
  apply replay_no_SetSent; assumption.
Qed.

Lemma throughout_RowEvent f t evs :
  Forall (RowEvent f) evs ->
  InflightHaveHash t -> HashOnRow t f -> InflightHaveHashThroughout t evs.
Proof.
  intros Hf Ht Hh pre post ->. apply Forall_app in Hf as [Hf _].
  apply (replay_RowEvent f); assumption.
Qed.

Lemma keeps_hashes_end w w' :
  keeps_hashes w w' -> InflightHaveHash (db w').
Proof.
  intros (evs & _ & -> & Hall). apply (Hall evs []). symmetry. apply app_nil_r.
Qed.

Lemma keeps_hashes_refl w : InflightHaveHash (db w) -> keeps_hashes w w.
Proof.
  intros Hi. exists []. split; [symmetry; apply app_nil_r|]. split; [reflexivity|].
  apply throughout_no_SetSent; [constructor|exact Hi].
Qed.

Lemma keeps_hashes_trans w1 w2 w3 :
  keeps_hashes w1 w2 -> keeps_hashes w2 w3 -> keeps_hashes w1 w3.
Proof.
  intros (e1 & Ht1 & Hd1 & Ha1) (e2 & Ht2 & Hd2 & Ha2).
  exists (e1 ++ e2). split; [|split].
  - rewrite Ht2, Ht1. symmetry. apply app_assoc.
  - rewrite Hd2, Hd1. symmetry. apply replay_app.
  - apply throughout_app; [exact Ha1|]. rewrite <- Hd1. exact Ha2.
Qed.

(** A run without the reconciler's [SetSent] keeps the hashes. *)
Lemma run_keeps_hashes w w' :
  run (fun e => is_SetSent e = false) w w' ->
  InflightHaveHash (db w) -> keeps_hashes w w'.
Proof.
  intros (evs & Ht & Hf & Hd) Hi. exists evs. split; [exact Ht|]. split; [exact Hd|].
  apply throughout_no_SetSent; assumption.
Qed.

Lemma reconcileRow_preserves f w r w' :
  InflightHaveHash (db w) -> HashOnRow (db w) f ->
  reconcileRow f w = Some (r, w') ->
  keeps_hashes w w' /\ hashes (db w') = hashes (db w).
Proof.
  intros Hi Hh Hr. destruct (reconcileRow_runs f w r w' Hr) as (evs & Ht & Hf & Hd).
  split.
  - exists evs. split; [exact Ht|]. split; [exact Hd|].
    apply (throughout_RowEvent f); assumption.
  - rewrite Hd. apply (replay_RowEvent f); assumption.
Qed.

Lemma forEach_preserves rows : forall w r w',
  InflightHaveHash (db w) -> Forall (HashOnRow (db w)) rows ->
  forEach rows reconcileRow w = Some (r, w') ->
  keeps_hashes w w' /\ hashes (db w') = hashes (db w).
Proof.
  induction rows as [|f rows IH]; intros w r w' Hi Hh; cbn [forEach].
  - intros [= <- <-]. split; [apply keeps_hashes_refl; exact Hi|reflexivity].
  - apply Forall_cons in Hh as [Hf Hrows]. unfold bind.
    destruct (reconcileRow f w) as [[[u|e] w1]|] eqn:Er; [| |discriminate].
    + destruct (reconcileRow_preserves f w _ w1 Hi Hf Er) as [Hk1 Hh1].
      intros Hrest. eapply IH in Hrest as [Hk' Hh'].
      * split; [eapply keeps_hashes_trans; eauto|]. rewrite Hh'. exact Hh1.
      * eapply keeps_hashes_end; eauto.
      * eapply Forall_impl; [exact Hrows|]. intros g. apply HashOnRow_hashes. exact Hh1.
    + intros [= <- <-]. eapply reconcileRow_preserves; eauto.
Qed.

Lemma hashes_UniqueIds t t' : hashes t' = hashes t -> UniqueIds t -> UniqueIds t'.
Proof. unfold UniqueIds. rewrite !hashes_ids. intros ->. trivial. Qed.

Lemma run_tryAcquireLock P key ttl w :
  (forall c, P (EvRedis c)) -> run P w (snd (tryAcquireLock key ttl w)).
Proof.
  intros HP. unfold tryAcquireLock, randHex.
  destruct (Redis.set_nx_px _ _ _ _ _) as [ok kv'].
  eapply run_event; [apply HP | reflexivity | reflexivity].
Qed.

Lemma run_releaseLock_owner P key token w :
  (forall c, P (EvRedis c)) -> run P w (snd (releaseLock key token w)).
Proof.
  intros HP. unfold releaseLock.
  destruct (Redis.eval_unlock _ _ _ _) as [n kv'].
  eapply run_event; [apply HP | reflexivity | reflexivity].
Qed.

Lemma run_countSkip P w :
  (forall c, P (EvRedis c)) -> run P w (snd (countSkip w)).
Proof.
  intros HP. unfold countSkip.
  destruct (Redis.incrby _ _ _ _) as [[n kv']|];
    (eapply run_event; [apply HP | reflexivity | reflexivity]).
Qed.

Section WithConfig.
Variable cfg : Config.

Lemma reconcileLoop_preserves n : forall w r w',
  InflightHaveHash (db w) -> UniqueIds (db w) ->
  reconcileLoop cfg n w = Some (r, w') ->
  keeps_hashes w w' /\ UniqueIds (db w').
Proof.
  induction n as [|n IH]; intros w r w' Hi Hu; cbn [reconcileLoop].
  - intros [= <- <-]. split; [apply keeps_hashes_refl|]; assumption.
  - unfold bind at 1, lift.
    pose proof (run_query (fun e => is_SetSent e = false)
                  (SelectBroadcast (BATCH cfg)) w eq_refl) as Hq.
    apply run_keeps_hashes in Hq; [|exact Hi].
    cbn [query fst snd Db.rows Db.exec] in *.
    set (rows := Db.select_broadcast (BATCH cfg) (db w)).
    set (w1 := set_db (db w) (log (EvSql (SelectBroadcast (BATCH cfg))) w)) in *.
    destruct (length rows =? 0)%nat; [intros [= <- <-]; split; assumption|].
    unfold bind.
    destruct (forEach rows reconcileRow w1) as [[[u|e] w2]|] eqn:Ef; [| |discriminate];
      destruct (forEach_preserves rows w1 _ w2 Hi
                  (select_broadcast_HashOnRow _ _ Hu) Ef) as [Hk2 Hh2];
      pose proof (hashes_UniqueIds _ _ Hh2 Hu : UniqueIds (db w2)) as Hu2;
      pose proof (keeps_hashes_trans _ _ _ Hq Hk2) as Hk.
    + destruct (length rows <? BATCH cfg)%nat; [intros [= <- <-]; split; assumption|].
      intros Hrest. eapply IH in Hrest as [Hk' Hu']; [| |exact Hu2].
      * split; [eapply keeps_hashes_trans; eauto|exact Hu'].
      * eapply keeps_hashes_end; eauto.
    + intros [= <- <-]. split; assumption.
Qed.

Lemma reconcileBroadcastsWithLock_preserves w r w' :
  InflightHaveHash (db w) -> UniqueIds (db w) ->
  reconcileBroadcastsWithLock cfg w = Some (r, w') ->
  keeps_hashes w w' /\ UniqueIds (db w').
Proof.
  intros Hi Hu. unfold reconcileBroadcastsWithLock, bind at 1, lift.
  pose proof (run_tryAcquireLock (fun e => is_SetSent e = false)
                LOCK_KEY (LOCK_TTL_MS cfg) w (fun _ => eq_refl)) as Ha.
  destruct (tryAcquireLock LOCK_KEY (LOCK_TTL_MS cfg) w) as [[token|e] w1];
    cbn [snd] in Ha.
  - apply run_keeps_hashes in Ha; [|exact Hi].
    pose proof (keeps_hashes_end _ _ Ha) as Hi1.
    assert (Hu1 : UniqueIds (db w1)).
    { destruct Ha as (evs & _ & -> & _). unfold UniqueIds. rewrite replay_ids. exact Hu. }
    destruct (falsy token).
    + unfold bind, lift.
      pose proof (run_countSkip (fun e => is_SetSent e = false) w1 (fun _ => eq_refl)) as Hc.
      destruct (countSkip w1) as [[u|e] w2]; cbn [snd] in Hc;
        intros [= <- <-];
        (split; [eapply keeps_hashes_trans; [exact Ha|apply run_keeps_hashes; assumption]|]);
        destruct Hc as (evs & _ & _ & ->); unfold UniqueIds; rewrite replay_ids; exact Hu1.
    + unfold tryFinally, reconcileBroadcastsOnce.
      destruct (reconcileLoop cfg (MAX_LOOPS cfg) w1) as [[r1 w2]|] eqn:El; [|discriminate].
      destruct (reconcileLoop_preserves _ _ _ _ Hi1 Hu1 El) as [Hk2 Hu2].
      unfold lift.
      pose proof (run_releaseLock_owner (fun e => is_SetSent e = false)
                    LOCK_KEY (default "" token) w2 (fun _ => eq_refl)) as Hr.
      destruct (releaseLock LOCK_KEY (default "" token) w2) as [[u|e] w3]; cbn [snd] in Hr;
        intros [= <- <-];
        (split; [eapply keeps_hashes_trans; [exact Ha|];
                 eapply keeps_hashes_trans; [exact Hk2|];
                 apply run_keeps_hashes; [exact Hr|eapply keeps_hashes_end; eauto]|]);
        destruct Hr as (evs & _ & _ & ->); unfold UniqueIds; rewrite replay_ids; exact Hu2.
  - intros [= <- <-].
    split; [apply run_keeps_hashes; assumption|].
    destruct Ha as (evs & _ & _ & ->). unfold UniqueIds. rewrite replay_ids. exact Hu.
Qed.

(** The reconciler has a result in every world. *)
Lemma reconcileRow_returns f : returns (reconcileRow f).
Proof.
  unfold reconcileRow. destruct (falsy (f_tx_hash f)).
  - apply returns_bind; [apply returns_lift|intros; apply returns_ret].
  - apply returns_tryCatch; [|intros; apply returns_ret].
    apply returns_bind; [apply returns_retryRpc|].
    intros [rc|]; [|apply returns_ret].
    destruct (num_is (rcpt_status rc) 1).
    + apply returns_bind; [apply returns_lift|intros; apply returns_ret].
    + destruct (num_is (rcpt_status rc) 0); [|apply returns_ret].
      apply returns_bind; [apply returns_lift|intros; apply returns_ret].
Qed.

Lemma forEach_returns rows : returns (forEach rows reconcileRow).
Proof.
  induction rows as [|f rows IH]; cbn [forEach]; [apply returns_ret|].
  apply returns_bind; [apply reconcileRow_returns|intros; exact IH].
Qed.

Lemma reconcileLoop_returns n : returns (reconcileLoop cfg n).
Proof.
  induction n as [|n IH]; cbn [reconcileLoop]; [apply returns_ret|].
  apply returns_bind; [apply returns_lift|]. intros rows.
  destruct (length rows =? 0)%nat; [apply returns_ret|].
  apply returns_bind; [apply forEach_returns|]. intros _.
  destruct (length rows <? BATCH cfg)%nat; [apply returns_ret|exact IH].
Qed.

Lemma reconcileBroadcastsWithLock_returns : returns (reconcileBroadcastsWithLock cfg).
Proof.
  unfold reconcileBroadcastsWithLock.
  apply returns_bind; [apply returns_lift|]. intros token.
  destruct (falsy token).
  - apply returns_bind; [apply returns_lift|intros; apply returns_ret].
  - apply returns_tryFinally; [apply reconcileLoop_returns|apply returns_lift].
Qed.

End WithConfig.

End ReconcilerFacts.

Section ReconcilerResolution.
Import Retry Reconciler Scenario.

(** C9. What a sweep does with a fetched row: without a hash the row is
    written as failed with reason "missing tx_hash in broadcast state"; with a
    hash, the row is left as it is when the receipt lookup has no result,
    written as sent when the receipt's status is 1, written as failed with
    reason "transaction reverted" when it is 0, and left as it is for any
    other status. One cycle over three broadcast rows - no hash, success,
    revert - leaves them failed, sent, failed. *)
Theorem reconciler_resolution :
  (forall (Chain : Type) (HP : Provider Chain) (r : Fetched) (w : World Chain),
      (falsy (f_tx_hash r) = true ->
       exists w',
         reconcileRow r w = Some (Ok tt, w')
         /\ db w' = Db.exec (SetFailed "missing tx_hash in broadcast state" (f_id r)) (db w))
      /\
      (forall h res w1,
          f_tx_hash r = Some h ->
          falsy (f_tx_hash r) = false ->
          retryRpc_default
            (rpc (CGetTransactionReceipt h) (getTransactionReceipt h)) w = Some (res, w1) ->
          exists w',
            reconcileRow r w = Some (Ok tt, w')
            /\ (res = Ok None -> db w' = db w)
            /\ (forall rc, res = Ok (Some rc) -> rcpt_status rc = Some 1 ->
                  db w' = Db.exec (SetSent (f_id r)) (db w))
            /\ (forall rc, res = Ok (Some rc) -> rcpt_status rc = Some 0 ->
                  db w' = Db.exec (SetFailed "transaction reverted" (f_id r)) (db w))
            /\ (forall rc, res = Ok (Some rc) ->
                  rcpt_status rc <> Some 1 -> rcpt_status rc <> Some 0 ->
                  db w' = db w)))
  /\
  (exists w',
      reconcileBroadcastsOnce cfg0 sweep_world = Some (Ok tt, w')
      /\ map status (db w') = [Failed; Sent; Failed]
      /\ map reason (db w') =
         [Some "missing tx_hash in broadcast state"; None; Some "transaction reverted"]).
Proof.
  split.
  - intros Chain HP r w. split.
    + intros Hf. eexists. split; [apply reconcileRow_missing; exact Hf|reflexivity].
    + intros h res w1 Hh Hf Hl. eexists. split; [eapply reconcileRow_lookup; eauto|].
      pose proof (lookup_db h w res w1 Hl) as Hdb.
      split; [|split; [|split]].
      * intros ->. exact Hdb.
      * intros rc -> Hs. rewrite Hs. cbn. rewrite Hdb. reflexivity.
      * intros rc -> Hs. rewrite Hs. cbn. rewrite Hdb. reflexivity.
      * intros rc -> H1 H0.
        destruct (rcpt_status rc) as [z|]; cbn; [|exact Hdb].
        destruct (z =? 1) eqn:E1; [apply Z.eqb_eq in E1; congruence|].
        destruct (z =? 0) eqn:E0; [apply Z.eqb_eq in E0; congruence|].
        exact Hdb.
  - eexists. split; [vm_compute; reflexivity|]. split; reflexivity.
Qed.

End ReconcilerResolution.

(** ** The transaction hash of rows in flight *)

Section HashInvariant.
Import Worker Reconciler.

Context {Chain : Type} `{Provider Chain}.
Variable cfg : Config.
Implicit Types (w : World Chain).

Lemma hash_by_status_split r :
  hash_by_status r = true <-> hash_if_inflight r = true /\ no_hash_if_queued r = true.
Proof.
  unfold hash_by_status, hash_if_inflight, no_hash_if_queued.
  destruct (status r), (tx_hash r); split; try tauto; try discriminate;
    intros [? ?]; discriminate.
Qed.

Lemma HashByStatus_split t :
  HashByStatus t <-> InflightHaveHash t /\ QueuedHaveNoHash t.
Proof.
  unfold HashByStatus, InflightHaveHash, QueuedHaveNoHash. rewrite !Forall_forall.
  split.
  - intros Ht. split; intros r Hr; apply (hash_by_status_split r), Ht, Hr.
  - intros [H1 H2] r Hr. apply hash_by_status_split. split; [apply H1|apply H2]; exact Hr.
Qed.

(** No statement gives a queued row a hash, or makes a row queued. *)
Lemma exec_QueuedHaveNoHash s t :
  QueuedHaveNoHash t -> QueuedHaveNoHash (Db.exec s t).
Proof.
  unfold QueuedHaveNoHash. rewrite !Forall_forall. intros Ht y Hy.
  destruct s; cbn [Db.exec] in Hy; try (apply Ht; exact Hy);
    unfold Db.update_where in Hy;
    apply list_elem_of_In, in_map_iff in Hy as (x & <- & Hx);
    match goal with
    | |- no_hash_if_queued (if ?c then _ else _) = true =>
        destruct c; [reflexivity|apply Ht, list_elem_of_In, Hx]
    end.
Qed.

Lemma replay_QueuedHaveNoHash evs t :
  QueuedHaveNoHash t -> QueuedHaveNoHash (replay evs t).
Proof.
  revert t. induction evs as [|e evs IH]; intros t Ht; [exact Ht|].
  rewrite replay_cons. apply IH. destruct e; try exact Ht.
  apply exec_QueuedHaveNoHash. exact Ht.
Qed.

Lemma keeps_hashes_by_status w w' :
  QueuedHaveNoHash (db w) -> keeps_hashes w w' -> keeps_hash_by_status w w'.
Proof.
  intros Hq (evs & Ht & Hd & Hi). exists evs. split; [exact Ht|]. split; [exact Hd|].
  intros pre post E. apply HashByStatus_split. split; [eapply Hi; exact E|].
  apply replay_QueuedHaveNoHash. exact Hq.
Qed.

Lemma keeps_hash_by_status_end w w' : keeps_hash_by_status w w' -> HashByStatus (db w').
Proof.
  intros (evs & _ & -> & Hi). apply (Hi evs []). symmetry. apply app_nil_r.
Qed.

(** C2 (as amended). On a table with unique ids in which every row with
    status broadcast or sent has a transaction hash and every queued row has
    none, a run of the processor and a cycle of the reconciler each return,
    and leave such a table after every statement they run. A failed row is
    the one case the invariant leaves open: a statement that writes status
    failed leaves every transaction hash as it was. *)
Theorem inflight_rows_keep_hash (job : DripJob) (w : World Chain) :
  HashByStatus (db w) ->
  UniqueIds (db w) ->
  (exists r w',
      processor cfg job w = Some (r, w')
      /\ keeps_hash_by_status w w' /\ UniqueIds (db w'))
  /\
  (exists r w',
      reconcileBroadcastsWithLock cfg w = Some (r, w')
      /\ keeps_hash_by_status w w' /\ UniqueIds (db w'))
  /\
  (forall m i t, map tx_hash (Db.exec (SetFailed m i) t) = map tx_hash t).
Proof.
  intros Hs Hu. apply HashByStatus_split in Hs as [Hi Hq]. split; [|split].
  - destruct (processor_returns cfg job w) as (r & w' & Hp). exists r, w'.
    split; [exact Hp|].
    pose proof (processor_runs_no_SetSent cfg job w r w' Hp) as Hr.
    split; [apply keeps_hashes_by_status; [exact Hq|apply run_keeps_hashes; assumption]|].
    destruct Hr as (evs & _ & _ & ->). unfold UniqueIds. rewrite replay_ids. exact Hu.
  - destruct (reconcileBroadcastsWithLock_returns cfg w) as (r & w' & Hp). exists r, w'.
    split; [exact Hp|].
    destruct (reconcileBroadcastsWithLock_preserves cfg w r w' Hi Hu Hp) as [Hk Hu'].
    split; [apply keeps_hashes_by_status; assumption|exact Hu'].
  - intros m i t. cbn [Db.exec]. unfold Db.update_where. rewrite map_map.
    apply map_ext. intros r. destruct (id r =? i); reflexivity.
Qed.

End HashInvariant.

Section HashInvariantRuns.
Import Retry Worker Reconciler Scenario.

Lemma inflight_rows_keep_hash_witness :
  (exists r w',
      processor cfg0 job1 (world0 (healthy "0x111") queued_and_broadcast) = Some (r, w')
      /\ HashByStatus (db w'))
  /\
  (exists r w',
      reconcileBroadcastsWithLock cfg0 (world0 (healthy "0x111") queued_and_broadcast)
        = Some (r, w')
      /\ HashByStatus (db w')).
Proof.
  destruct (inflight_rows_keep_hash cfg0 job1
              (world0 (healthy "0x111") queued_and_broadcast))
    as ((r1 & w1 & Hp1 & Hk1 & _) & (r2 & w2 & Hp2 & Hk2 & _) & _).
  - repeat constructor.
  - unfold UniqueIds. cbn. apply NoDup_cons. split; [|apply NoDup_singleton].
    intros Hin. apply list_elem_of_In in Hin. destruct Hin as [Hin|[]]. discriminate Hin.
  - split.
    + exists r1, w1. split; [exact Hp1|]. eapply keeps_hash_by_status_end; eauto.
    + exists r2, w2. split; [exact Hp2|]. eapply keeps_hash_by_status_end; eauto.
Defined.

(** C2, as stated, fails, and in one way only. From a queued row without a
    hash, the processor records the broadcast of 0x111, its confirmation
    wait fails, and its catch-all leaves the row failed with the hash still
    on it; the reconciler does the same with a reverted transaction. The
    tables they leave satisfy the invariant in which a failed row is free. *)
Lemma hash_iff_inflight_counterexample :
  forallb hash_iff_inflight (db wait_breaks) = true
  /\
  (exists w',
      processor cfg0 job1 wait_breaks = Some (Throw e500, w')
      /\ summary (db w') = [(1, Failed, Some "0x111")]
      /\ forallb hash_iff_inflight (db w') = false
      /\ forallb hash_by_status (db w') = true)
  /\
  forallb hash_iff_inflight (db reverted_world) = true
  /\
  (exists w',
      reconcileBroadcastsOnce cfg0 reverted_world = Some (Ok tt, w')
      /\ summary (db w') = [(2, Sent, Some "0xa"); (3, Failed, Some "0xb")]
      /\ forallb hash_iff_inflight (db w') = false
      /\ forallb hash_by_status (db w') = true).
Proof.
  split; [reflexivity|]. split.
  - eexists. split; [vm_compute; reflexivity|]. repeat split; reflexivity.
  - split; [reflexivity|].
    eexists. split; [vm_compute; reflexivity|]. repeat split; reflexivity.
Qed.

Lemma reconciler_resolution_witness :
  exists w',
    reconcileRow {| f_id := 3; f_tx_hash := Some "0xb" |} sweep_world = Some (Ok tt, w')
    /\ summary (db w') =
       [(1, Broadcast, None); (2, Broadcast, Some "0xa"); (3, Failed, Some "0xb")].
Proof.
  destruct (proj1 reconciler_resolution Script _
              {| f_id := 3; f_tx_hash := Some "0xb" |} sweep_world) as [_ Hl].
  edestruct (Hl "0xb") as (w' & Hr & _ & _ & Hfail & _).
  - reflexivity.
  - reflexivity.
  - vm_compute. reflexivity.
  - exists w'. split; [exact Hr|]. rewrite (Hfail _ eq_refl eq_refl). reflexivity.
Defined.

End HashInvariantRuns.

(** ** The locks *)

Section LockFacts.
Import Reconciler.

Context {Chain : Type} `{Provider Chain}.
Implicit Types (w : World Chain).

Lemma RVal_eqb_eq a b : RVal_eqb a b = true <-> a = b.
Proof.
  destruct a as [s|n], b as [s'|n']; cbn; split; try discriminate.
  - intros Hs. apply String.eqb_eq in Hs. congruence.
  - intros [= ->]. apply String.eqb_refl.
  - intros Hn. apply Z.eqb_eq in Hn. congruence.
  - intros [= ->]. apply Z.eqb_refl.
Qed.

(** A successful [tryAcquireLock] stores the token it generated, the next
    of the token stream, as the value of the key. *)
Lemma tryAcquireLock_stores key ttlMs w token w' :
  0 < ttlMs ->
  tryAcquireLock key ttlMs w = (Ok (Some token), w') ->
  token = tok w 0%nat
  /\ Redis.get (now w') key (kv w') = Some (VStr token).
Proof.
  intros Httl. unfold tryAcquireLock, randHex. cbn.
  unfold Redis.set_nx_px.
  destruct (Redis.get (now w) key (kv w)); [discriminate|].
  intros [= <- <-]. split; [reflexivity|]. cbn.
  unfold Redis.get. rewrite lookup_insert_eq. unfold Redis.live. cbn.
  replace (now w <=? now w + ttlMs) with true by (symmetry; apply Z.leb_le; lia).
  reflexivity.
Qed.

(** While the key is held, [tryAcquireLock] fails and changes nothing. *)
Lemma tryAcquireLock_held key ttlMs w v :
  Redis.get (now w) key (kv w) = Some v ->
  fst (tryAcquireLock key ttlMs w) = Ok None
  /\ kv (snd (tryAcquireLock key ttlMs w)) = kv w.
Proof.
  intros Hg. unfold tryAcquireLock, randHex. cbn.
  unfold Redis.set_nx_px. rewrite Hg. split; reflexivity.
Qed.

(** [releaseLock] with the token that is the key's value deletes the key. *)
Lemma releaseLock_owner key token w :
  Redis.get (now w) key (kv w) = Some (VStr token) ->
  kv (snd (releaseLock key token w)) = delete key (kv w).
Proof.
  intros Hg. unfold releaseLock. cbn. unfold Redis.eval_unlock. rewrite Hg.
  cbn. rewrite String.eqb_refl. unfold Redis.del. rewrite Hg. reflexivity.
Qed.

(** [releaseLock] with any other token, or on a key that is not set, leaves
    the key space as it is. *)
Lemma releaseLock_stranger key token w :
  Redis.get (now w) key (kv w) <> Some (VStr token) ->
  kv (snd (releaseLock key token w)) = kv w.
Proof.
  intros Hg. unfold releaseLock. cbn. unfold Redis.eval_unlock.
  destruct (Redis.get (now w) key (kv w)) as [v|]; [|reflexivity].
  destruct (RVal_eqb v (VStr token)) eqn:Hv; [|reflexivity].
  apply RVal_eqb_eq in Hv. congruence.
Qed.

End LockFacts.

Section LockRuns.
Import Worker Scenario.

(** C1 on the reconciler lock: A acquires, its TTL runs out, B acquires; A's
    release, with A's token, leaves B's lock in place. *)
Example reconciler_lock_owner_checked :
  exists ta wa tb wb wc,
    Reconciler.tryAcquireLock Reconciler.LOCK_KEY 55000 (world0 (healthy "0x111") [])
      = (Ok (Some ta), wa)
    /\ Reconciler.tryAcquireLock Reconciler.LOCK_KEY 55000 (advance 56000 wa)
       = (Ok (Some tb), wb)
    /\ ta = "0deadbeef" /\ tb = "1deadbeef"
    /\ Reconciler.releaseLock Reconciler.LOCK_KEY ta wb = (Ok tt, wc)
    /\ Redis.get (now wc) Reconciler.LOCK_KEY (kv wc) = Some (VStr tb).
Proof.
  do 5 eexists. split; [vm_compute; reflexivity|]. split; [vm_compute; reflexivity|].
  split; [reflexivity|]. split; [reflexivity|]. split; [vm_compute; reflexivity|].
  vm_compute. reflexivity.
Qed.

(** C1 fails on the signer lock. Worker A acquires the lock (value "1", 15 s);
    16 s later, A still waiting for its confirmation, the key has expired and
    worker B acquires it (value "1" again); A's [finally] then deletes the key
    that B holds, and a third worker acquires it while B is at work. *)
Theorem signer_lock_released_by_stranger :
  exists wa wb wc wd,
    acquireLock signer_key 15 (world0 (healthy "0x111") []) = (Ok true, wa)
    /\ Redis.get (now wa) signer_key (kv wa) = Some (VStr "1")
    /\ acquireLock signer_key 15 (advance 16000 wa) = (Ok true, wb)
    /\ Redis.get (now wb) signer_key (kv wb) = Some (VStr "1")
    /\ releaseLock signer_key wb = (Ok tt, wc)
    /\ Redis.get (now wc) signer_key (kv wc) = None
    /\ acquireLock signer_key 15 wc = (Ok true, wd).
Proof.
  do 4 eexists.
  split; [vm_compute; reflexivity|]. split; [vm_compute; reflexivity|].
  split; [vm_compute; reflexivity|]. split; [vm_compute; reflexivity|].
  split; [vm_compute; reflexivity|]. split; vm_compute; reflexivity.
Qed.

End LockRuns.

(** ** Unconditional updates *)

Section OverwriteRuns.
Import Retry Worker Reconciler Scenario.

(** C4 fails on the reconciler. The reconciler fetches row 1 in status
    broadcast; the processor, whose confirmation wait failed, writes the row
    as failed; the reconciler, whose receipt lookup reports success, then
    writes it as sent: [UPDATE requests SET status='sent' WHERE id=$1] looks
    neither at the hash nor at the status. The processor's own guard on the
    hash does not see a change of status either. *)
Theorem reconciler_overwrites_processor :
  (exists wa wb wc,
      query (SelectBroadcast (BATCH cfg0)) (world0 (healthy "0x111") broadcast1)
        = (Ok [fetched1], wa)
      /\ catchAll job1 e500 wa = Some (Throw e500, wb)
      /\ summary (db wb) = [(1, Failed, Some "0x111")]
      /\ reconcileRow fetched1 wb = Some (Ok tt, wc)
      /\ summary (db wc) = [(1, Sent, Some "0x111")])
  /\
  summary (Db.exec (SetSentIfHash 1 "0x111") [row 1 10 Failed (Some "0x111")])
    = [(1, Sent, Some "0x111")]
  /\
  summary (Db.exec (SetFailed "transaction reverted" 1) [row 1 10 Sent (Some "0x111")])
    = [(1, Failed, Some "0x111")].
Proof.
  split; [|split; reflexivity].
  do 3 eexists. split; [vm_compute; reflexivity|]. split; [vm_compute; reflexivity|].
  split; [reflexivity|]. split; [vm_compute; reflexivity|]. reflexivity.
Qed.

(** The one guarded statement, the processor's: a row whose hash differs
    from the one named is left as it is. *)
Lemma SetSentIfHash_other_hash i h r :
  tx_hash r <> Some h -> Db.exec (SetSentIfHash i h) [r] = [r].
Proof.
  intros Hh. cbn. unfold Db.hash_is.
  destruct (tx_hash r) as [h'|]; [|rewrite andb_false_r; reflexivity].
  destruct (String.eqb h' h) eqn:He; [|rewrite andb_false_r; reflexivity].
  apply String.eqb_eq in He. congruence.
Qed.

End OverwriteRuns.

(* ===================================================================== *)
(** * Further properties                                                 *)
(* ===================================================================== *)

(** ** Classification *)

Section ClassificationFacts.
Import JsString Regex Retry Worker.

Lemma test_Alt icase a b s :
  test icase (Alt a b) s = test icase a s || test icase b s.
Proof.
  induction s as [|c s IH]; cbn [test matchk].
  - destruct (matchk icase a _ _), (matchk icase b _ _); reflexivity.
  - rewrite IH.
    destruct (matchk icase a _ _), (matchk icase b _ _),
      (test icase a s), (test icase b s); reflexivity.
Qed.

(** The message pattern of [isPermanentError] is the one of [failFast]
    without its last alternative. *)
Lemma re_permanent_failFast s :
  test true re_permanent s = true -> test true re_failFast s = true.
Proof.
  unfold re_permanent, re_failFast. cbn [alts]. rewrite !test_Alt.
  intros Hp. repeat (apply orb_true_iff in Hp as [Hp|Hp]; [rewrite Hp; cbn [orb]; rewrite ?orb_true_r; reflexivity|]).
  rewrite Hp. rewrite ?orb_true_r. reflexivity.
Qed.

(** Comparing integers as numbers. *)
Lemma js_is_Z s k : js_is (Finite (inject_Z s)) k = (s =? k).
Proof.
  cbn. unfold Qeq_bool. cbn. rewrite !Z.mul_1_r. reflexivity.
Qed.

Lemma js_in_Z s lo hi : js_in (Finite (inject_Z s)) lo hi = (lo <=? s) && (s <? hi).
Proof.
  cbn. unfold Qle_bool. cbn. rewrite !Z.mul_1_r.
  rewrite Z.ltb_antisym. reflexivity.
Qed.

(** By status alone: 429 and every 5xx status make an error retryable,
    400 and 401 make it fail-fast, whatever its code and message; the status
    is [err.status], or [err.response.status] when that is absent, and it
    counts only if it is a number: a status of another type reads as NaN. *)
Theorem status_classification (err : JsError) :
  (toStatus err = Finite (inject_Z 429) -> isRetryableError err = true)
  /\ (forall s, toStatus err = Finite (inject_Z s) -> 500 <= s < 600 ->
               isRetryableError err = true)
  /\ (forall s, toStatus err = Finite (inject_Z s) -> s = 400 \/ s = 401 ->
               failFast err = true)
  /\ (e_status err = StUndefined \/ e_status err = StNull ->
      toStatus err = finite_or_NaN (e_resp_status err))
  /\ (forall c, e_status err = StOther c -> toStatus err = NaN).
Proof.
  split; [|split; [|split; [|split]]].
  - intros Hs. unfold isRetryableError. rewrite Hs. cbv zeta.
    destruct (_ || _); [reflexivity|]. destruct (test _ _ _); [reflexivity|].
    rewrite js_is_Z. reflexivity.
  - intros s Hs Hr. unfold isRetryableError. rewrite Hs. cbv zeta.
    destruct (_ || _); [reflexivity|]. destruct (test _ _ _); [reflexivity|].
    rewrite js_is_Z, js_in_Z.
    destruct (s =? 429); [reflexivity|].
    replace (500 <=? s) with true by (symmetry; apply Z.leb_le; lia).
    replace (s <? 600) with true by (symmetry; apply Z.ltb_lt; lia).
    reflexivity.
  - intros s Hs [-> | ->]; unfold failFast; rewrite Hs; cbv zeta;
      rewrite !js_is_Z; reflexivity.
  - intros [Hs|Hs]; unfold toStatus; rewrite Hs; reflexivity.
  - intros c Hs. unfold toStatus. rewrite Hs. reflexivity.
Qed.

(** X1. An error that the worker classifies as permanent is fail-fast for
    [retryRpc], provided both read the same message (the error has a
    [message], or it has neither [response.data.message] nor [body]) and the
    same status: the exception is a status that is not a number (the string
    ['400'], say) and that [Number(...)] turns into 400 or 401, which the
    worker counts and [retryRpc] reads as NaN. *)
Theorem permanent_is_failFast (err : JsError) :
  e_message err <> None \/ (e_resp_message err = None /\ e_body err = None) ->
  isPermanentError err = true ->
  failFast err = true
  \/ exists c, e_status err = StOther c /\ (js_is c 400 = true \/ js_is c 401 = true).
Proof.
  intros Hmsg. unfold isPermanentError, failFast, toStatus, toCode, toMsg.
  assert (Hm : default (e_text err) (e_message err ?? e_resp_message err ?? e_body err)
               = default (e_text err) (e_message err)).
  { destruct (e_message err) as [m|]; [reflexivity|].
    destruct Hmsg as [Hm|[-> ->]]; [contradiction|reflexivity]. }
  rewrite Hm.
  pose proof (re_permanent_failFast
                (toLowerCase (default (e_text err) (e_message err)))) as Hre.
  assert (Hst : forall k, js_is (Finite 0) k = false ->
                  js_is (to_number (e_status err)) k = true ->
                  js_is (finite_or_NaN (status_or (e_status err) (e_resp_status err))) k
                  = true
                  \/ exists c, e_status err = StOther c /\ js_is c k = true).
  { intros k H0. destruct (e_status err) as [| |[q| | |]|c]; cbn [to_number];
      try discriminate.
    - rewrite H0. discriminate.
    - intros E. left. exact E.
    - intros E. right. eauto. }
  destruct (js_is (to_number (e_status err)) 400) eqn:E400.
  { destruct (Hst 400 eq_refl E400) as [E|(c & Hc & E)]; [left; rewrite E; reflexivity|].
    right. eauto. }
  destruct (js_is (to_number (e_status err)) 401) eqn:E401.
  { destruct (Hst 401 eq_refl E401) as [E|(c & Hc & E)];
      [left; rewrite E, ?orb_true_r; reflexivity|].
    right. eauto. }
  destruct (includes "CALL_EXCEPTION" _); [left; rewrite ?orb_true_r; reflexivity|].
  destruct (includes "UNPREDICTABLE_GAS_LIMIT" _); [left; rewrite ?orb_true_r; reflexivity|].
  cbn [orb]. intros Hp. left. rewrite (Hre Hp). rewrite ?orb_true_r. reflexivity.
Qed.

End ClassificationFacts.

(** ** Bounds of [retryRpc] *)

Section RetryBounds.
Import Retry.

Context {Chain : Type} `{Provider Chain}.
Implicit Types (w : World Chain).

Lemma rpc_effects {A} c (f : Chain -> Res A * Chain) w :
  trace (snd (rpc c f w)) = trace w ++ [EvRpc c]
  /\ db (snd (rpc c f w)) = db w
  /\ kv (snd (rpc c f w)) = kv w.
Proof. unfold rpc. cbn. destruct (f (chain w)). repeat split; reflexivity. Qed.

Lemma backoffDelay_le_cap bd a r : backoffDelay bd a r <= 15000.
Proof. apply (backoffDelay_range bd a r). Qed.

Lemma retryLoop_rpc_effects {A} c (f : Chain -> Res A * Chain) mr bd fuel :
  forall a w r w',
  retryLoop (rpc c f) mr bd fuel a w = Some (r, w') ->
  exists evs,
    trace w' = trace w ++ evs
    /\ calls evs = repeat c (S (length (delays evs)))
    /\ (length (delays evs) <= mr - a)%nat
    /\ Forall (fun d => (d <= 15000)%Q) (delays evs)
    /\ stmts evs = [] /\ commands evs = []
    /\ db w' = db w /\ kv w' = kv w.
Proof.
  induction fuel as [|fuel IH]; intros a w r w'; [discriminate|].
  rewrite retryLoop_step.
  destruct (rpc_effects c f w) as (Ht & Hd & Hk).
  destruct (rpc c f w) as [[v|err] w1]; cbn [snd] in Ht, Hd, Hk.
  - intros [= <- <-]. exists [EvRpc c]. cbn.
    repeat split; try assumption; try constructor; lia.
  - destruct (failFast err || (mr <=? a)%nat || negb (isRetryableError err)) eqn:Hc.
    + intros [= <- <-]. exists [EvRpc c]. cbn.
      repeat split; try assumption; try constructor; lia.
    + intros Hr. apply IH in Hr as (evs & Ht' & Hc' & Hl' & Hf' & Hs' & Hr' & Hd' & Hk').
      apply orb_false_iff in Hc as [Hc _]. apply orb_false_iff in Hc as [_ Hc].
      apply Nat.leb_gt in Hc.
      set (d := inject_Z (backoffDelay bd a (rnd w1 0%nat))).
      exists (EvRpc c :: EvSleep d :: evs).
      replace (calls (EvRpc c :: EvSleep d :: evs)) with (c :: calls evs) by reflexivity.
      replace (delays (EvRpc c :: EvSleep d :: evs)) with (d :: delays evs) by reflexivity.
      replace (stmts (EvRpc c :: EvSleep d :: evs)) with (stmts evs) by reflexivity.
      replace (commands (EvRpc c :: EvSleep d :: evs)) with (commands evs) by reflexivity.
      rewrite Hc', Hs', Hr'. cbn [length repeat].
      split; [|split; [|split; [|split]]].
      * rewrite Ht'. unfold backoff. cbn. rewrite Ht. rewrite <- !app_assoc. reflexivity.
      * reflexivity.
      * lia.
      * constructor; [|exact Hf']. unfold d. change 15000%Q with (inject_Z 15000).
        rewrite <- Zle_Qle. apply backoffDelay_le_cap.
      * repeat split; [rewrite Hd'|rewrite Hk']; assumption.
Qed.

(** X2. A provider call under [retryRpc] is issued once more than there
    are backoffs; there are at most [maxRetries] backoffs, none longer than
    15000 ms; nothing else happens: no statement, no Redis command, the table
    and the key space as they were. *)
Theorem retryRpc_rpc_effects {A} c (f : Chain -> Res A * Chain)
    (maxRetries : nat) (baseDelayMs : Q) w :
  exists r w' evs,
    retryRpc (rpc c f) maxRetries baseDelayMs w = Some (r, w')
    /\ trace w' = trace w ++ evs
    /\ calls evs = repeat c (S (length (delays evs)))
    /\ (length (delays evs) <= maxRetries)%nat
    /\ Forall (fun d => (d <= 15000)%Q) (delays evs)
    /\ stmts evs = [] /\ commands evs = []
    /\ db w' = db w /\ kv w' = kv w.
Proof.
  destruct (retryRpc_returns (rpc c f) maxRetries baseDelayMs w) as (r & w' & Hr).
  exists r, w'. unfold retryRpc in *.
  destruct (retryLoop_rpc_effects c f _ _ _ _ _ _ _ Hr)
    as (evs & Ht & Hc & Hl & Hf & Hs & Hcm & Hd & Hk).
  exists evs. repeat split; try assumption. lia.
Qed.

(** X3. For a non-negative base delay and a non-negative random value, the
    backoff delay is never negative, never above 15000 ms, and does not shrink
    from one attempt to the next. *)
Theorem backoffDelay_capped_monotone (baseDelayMs r : Q) (a a' : nat) :
  (0 <= baseDelayMs)%Q -> (0 <= r)%Q -> (a <= a')%nat ->
  0 <= backoffDelay baseDelayMs a r
  /\ backoffDelay baseDelayMs a r <= backoffDelay baseDelayMs a' r
  /\ backoffDelay baseDelayMs a' r <= 15000.
Proof.
  intros Hbd Hr Ha. split; [|split].
  - pose proof (backoffDelay_range baseDelayMs a r). lia.
  - apply backoffDelay_mono; assumption.
  - apply (backoffDelay_range baseDelayMs a' r).
Qed.

(** [retryRpc] calls the operation once and passes its outcome on when
    the operation returns, when [maxRetries] is 0, when the error is not
    retryable (this includes every error that is not recognised), and when
    it is fail-fast. *)
Theorem retryRpc_not_retried {T} (fn : Op Chain T) (maxRetries : nat)
    (baseDelayMs : Q) w (r : Res T) w' :
  fn w = (r, w') ->
  match r with
  | Ok _ => True
  | Throw e => maxRetries = 0%nat \/ isRetryableError e = false \/ failFast e = true
  end ->
  retryRpc fn maxRetries baseDelayMs w = Some (r, w').
Proof.
  intros Hfn Hr. unfold retryRpc. rewrite retryLoop_step, Hfn.
  destruct r as [v|e]; [reflexivity|].
  destruct Hr as [-> | [Hr | Hr]]; rewrite ?Hr; cbn [negb Nat.leb];
    rewrite ?orb_true_r; reflexivity.
Qed.

End RetryBounds.

Section RetryBoundsRuns.
Import Retry Worker Scenario.

(** HTTP 503 with an empty message is retryable and not fail-fast; 401 is
    fail-fast. *)
Lemma status_classification_witness :
  isRetryableError (http_error 503 "") = true
  /\ failFast (http_error 401 "") = true.
Proof.
  split.
  - apply (proj1 (proj2 (status_classification (http_error 503 ""))) 503);
      [reflexivity|lia].
  - apply (proj1 (proj2 (proj2 (status_classification (http_error 401 "")))) 401);
      [reflexivity|right; reflexivity].
Defined.

(** The error of [ensureBalanceCovers] is permanent, hence fail-fast: its
    status is absent. *)
Lemma permanent_is_failFast_witness :
  e_status (newError "insufficient funds in faucet wallet for amount+fees") = StUndefined
  /\ (failFast (newError "insufficient funds in faucet wallet for amount+fees") = true
      \/ exists c,
           e_status (newError "insufficient funds in faucet wallet for amount+fees")
           = StOther c
           /\ (js_is c 400 = true \/ js_is c 401 = true)).
Proof.
  split; [reflexivity|].
  apply permanent_is_failFast.
  - left. discriminate.
  - reflexivity.
Defined.

(** The exception occurs: an error whose status is the string ['400'] is
    permanent for the worker, and for [retryRpc] neither fail-fast nor
    retryable. *)
Lemma permanent_status_string :
  isPermanentError e400_string = true
  /\ failFast e400_string = false
  /\ isRetryableError e400_string = false.
Proof. repeat split; reflexivity. Qed.

Lemma backoffDelay_capped_monotone_witness :
  0 <= backoffDelay (500 # 1) 1 0
  /\ backoffDelay (500 # 1) 1 0 <= backoffDelay (500 # 1) 2 0
  /\ backoffDelay (500 # 1) 2 0 <= 15000.
Proof.
  apply backoffDelay_capped_monotone; [discriminate|discriminate|lia].
Defined.

(** An error that is not recognised is not retried: one call, no delay. *)
Lemma retryRpc_not_retried_witness :
  exists w',
    retryRpc balanceOf 3 (500 # 1) (flaky 5 (newError "something odd"))
      = Some (Throw (newError "something odd"), w')
    /\ sc_calls (chain w') = 1%nat.
Proof.
  eexists. split.
  - apply (retryRpc_not_retried balanceOf 3 (500 # 1)
             (flaky 5 (newError "something odd"))).
    + vm_compute. reflexivity.
    + right. left. reflexivity.
  - reflexivity.
Defined.

End RetryBoundsRuns.

(** ** Frames: what a program leaves as it was *)

Section FrameFacts.
Import Retry.

Context {Chain : Type} `{Provider Chain}.
Variable R : World Chain -> World Chain -> Prop.
Hypothesis R_refl : forall w, R w w.
Hypothesis R_trans : forall w1 w2 w3, R w1 w2 -> R w2 w3 -> R w1 w3.

Lemma follows_ret {A} (a : A) : follows R (ret a).
Proof. intros w r w' [= <- <-]. apply R_refl. Qed.

Lemma follows_throw {A} e : follows R (throw (A := A) e).
Proof. intros w r w' [= <- <-]. apply R_refl. Qed.

Lemma follows_lift {A} (op : Op Chain A) :
  (forall w, R w (snd (op w))) -> follows R (lift op).
Proof. intros Hop w r w' [= Hr]. specialize (Hop w). rewrite Hr in Hop. exact Hop. Qed.

Lemma follows_bind {A B} (m : M Chain A) (k : A -> M Chain B) :
  follows R m -> (forall a, follows R (k a)) -> follows R (bind m k).
Proof.
  intros Hm Hk w r w'. unfold bind.
  destruct (m w) as [[[a|e] w1]|] eqn:Em; [| |discriminate].
  - intros Hk'. eapply R_trans; [eapply Hm; eauto | eapply Hk; eauto].
  - intros [= <- <-]. eapply Hm; eauto.
Qed.

Lemma follows_tryCatch {A} (m : M Chain A) (h : JsError -> M Chain A) :
  follows R m -> (forall e, follows R (h e)) -> follows R (tryCatch m h).
Proof.
  intros Hm Hh w r w'. unfold tryCatch.
  destruct (m w) as [[[a|e] w1]|] eqn:Em; [| |discriminate].
  - intros [= <- <-]. eapply Hm; eauto.
  - intros Hh'. eapply R_trans; [eapply Hm; eauto | eapply Hh; eauto].
Qed.

Lemma follows_tryFinally {A} (m : M Chain A) (fin : M Chain unit) :
  follows R m -> follows R fin -> follows R (tryFinally m fin).
Proof.
  intros Hm Hf w r w'. unfold tryFinally.
  destruct (m w) as [[r1 w1]|] eqn:Em; [|discriminate].
  destruct (fin w1) as [[[u|e] w2]|] eqn:Ef; [| |discriminate];
    intros [= <- <-]; (eapply R_trans; [eapply Hm; eauto | eapply Hf; eauto]).
Qed.

Lemma follows_retryRpc {T} (fn : Op Chain T) mr bd :
  (forall w, R w (snd (fn w))) ->
  (forall a w, R w (backoff bd a w)) ->
  follows R (retryRpc fn mr bd).
Proof.
  intros Hfn Hb. unfold retryRpc. generalize 0%nat. generalize (S mr).
  intros fuel. induction fuel as [|fuel IH]; intros a w r w'; [discriminate|].
  rewrite retryLoop_step. pose proof (Hfn w) as Hw.
  destruct (fn w) as [[v|err] w1]; cbn in Hw.
  - intros [= <- <-]. exact Hw.
  - destruct (failFast err || (mr <=? a)%nat || negb (isRetryableError err)).
    + intros [= <- <-]. exact Hw.
    + intros Hr. eapply R_trans; [exact Hw|].
      eapply R_trans; [apply Hb|]. eapply IH; eauto.
Qed.

End FrameFacts.

(** ** The signer lock *)

Section SignerLockFacts.
Import Retry Worker.

Context {Chain : Type} `{Provider Chain}.
Variable cfg : Config.
Implicit Types (w : World Chain).

(** What [acquireLock] does to the key space. *)
Lemma acquireLock_free key ttlSec w :
  Redis.get (now w) key (kv w) = None ->
  acquireLock key ttlSec w =
  (Ok true,
   set_kv (<[key := {| r_val := VStr "1"; r_exp := Some (now w + ttlSec * 1000) |}]> (kv w))
          (log (EvRedis (RSetNxEx key "1" ttlSec)) w)).
Proof. intros Hg. unfold acquireLock, Redis.set_nx_px. cbn. rewrite Hg. reflexivity. Qed.

Lemma acquireLock_held key ttlSec w :
  Redis.get (now w) key (kv w) <> None ->
  acquireLock key ttlSec w =
  (Ok false, set_kv (kv w) (log (EvRedis (RSetNxEx key "1" ttlSec)) w)).
Proof.
  intros Hg. unfold acquireLock, Redis.set_nx_px. cbn.
  destruct (Redis.get (now w) key (kv w)); [reflexivity|contradiction].
Qed.

(** X4. Once [acquireLock] has succeeded at time [t] with a TTL of
    [ttlSec] seconds, and as long as nobody changes the key: every
    [acquireLock] for the key up to the time [t + 1000 * ttlSec], that time
    included, fails and leaves the key space as it is, and every one after
    that time succeeds. *)
Theorem acquireLock_exclusive_until_expiry (key : string) (ttlSec : Z) w w1 :
  acquireLock key ttlSec w = (Ok true, w1) ->
  forall w2 ttl2,
    kv w2 = kv w1 ->
    (now w2 <= now w + ttlSec * 1000 ->
       fst (acquireLock key ttl2 w2) = Ok false
       /\ kv (snd (acquireLock key ttl2 w2)) = kv w2)
    /\ (now w + ttlSec * 1000 < now w2 ->
       fst (acquireLock key ttl2 w2) = Ok true).
Proof.
  intros Ha w2 ttl2 Hk.
  assert (Hfree : Redis.get (now w) key (kv w) = None).
  { unfold acquireLock, Redis.set_nx_px in Ha. cbn in Ha.
    destruct (Redis.get (now w) key (kv w)); [discriminate|reflexivity]. }
  rewrite (acquireLock_free key ttlSec w Hfree) in Ha. injection Ha as <-.
  cbn in Hk.
  assert (Hget : Redis.get (now w2) key (kv w2) =
                 if now w2 <=? now w + ttlSec * 1000 then Some (VStr "1") else None).
  { unfold Redis.get. rewrite Hk, lookup_insert_eq. reflexivity. }
  split; intros Ht.
  - rewrite acquireLock_held; [split; reflexivity|].
    rewrite Hget. replace (now w2 <=? _) with true by (symmetry; apply Z.leb_le; lia).
    discriminate.
  - rewrite acquireLock_free; [reflexivity|].
    rewrite Hget. replace (now w2 <=? _) with false by (symmetry; apply Z.leb_gt; lia).
    reflexivity.
Qed.

(** The timer of one round of the lock backoff: the delay and up to 80 ms
    of jitter. The delay [d] is an integer that is a double, as is
    [d + 80]. *)
Lemma lock_timer_bounds (d : Z) (r : Q) :
  1 <= d <= 1000000 ->
  round64 (inject_Z d) = inject_Z d ->
  round64 (inject_Z d + (80 # 1)) = inject_Z (d + 80) ->
  (0 <= r)%Q -> (r < 1)%Q ->
  d <= lock_timer (Finite (inject_Z d)) r <= d + 80.
Proof.
  intros Hd Ed Ed' H0 H1. unfold lock_timer, lit.
  pose proof (round64_nonneg _ H0) as Hr0.
  assert (Hr1 : (round64 r <= 1)%Q) by (apply round64_le_1; lra).
  rewrite (fl_nonneg _ H0).
  replace (Qle_bool (pow2 1024) (round64 r)) with false.
  2:{ symmetry. apply Qle_bool_false. apply Qle_lt_trans with 1%Q; [exact Hr1|].
      vm_compute. reflexivity. }
  cbn [js_mul].
  assert (Hp0 : (0 <= round64 r * (80 # 1))%Q) by nra.
  assert (Hp : (0 <= round64 (round64 r * (80 # 1)) <= 80 # 1)%Q).
  { split; [apply round64_nonneg; exact Hp0|].
    apply Qle_trans with (round64 (80 # 1)); [|vm_compute; discriminate].
    apply round64_mono; [exact Hp0|]. nra. }
  rewrite (fl_nonneg _ Hp0).
  replace (Qle_bool (pow2 1024) (round64 (round64 r * (80 # 1)))) with false.
  2:{ symmetry. apply Qle_bool_false. apply Qle_lt_trans with (80 # 1)%Q; [apply Hp|].
      vm_compute. reflexivity. }
  cbn [js_add].
  set (p := round64 (round64 r * (80 # 1))) in *.
  assert (Hd0 : (1 <= inject_Z d)%Q)
    by (change 1%Q with (inject_Z 1); rewrite <- Zle_Qle; lia).
  assert (Hd1 : (inject_Z d <= inject_Z 1000000)%Q) by (rewrite <- Zle_Qle; lia).
  change (inject_Z 1000000) with (1000000 # 1)%Q in Hd1.
  assert (Hs0 : (0 <= inject_Z d + p)%Q) by lra.
  assert (Hs : (inject_Z d <= round64 (inject_Z d + p) <= inject_Z (d + 80))%Q).
  { split.
    - rewrite <- Ed at 1. apply round64_mono; lra.
    - rewrite <- Ed'. apply round64_mono; [exact Hs0|]. lra. }
  assert (Hd2 : (inject_Z (d + 80) <= inject_Z 1000080)%Q) by (rewrite <- Zle_Qle; lia).
  change (inject_Z 1000080) with (1000080 # 1)%Q in Hd2.
  rewrite (fl_nonneg _ Hs0).
  replace (Qle_bool (pow2 1024) (round64 (inject_Z d + p))) with false.
  2:{ symmetry. apply Qle_bool_false.
      apply Qle_lt_trans with (1000080 # 1)%Q; [lra|]. vm_compute. reflexivity. }
  unfold timeout.
  replace (Qle_bool 1 (round64 (inject_Z d + p))) with true
    by (symmetry; apply Qle_bool_iff; lra).
  replace (Qle_bool (round64 (inject_Z d + p)) (inject_Z 2147483647)) with true.
  2:{ symmetry. apply Qle_bool_iff. change (inject_Z 2147483647) with (2147483647 # 1)%Q.
      lra. }
  cbn [andb]. destruct Hs as [Hs1 Hs2].
  apply Qfloor_resp_le in Hs1, Hs2. rewrite Qfloor_Z in Hs1, Hs2. lia.
Qed.

(** The delays of the loop: 150, 225, 337, 505. *)
Lemma lock_delays :
  js_floor (js_mul (Finite (150 # 1)) (lit (15 # 10))) = Finite (225 # 1)
  /\ js_floor (js_mul (Finite (225 # 1)) (lit (15 # 10))) = Finite (337 # 1)
  /\ js_floor (js_mul (Finite (337 # 1)) (lit (15 # 10))) = Finite (505 # 1).
Proof. repeat split; vm_compute; reflexivity. Qed.

(** One round of [acquireLockWithBackoff] on a key that is held. *)
Lemma acquireLockLoop_held key ttlSec n delay w :
  Redis.get (now w) key (kv w) <> None ->
  acquireLockLoop key ttlSec (S n) delay w =
  acquireLockLoop key ttlSec n (js_floor (js_mul delay (lit (15 # 10))))
    (lock_round key ttlSec delay w).
Proof.
  intros Hg. cbn [acquireLockLoop]. unfold bind at 1, lift at 1.
  rewrite (acquireLock_held key ttlSec w Hg). reflexivity.
Qed.

Lemma lock_round_effects key ttlSec delay w :
  now (lock_round key ttlSec delay w) = now w + lock_timer delay (rnd w 0%nat)
  /\ kv (lock_round key ttlSec delay w) = kv w
  /\ (forall n, rnd (lock_round key ttlSec delay w) n = rnd w (S n))
  /\ trace (lock_round key ttlSec delay w) =
     trace w ++ [EvRedis (RSetNxEx key "1" ttlSec);
                 EvSleep (inject_Z (lock_timer delay (rnd w 0%nat)))].
Proof.
  unfold lock_round. cbn. rewrite <- app_assoc. repeat split; reflexivity.
Qed.

(** The clock does not go back while the loop runs, and the loop returns. *)
Lemma acquireLockLoop_clock key ttlSec n :
  forall delay w,
  exists r w', acquireLockLoop key ttlSec n delay w = Some (r, w') /\ now w <= now w'.
Proof.
  induction n as [|n IH]; intros delay w; cbn [acquireLockLoop].
  - eexists _, _. split; [reflexivity|]. lia.
  - unfold bind at 1, lift at 1, acquireLock.
    destruct (Redis.set_nx_px _ _ _ _ _) as [[|] kv'].
    + eexists _, _. split; [reflexivity|]. cbn. lia.
    + unfold bind at 1, lift at 1, random. unfold bind at 1, lift at 1, sleep.
      match goal with
      | |- exists r w', acquireLockLoop _ _ _ ?d ?w1 = _ /\ _ =>
          destruct (IH d w1) as (r & w' & Hr & Hn)
      end.
      exists r, w'. split; [exact Hr|]. cbn in Hn.
      pose proof (timeout_ge_1
                    (js_add delay (js_mul (lit (rnd w 0%nat)) (Finite (80 # 1))))).
      lia.
Qed.

Lemma live_earlier t t' e : t' <= t -> Redis.live t e = true -> Redis.live t' e = true.
Proof.
  intros Ht. unfold Redis.live. destruct (r_exp e) as [x|]; [|trivial].
  intros Hl. apply Z.leb_le in Hl. apply Z.leb_le. lia.
Qed.

(** A loop that ends while the holder's key is still alive has been refused
    at every attempt. *)
Lemma acquireLockLoop_refused key ttlSec e n :
  forall delay w r w',
  acquireLockLoop key ttlSec n delay w = Some (r, w') ->
  kv w !! key = Some e ->
  Redis.live (now w') e = true ->
  r = Ok false /\ w' = lock_rounds key ttlSec n delay w.
Proof.
  induction n as [|n IH]; intros delay w r w' Hr Hk Hl.
  - cbn in Hr. injection Hr as <- <-. split; reflexivity.
  - destruct (acquireLockLoop_clock key ttlSec (S n) delay w) as (r0 & w0 & Hr0 & Hn).
    rewrite Hr in Hr0. injection Hr0 as <- <-.
    assert (Hg : Redis.get (now w) key (kv w) <> None).
    { unfold Redis.get. rewrite Hk, (live_earlier _ _ _ Hn Hl). discriminate. }
    rewrite (acquireLockLoop_held key ttlSec n delay w Hg) in Hr.
    cbn [lock_rounds]. eapply IH; [exact Hr| |exact Hl].
    rewrite (proj1 (proj2 (lock_round_effects key ttlSec delay w))). exact Hk.
Qed.

(** X5. [acquireLockWithBackoff] returns; if the key it found is still
    alive when it does, it has given up: it tried four times, was refused
    each time, slept after each refusal - the fourth included - with timers
    of 150, 225, 337 and 505 ms plus up to 80 ms of jitter, returned false and
    left the key space as it was. *)
Theorem acquireLockWithBackoff_gives_up (key : string) (ttlSec : Z) w (e : Entry) :
  kv w !! key = Some e ->
  (forall n, (0 <= rnd w n)%Q /\ (rnd w n < 1)%Q) ->
  exists r w',
    acquireLockWithBackoff key ttlSec w = Some (r, w')
    /\ (Redis.live (now w') e = true ->
        r = Ok false
        /\ kv w' = kv w
        /\ exists d1 d2 d3 d4,
             trace w' = trace w ++
               [ EvRedis (RSetNxEx key "1" ttlSec); EvSleep (inject_Z d1);
                 EvRedis (RSetNxEx key "1" ttlSec); EvSleep (inject_Z d2);
                 EvRedis (RSetNxEx key "1" ttlSec); EvSleep (inject_Z d3);
                 EvRedis (RSetNxEx key "1" ttlSec); EvSleep (inject_Z d4) ]
             /\ 150 <= d1 <= 230 /\ 225 <= d2 <= 305
             /\ 337 <= d3 <= 417 /\ 505 <= d4 <= 585).
Proof.
  intros Hk Hrnd. unfold acquireLockWithBackoff.
  destruct (acquireLockLoop_clock key ttlSec 4 (Finite (150 # 1)) w) as (r & w' & Hr & _).
  exists r, w'. split; [exact Hr|]. intros Hl.
  destruct (acquireLockLoop_refused key ttlSec e 4 _ w r w' Hr Hk Hl) as [-> ->].
  cbn [lock_rounds].
  destruct lock_delays as (E1 & E2 & E3). rewrite E1, E2, E3.
  set (w1 := lock_round key ttlSec (Finite (150 # 1)) w).
  set (w2 := lock_round key ttlSec (Finite (225 # 1)) w1).
  set (w3 := lock_round key ttlSec (Finite (337 # 1)) w2).
  set (w4 := lock_round key ttlSec (Finite (505 # 1)) w3).
  destruct (lock_round_effects key ttlSec (Finite (150 # 1)) w) as (_ & Hk1 & Hr1 & Ht1).
  destruct (lock_round_effects key ttlSec (Finite (225 # 1)) w1) as (_ & Hk2 & Hr2 & Ht2).
  destruct (lock_round_effects key ttlSec (Finite (337 # 1)) w2) as (_ & Hk3 & Hr3 & Ht3).
  destruct (lock_round_effects key ttlSec (Finite (505 # 1)) w3) as (_ & Hk4 & Hr4 & Ht4).
  fold w1 in Hk1, Hr1, Ht1. fold w2 in Hk2, Hr2, Ht2.
  fold w3 in Hk3, Hr3, Ht3. fold w4 in Hk4, Hr4, Ht4.
  rewrite Hr1 in Ht2. rewrite Hr2, Hr1 in Ht3. rewrite Hr3, Hr2, Hr1 in Ht4.
  split; [reflexivity|]. split; [congruence|].
  exists (lock_timer (Finite (150 # 1)) (rnd w 0%nat)),
         (lock_timer (Finite (225 # 1)) (rnd w 1%nat)),
         (lock_timer (Finite (337 # 1)) (rnd w 2%nat)),
         (lock_timer (Finite (505 # 1)) (rnd w 3%nat)).
  split.
  - rewrite Ht4, Ht3, Ht2, Ht1. rewrite <- !app_assoc. reflexivity.
  - repeat apply conj.
    all: try (apply (lock_timer_bounds 150); try apply Hrnd;
              [lia|vm_compute; reflexivity|vm_compute; reflexivity]).
    all: try (apply (lock_timer_bounds 225); try apply Hrnd;
              [lia|vm_compute; reflexivity|vm_compute; reflexivity]).
    all: try (apply (lock_timer_bounds 337); try apply Hrnd;
              [lia|vm_compute; reflexivity|vm_compute; reflexivity]).
    all: try (apply (lock_timer_bounds 505); try apply Hrnd;
              [lia|vm_compute; reflexivity|vm_compute; reflexivity]).
Qed.

(** The lock loop calls no provider method and runs no statement. *)
Lemma acquireLockLoop_frame key ttlSec n :
  forall delay w r w',
  acquireLockLoop key ttlSec n delay w = Some (r, w') ->
  chain w' = chain w /\ db w' = db w.
Proof.
  induction n as [|n IH]; intros delay w r w'; cbn [acquireLockLoop].
  - intros [= <- <-]. split; reflexivity.
  - unfold bind at 1, lift at 1, acquireLock.
    destruct (Redis.set_nx_px _ _ _ _ _) as [[|] kv'].
    + intros [= <- <-]. split; reflexivity.
    + unfold bind, lift, random, sleep. cbn. intros Hr.
      apply IH in Hr as [-> ->]. split; reflexivity.
Qed.

(** X6. When the lock cannot be acquired, the processor throws "nonce lock
    not acquired (backoff exhausted)" having called no provider method and
    run no statement: the chain and the table are as they were. *)
Theorem processor_lock_unavailable (job : DripJob) w w0 :
  isAddress (j_address job) = true ->
  acquireLockWithBackoff (lockKey (sender cfg)) 15 w = Some (Ok false, w0) ->
  processor cfg job w =
    Some (Throw (newError "nonce lock not acquired (backoff exhausted)"), w0)
  /\ chain w0 = chain w
  /\ db w0 = db w
  /\ exists evs, trace w0 = trace w ++ evs /\ calls evs = [] /\ stmts evs = [].
Proof.
  intros Ha Hl. split; [|split; [|split]].
  - unfold processor. rewrite Ha. cbn [negb]. unfold bind at 1. rewrite Hl. reflexivity.
  - eapply acquireLockLoop_frame; eauto.
  - eapply acquireLockLoop_frame; eauto.
  - assert (Hr : run (fun e => match e with EvRedis _ | EvSleep _ => True | _ => False end)
                   w w0).
    { eapply runs_acquireLockLoop; [| |exact Hl]; intros; exact I. }
    destruct Hr as (evs & Ht & Hf & _). exists evs. split; [exact Ht|].
    clear Ht. induction Hf as [|e evs He _ IH]; [split; reflexivity|].
    destruct e; try contradiction; exact IH.
Qed.

Lemma submit_runs job : runs (fun _ => True) (submit cfg job).
Proof.
  unfold submit. apply runs_bind.
  - intros w r w1 Hb. pose proof (broadcast_runs cfg job w r w1 Hb) as Hr.
    destruct r as [h|e].
    + destruct Hr as (w0 & Hq & ->). eapply run_trans.
      * eapply run_weaken; [|exact Hq]. trivial.
      * apply run_query. exact I.
    + eapply run_weaken; [|exact Hr]. trivial.
  - intros h. eapply runs_weaken; [|apply confirm_runs]. trivial.
Qed.

(** X7. When the lock has been acquired, every run of the processor ends
    with the deletion of the lock key, whether it returns or throws: the last
    effect of the run is [DEL key], and the key is not set afterwards. *)
Theorem processor_releases_lock (job : DripJob) w w0 :
  isAddress (j_address job) = true ->
  acquireLockWithBackoff (lockKey (sender cfg)) 15 w = Some (Ok true, w0) ->
  exists r w' evs,
    processor cfg job w = Some (r, w')
    /\ trace w' = trace w0 ++ evs ++ [EvRedis (RDel (lockKey (sender cfg)))]
    /\ kv w' !! lockKey (sender cfg) = None.
Proof.
  intros Ha Hl. set (lk := lockKey (sender cfg)).
  destruct (processor_returns cfg job w) as (r & w' & Hp).
  exists r, w'. rewrite (processor_locked cfg job w w0 Ha Hl) in Hp |- *. fold lk in Hp |- *.
  unfold tryFinally in Hp |- *.
  destruct (tryCatch (submit cfg job) (catchAll job) w0) as [[r1 w1]|] eqn:Eb; [|discriminate].
  rewrite lift_releaseLock in Hp |- *. injection Hp as <- <-.
  assert (Hrun : run (fun _ => True) w0 w1).
  { revert Eb. apply runs_tryCatch.
    - apply submit_runs.
    - intros e. eapply runs_weaken; [|apply catchAll_runs]. trivial. }
  destruct Hrun as (evs & Ht & _ & _). exists evs.
  split; [reflexivity|]. split.
  - destruct (releaseLock_trace lk w1) as [-> _]. rewrite Ht, <- app_assoc. reflexivity.
  - unfold releaseLock. cbn. unfold Redis.del.
    destruct (Redis.get _ _ _); cbn; apply lookup_delete_eq.
Qed.

End SignerLockFacts.

Section SignerLockRuns.
Import Retry Worker Scenario Cases.

(** Acquired at 0 for 15 s: refused at 10 s and at 15 s, granted again one
    millisecond later. *)
Lemma acquireLock_exclusive_until_expiry_witness :
  exists wa,
    acquireLock signer_key 15 (world0 (healthy "0x111") []) = (Ok true, wa)
    /\ fst (acquireLock signer_key 15 (advance 10000 wa)) = Ok false
    /\ fst (acquireLock signer_key 15 (advance 15000 wa)) = Ok false
    /\ fst (acquireLock signer_key 15 (advance 15001 wa)) = Ok true.
Proof.
  set (wa := snd (acquireLock signer_key 15 (world0 (healthy "0x111") []))).
  exists wa. split; [reflexivity|].
  pose proof (acquireLock_exclusive_until_expiry signer_key 15
                (world0 (healthy "0x111") []) wa eq_refl) as Hx.
  split; [|split].
  - apply (Hx (advance 10000 wa) 15 eq_refl). discriminate.
  - apply (Hx (advance 15000 wa) 15 eq_refl). discriminate.
  - apply (Hx (advance 15001 wa) 15 eq_refl). reflexivity.
Defined.

(** The lock is held by another worker for 15 s: four attempts, four timers
    of 150, 225, 337 and 505 ms, and the answer is no. *)
Lemma acquireLockWithBackoff_gives_up_witness :
  exists w',
    acquireLockWithBackoff signer_key 15 lock_held = Some (Ok false, w')
    /\ kv w' = kv lock_held
    /\ sleeps (trace w') = [150 # 1; 225 # 1; 337 # 1; 505 # 1]%Q.
Proof.
  destruct (acquireLockWithBackoff_gives_up signer_key 15 lock_held
              {| r_val := VStr "1"; r_exp := Some 15000 |})
    as (r & w' & Hr & Hg).
  - reflexivity.
  - intros n. split; [discriminate|reflexivity].
  - assert (Hc : acquireLockWithBackoff signer_key 15 lock_held = Some (r, w'))
      by exact Hr.
    vm_compute in Hc. injection Hc as <- <-.
    destruct Hg as (_ & Hkv & _); [reflexivity|].
    eexists. split; [exact Hr|]. split; [exact Hkv|]. reflexivity.
Defined.

(** With [Math.random()] at its largest, [1 - 2^-53] rounded to a double or
    [1 - 2^-52], the timers are 230, 305, 417 and 585 ms: the sum of the
    delay and the jitter rounds up to the next integer. *)
Lemma lock_backoff_longest :
  exists w',
    acquireLockWithBackoff signer_key 15 (with_random (fun _ => draw_max) lock_held)
      = Some (Ok false, w')
    /\ sleeps (trace w') = [230 # 1; 305 # 1; 417 # 1; 585 # 1]%Q.
Proof. eexists. split; [vm_compute; reflexivity|reflexivity]. Qed.

(** With the lock held by another worker the job is rejected and the table
    is as it was. *)
Lemma processor_lock_unavailable_witness :
  exists w0,
    processor cfg0 job1 lock_held
      = Some (Throw (newError "nonce lock not acquired (backoff exhausted)"), w0)
    /\ db w0 = queued1
    /\ sc_calls (chain w0) = 0%nat.
Proof.
  edestruct (processor_lock_unavailable cfg0 job1 lock_held) as (Hp & Hc & Hd & _).
  - reflexivity.
  - vm_compute. reflexivity.
  - eexists. split; [exact Hp|]. split; [exact Hd|]. rewrite Hc. reflexivity.
Defined.

(** On the happy path the key is gone when the processor returns. *)
Lemma processor_releases_lock_witness :
  exists r w',
    processor cfg0 job1 (world0 (healthy "0x111") queued1) = Some (r, w')
    /\ kv w' !! signer_key = None.
Proof.
  edestruct (processor_releases_lock cfg0 job1 (world0 (healthy "0x111") queued1))
    as (r & w' & evs & Hp & _ & Hk).
  - reflexivity.
  - vm_compute. reflexivity.
  - exists r, w'. split; [exact Hp|exact Hk].
Defined.

End SignerLockRuns.

(** ** Rows that a run leaves alone *)

Section RowFacts.
Import Db.

Lemma kept_unless_refl T t : kept_unless T t t.
Proof.
  unfold kept_unless. induction t as [|x t IH]; constructor; [|exact IH].
  repeat split; try reflexivity. right. reflexivity.
Qed.

Lemma kept_unless_trans (T U : Row -> Prop) t1 t2 t3 :
  kept_unless T t1 t2 -> kept_unless U t2 t3 ->
  (forall x, In x t1 -> U x -> T x) ->
  kept_unless T t1 t3.
Proof.
  unfold kept_unless. intros H12. revert t3.
  induction H12 as [|x y t1 t2 (Hi & Ha & Hp & Hc & Hxy) _ IH]; intros t3 H23 HU.
  - inversion H23; subst. constructor.
  - inversion H23 as [|y' z t2' t3' (Hi' & Ha' & Hp' & Hc' & Hyz) H23' E1 E2]; subst.
    constructor.
    + repeat split; try congruence.
      destruct Hxy as [Hx | ->]; [left; exact Hx|].
      destruct Hyz as [Hy | ->]; [left; apply HU; [left; reflexivity|exact Hy]|].
      right. reflexivity.
    + apply IH; [exact H23'|]. intros x0 Hx0. apply HU. right. exact Hx0.
Qed.

Lemma kept_unless_weaken (T U : Row -> Prop) t t' :
  (forall x, In x t -> T x -> U x) -> kept_unless T t t' -> kept_unless U t t'.
Proof.
  unfold kept_unless. intros HTU Hk.
  induction Hk as [|x y t t' (Hi & Ha & Hp & Hc & Hxy) _ IH]; constructor.
  - repeat split; try assumption.
    destruct Hxy as [Hx | ->]; [left; apply HTU; [left; reflexivity|exact Hx]|right; reflexivity].
  - apply IH. intros x0 Hx0. apply HTU. right. exact Hx0.
Qed.

Lemma kept_unless_ids T t t' : kept_unless T t t' -> map id t' = map id t.
Proof.
  unfold kept_unless. induction 1 as [|x y t t' (Hi & _) _ IH]; [reflexivity|].
  cbn. rewrite Hi, IH. reflexivity.
Qed.

Lemma kept_unless_In T t t' x : kept_unless T t t' -> In x t -> T x \/ In x t'.
Proof.
  unfold kept_unless. induction 1 as [|x0 y t t' (_ & _ & _ & _ & Hxy) _ IH]; cbn; [contradiction|].
  intros [->|Hx].
  - destruct Hxy as [Hx | ->]; [left; exact Hx|right; left; reflexivity].
  - destruct (IH Hx) as [Ht|Hin]; [left; exact Ht|right; right; exact Hin].
Qed.

Lemma update_where_kept (T : Row -> Prop) cond set t :
  (forall r, cond r = true ->
     T r /\ id (set r) = id r /\ address (set r) = address r
     /\ ip (set r) = ip r /\ created_at (set r) = created_at r) ->
  kept_unless T t (update_where cond set t).
Proof.
  intros Hset. unfold kept_unless, update_where.
  induction t as [|x t IH]; cbn; constructor; [|exact IH].
  destruct (cond x) eqn:Hc.
  - destruct (Hset x Hc) as (HT & Hi & Ha & Hp & Hcr).
    repeat split; try assumption. left. exact HT.
  - repeat split; try reflexivity. right. reflexivity.
Qed.

(** A statement keyed by [i] rewrites rows with id [i] only. *)
Lemma exec_kept s i t :
  OnId i (EvSql s) -> kept_unless (fun x => id x = i) t (exec s t).
Proof.
  destruct s; cbn [OnId exec]; intros Hs; try apply kept_unless_refl; subst;
    apply update_where_kept; intros r Hc; cbn;
    try (apply andb_true_iff in Hc as [Hc _]); apply Z.eqb_eq in Hc;
    repeat split; exact Hc.
Qed.

Lemma replay_kept i evs t :
  Forall (OnId i) evs -> kept_unless (fun x => id x = i) t (replay evs t).
Proof.
  intros Hf. revert t. induction Hf as [|e evs He _ IH]; intros t.
  - apply kept_unless_refl.
  - rewrite replay_cons. eapply kept_unless_trans; [|apply IH|].
    + destruct e as [|s| |]; try apply kept_unless_refl. apply exec_kept. exact He.
    + intros x _ Hx. exact Hx.
Qed.

Lemma run_kept {Chain} i (w w' : World Chain) :
  run (OnId i) w w' -> kept_unless (fun x => id x = i) (db w) (db w').
Proof. intros (evs & _ & Hf & ->). apply replay_kept. exact Hf. Qed.

(** Every fetched row is a row of the table in status broadcast. *)
Lemma select_broadcast_status n t f :
  In f (select_broadcast n t) ->
  exists r, In r t /\ f = fetched r /\ status r = Broadcast.
Proof.
  unfold select_broadcast. rewrite in_map_iff. intros (r & <- & Hr).
  exists r. apply In_firstn, In_order_by_created, filter_In in Hr as [Hr Hs].
  split; [exact Hr|]. split; [reflexivity|].
  destruct (status r); try discriminate Hs. reflexivity.
Qed.

End RowFacts.

(** ** What a run of the processor can do *)

Section ProcessorEffects.
Import Retry Worker.

Context {Chain : Type} `{Provider Chain}.
Variable cfg : Config.
Implicit Types (w : World Chain) (P : Event -> Prop).

Lemma runs_bind_res {A B} P (x : Res A) (k : A -> M Chain B) :
  (forall a, x = Ok a -> runs P (k a)) ->
  runs P (bind (fun w => Some (x, w)) k).
Proof.
  intros Hk w r w'. unfold bind. destruct x as [a|e].
  - apply Hk. reflexivity.
  - intros [= <- <-]. apply run_refl.
Qed.

Lemma getFeeSuggestion_runs P :
  P (EvRpc CGetFeeData) -> (forall ms, P (EvSleep ms)) ->
  runs P (getFeeSuggestion cfg).
Proof.
  intros Hc Hs. unfold getFeeSuggestion.
  apply runs_bind; [apply runs_retry_rpc; assumption|intros fee].
  do 3 (apply runs_bind; [apply runs_res|intros ?]). apply runs_ret.
Qed.

Lemma ensureBalanceCovers_runs P a f :
  P (EvRpc (CGetBalance (sender cfg))) -> (forall ms, P (EvSleep ms)) ->
  runs P (ensureBalanceCovers cfg a f).
Proof.
  intros Hc Hs. unfold ensureBalanceCovers. apply runs_bind.
  - apply runs_retry_rpc; assumption.
  - intros bal. destruct (bal <? _); [apply runs_throw|apply runs_ret].
Qed.

(** The events of the processor: Redis commands and timers; provider calls,
    of which the submissions are transfers of the drip amount to the job's
    address; and statements keyed by the job's request id. *)
Lemma processor_runs_of P job :
  (forall c, P (EvRedis c)) ->
  (forall ms, P (EvSleep ms)) ->
  (forall c, is_send (EvRpc c) = false -> P (EvRpc c)) ->
  (forall a g f, parseEther (DRIP_AMOUNT cfg) = Ok a ->
     P (EvRpc (CSendTransaction
                 {| tx_to := j_address job; tx_value := a; tx_gasLimit := g;
                    tx_maxFeePerGas := f; tx_maxPriorityFeePerGas := None |}))) ->
  (forall m, P (EvSql (SetFailed m (requestId job)))) ->
  (forall h, P (EvSql (SetBroadcast h (requestId job)))) ->
  (forall h, P (EvSql (SetSentIfHash (requestId job) h))) ->
  runs P (processor cfg job).
Proof.
  intros Hredis Hsleep Hcall Hsend Hfailed Hbroadcast Hsent.
  unfold processor. destruct (negb (isAddress (j_address job))).
  { apply runs_bind; [|intros; apply runs_ret].
    apply runs_lift. intros w. apply run_query. apply Hfailed. }
  apply runs_bind; [apply runs_acquireLockLoop; assumption|].
  intros got. destruct (negb got); [apply runs_throw|].
  apply runs_tryFinally;
    [|apply runs_lift; intros w; apply run_releaseLock; exact Hredis].
  apply runs_tryCatch.
  2:{ intros e w r w'. rewrite catchAll_eq. intros [= <- <-].
      apply run_query. apply Hfailed. }
  unfold submit. apply runs_bind.
  - unfold broadcast. apply runs_bind_res. intros a Ha.
    apply runs_bind.
    { apply runs_tryCatch; [|intros; apply runs_ret].
      apply runs_retry_rpc; [apply Hcall; reflexivity|exact Hsleep]. }
    intros g. apply runs_bind.
    { apply getFeeSuggestion_runs; [apply Hcall; reflexivity|exact Hsleep]. }
    intros fees. apply runs_bind.
    { apply ensureBalanceCovers_runs; [apply Hcall; reflexivity|exact Hsleep]. }
    intros _. apply runs_bind.
    { apply runs_retry_rpc; [apply Hsend; exact Ha|exact Hsleep]. }
    intros h. apply runs_bind; [|intros; apply runs_ret].
    apply runs_lift. intros w. apply run_query. apply Hbroadcast.
  - intros h. unfold confirm. apply runs_tryCatch.
    + apply runs_bind.
      * apply runs_retry_rpc; [apply Hcall; reflexivity|exact Hsleep].
      * intros _. apply runs_bind; [|intros; apply runs_ret].
        apply runs_lift. intros w. apply run_query. apply Hsent.
    + intros e. destruct (isWaitTimeout e); [apply runs_ret|apply runs_throw].
Qed.

(** X8. The processor of a job rewrites no row but those with the job's
    request id: every other row of the table is the same after the run, no
    row is added, removed or moved, and no row changes its id, address, ip or
    creation time. *)
Theorem processor_own_row_only (job : DripJob) w :
  exists r w',
    processor cfg job w = Some (r, w')
    /\ kept_unless (fun x => id x = requestId job) (db w) (db w').
Proof.
  destruct (processor_returns cfg job w) as (r & w' & Hp).
  exists r, w'. split; [exact Hp|].
  apply run_kept. revert Hp. apply processor_runs_of;
    intros; try exact I; reflexivity.
Qed.

(** X9. Every transaction the processor submits is a transfer of
    [parseEther(DRIP_AMOUNT)] to the address of the job, with the priority fee
    left undefined; when [DRIP_AMOUNT] does not parse, nothing is
    submitted. *)
Theorem processor_sends_only_drip (job : DripJob) w :
  exists r w' evs,
    processor cfg job w = Some (r, w')
    /\ trace w' = trace w ++ evs
    /\ Forall (DripTo (j_address job) (parseEther (DRIP_AMOUNT cfg))) evs.
Proof.
  destruct (processor_returns cfg job w) as (r & w' & Hp).
  assert (Hrun : run (DripTo (j_address job) (parseEther (DRIP_AMOUNT cfg))) w w').
  { revert Hp. apply processor_runs_of; intros; try exact I.
    - destruct c; try exact I. discriminate.
    - cbn. auto. }
  destruct Hrun as (evs & Ht & Hf & _). exists r, w', evs. auto.
Qed.

End ProcessorEffects.

(** ** The submission *)

Section SubmissionFacts.
Import Retry Worker.

Context {Chain : Type} `{Provider Chain}.
Variable cfg : Config.
Implicit Types (w : World Chain) (P : Event -> Prop).

(** When [retryRpc] returns a value, it is the value of the last call. *)
Lemma retryLoop_ok_last {T} P (fn : Op Chain T) mr bd fuel :
  (forall w, run P w (snd (fn w))) ->
  (forall ms, P (EvSleep ms)) ->
  forall a w v w',
    retryLoop fn mr bd fuel a w = Some (Ok v, w') ->
    exists w1, run P w w1 /\ fn w1 = (Ok v, w').
Proof.
  intros Hfn Hs. induction fuel as [|fuel IH]; intros a w v w'; [discriminate|].
  rewrite retryLoop_step. pose proof (Hfn w) as Hw.
  destruct (fn w) as [[v0|err] w1] eqn:Ef; cbn in Hw.
  - intros [= <- <-]. exists w. split; [apply run_refl|exact Ef].
  - destruct (failFast err || (mr <=? a)%nat || negb (isRetryableError err)).
    + discriminate.
    + intros Hr. apply IH in Hr as (w2 & Hrun & Hlast).
      exists w2. split; [|exact Hlast].
      eapply run_trans; [exact Hw|].
      eapply run_trans; [apply run_backoff; exact Hs|exact Hrun].
Qed.

Lemma run_events P w w' evs :
  run P w w' -> trace w' = trace w ++ evs -> Forall P evs.
Proof.
  intros (evs' & Ht & Hf & _) Ht'. rewrite Ht in Ht'.
  apply app_inv_head in Ht'. subst. exact Hf.
Qed.

Lemma run_prefix P w w' : run P w w' -> exists evs, trace w' = trace w ++ evs.
Proof. intros (evs & Ht & _). eauto. Qed.

(** X10. The gas limit of a submission is the estimate when the provider
    gives one, and [FALLBACK_GAS_LIMIT] when the estimate, as [retryRpc] runs
    it, ends in an error of any kind. *)
Theorem submission_gas_limit (job : DripJob) (a : Z) w (res : Res Z) w1 r w' :
  parseEther (DRIP_AMOUNT cfg) = Ok a ->
  retryRpc_default
    (rpc (CEstimateGas (j_address job) a) (estimateGas (j_address job) a)) w
    = Some (res, w1) ->
  broadcast cfg job w = Some (r, w') ->
  exists evs,
    trace w' = trace w1 ++ evs
    /\ Forall (GasIs (match res with
                      | Ok g => g
                      | Throw _ => FALLBACK_GAS_LIMIT cfg
                      end)) evs.
Proof.
  intros Ha He. unfold broadcast. unfold bind at 1. rewrite Ha.
  unfold bind at 1. unfold tryCatch. rewrite He.
  set (g := match res with Ok g => g | Throw _ => FALLBACK_GAS_LIMIT cfg end).
  intros Hrest.
  assert (Hrun : run (GasIs g) w1 w').
  { destruct res as [g0|e]; cbn [ret] in Hrest; revert Hrest;
      (apply runs_bind;
       [apply getFeeSuggestion_runs; [exact I|intros; exact I]|];
       intros fees; apply runs_bind;
       [apply ensureBalanceCovers_runs; [exact I|intros; exact I]|];
       intros _; apply runs_bind;
       [apply runs_retry_rpc; [reflexivity|intros; exact I]|];
       intros h; apply runs_bind; [|intros; apply runs_ret];
       apply runs_lift; intros w2; apply run_query; exact I). }
  destruct Hrun as (evs & Ht & Hf & _). exists evs. auto.
Qed.

(** X11. No transaction is submitted unless the balance of the wallet, as
    last read, covers it: before the first submission [getBalance(sender)]
    has returned a balance that is at least the value of the request plus its
    maximum fee per gas times its gas limit. *)
Theorem broadcast_balance_guard (job : DripJob) w r w' evs (req : TxRequest) :
  broadcast cfg job w = Some (r, w') ->
  trace w' = trace w ++ evs ->
  In (EvRpc (CSendTransaction req)) evs ->
  exists w1 bal w2,
    run NoSend w w1
    /\ rpc (CGetBalance (sender cfg)) (getBalance (sender cfg)) w1 = (Ok bal, w2)
    /\ tx_value req + tx_maxFeePerGas req * tx_gasLimit req <= bal
    /\ exists post, trace w' = trace w2 ++ post.
Proof.
  intros Hb Ht Hin.
  assert (Hno : run NoSend w w' -> False).
  { intros Hrun. pose proof (run_events _ _ _ _ Hrun Ht) as Hf.
    rewrite Forall_forall in Hf. apply list_elem_of_In in Hin.
    specialize (Hf _ Hin). discriminate Hf. }
  revert Hb. unfold broadcast. unfold bind at 1.
  destruct (parseEther (DRIP_AMOUNT cfg)) as [a|e0];
    [|intros [= <- <-]; exfalso; apply Hno, run_refl].
  unfold bind at 1.
  destruct (tryCatch _ _ w) as [[[g|e1] wg]|] eqn:Eg; [| |discriminate].
  2:{ intros [= <- <-]. exfalso. apply Hno. revert Eg.
      apply runs_tryCatch; [|intros; apply runs_ret].
      apply runs_retry_rpc; [reflexivity|intros; reflexivity]. }
  assert (Hg : run NoSend w wg).
  { revert Eg. apply runs_tryCatch; [|intros; apply runs_ret].
    apply runs_retry_rpc; [reflexivity|intros; reflexivity]. }
  unfold bind at 1.
  destruct (getFeeSuggestion cfg wg) as [[[fees|e2] wf]|] eqn:Ef; [| |discriminate].
  2:{ intros [= <- <-]. exfalso. apply Hno. eapply run_trans; [exact Hg|].
      revert Ef. apply getFeeSuggestion_runs; [reflexivity|intros; reflexivity]. }
  assert (Hf : run NoSend wg wf).
  { revert Ef. apply getFeeSuggestion_runs; [reflexivity|intros; reflexivity]. }
  unfold bind at 1. unfold ensureBalanceCovers at 1. unfold bind at 1.
  destruct (retryRpc_default _ wf) as [[[bal|e3] wb]|] eqn:Eb; [| |discriminate].
  2:{ intros [= <- <-]. exfalso. apply Hno.
      eapply run_trans; [exact Hg|]. eapply run_trans; [exact Hf|].
      revert Eb. apply runs_retry_rpc; [reflexivity|intros; reflexivity]. }
  assert (Hlast : exists w1,
             run NoSend wf w1
             /\ rpc (CGetBalance (sender cfg)) (getBalance (sender cfg)) w1 = (Ok bal, wb)).
  { eapply (retryLoop_ok_last NoSend); [| |exact Eb].
    - intros w0. apply run_rpc. reflexivity.
    - intros ms. reflexivity. }
  destruct Hlast as (w1 & Hw1 & Hlast).
  assert (Hb1 : run NoSend wf wb).
  { revert Eb. apply runs_retry_rpc; [reflexivity|intros; reflexivity]. }
  destruct (bal <? a + maxFeePerGas fees * g) eqn:Hlt.
  { cbn [throw]. intros [= <- <-]. exfalso. apply Hno.
    eapply run_trans; [exact Hg|]. eapply run_trans; [exact Hf|exact Hb1]. }
  cbn [ret]. apply Z.ltb_ge in Hlt. intros Hrest.
  set (req0 := {| tx_to := j_address job; tx_value := a; tx_gasLimit := g;
                  tx_maxFeePerGas := maxFeePerGas fees;
                  tx_maxPriorityFeePerGas := None |}) in *.
  assert (Hrun : run (fun e => is_send e = true -> e = EvRpc (CSendTransaction req0)) wb w').
  { revert Hrest. apply runs_bind.
    - apply runs_retry_rpc; [intros _; reflexivity|intros; discriminate].
    - intros h. apply runs_bind; [|intros; apply runs_ret].
      apply runs_lift. intros w0. apply run_query. discriminate. }
  exists w1, bal, wb. split; [|split; [exact Hlast|split]].
  - eapply run_trans; [exact Hg|]. eapply run_trans; [exact Hf|exact Hw1].
  - assert (Hall : run (fun e => is_send e = true -> e = EvRpc (CSendTransaction req0)) w w').
    { eapply run_trans; [|exact Hrun].
      eapply run_weaken;
        [|eapply run_trans; [exact Hg|eapply run_trans; [exact Hf|exact Hb1]]].
      intros e He He'. unfold NoSend in He. congruence. }
    pose proof (run_events _ _ _ _ Hall Ht) as Hev.
    rewrite Forall_forall in Hev. apply list_elem_of_In in Hin.
    specialize (Hev _ Hin eq_refl). injection Hev as ->. cbn. exact Hlt.
  - eapply run_prefix. exact Hrun.
Qed.

End SubmissionFacts.

Section SubmissionRuns.
Import Retry Worker Scenario Cases.

(** Without an estimate the request goes out with the fallback of 21000. *)
Lemma submission_gas_limit_witness :
  exists (w1 : World Script) r w' evs,
    broadcast cfg0 job1 no_estimate = Some (r, w')
    /\ trace w' = trace w1 ++ evs
    /\ Forall (GasIs 21000) evs
    /\ In (EvRpc (CSendTransaction drip1)) evs.
Proof.
  edestruct (submission_gas_limit cfg0 job1 20000000000000000 no_estimate)
    as (evs & Ht & Hf).
  - reflexivity.
  - vm_compute. reflexivity.
  - vm_compute. reflexivity.
  - eexists _, _, _, evs. split; [vm_compute; reflexivity|].
    split; [exact Ht|]. split; [exact Hf|].
    vm_compute in Ht. injection Ht as <-. vm_compute. auto 10.
Defined.

(** On the healthy endpoint the balance read is 1 ETH, which covers the
    0.02 ETH of the drip and 21000 gas at 1.875 gwei. *)
Lemma broadcast_balance_guard_witness :
  exists w1 bal w2,
    rpc (CGetBalance (sender cfg0)) (getBalance (sender cfg0)) w1 = (Ok bal, w2)
    /\ 20000000000000000 + 1875000000 * 21000 <= bal.
Proof.
  pose proof (fun r w' evs =>
                broadcast_balance_guard cfg0 job1 (world0 (healthy "0x111") queued1)
                  r w' evs drip1) as Hg.
  edestruct Hg as (w1 & bal & w2 & _ & Hb & Hle & _).
  - vm_compute. reflexivity.
  - reflexivity.
  - vm_compute. auto 10.
  - exists w1, bal, w2. split; [exact Hb|exact Hle].
Defined.

End SubmissionRuns.

(** ** The statements of a run of the processor *)

Section OutcomeFacts.
Import Retry Worker.

Context {Chain : Type} `{Provider Chain}.
Variable cfg : Config.
Implicit Types (w : World Chain) (P : Event -> Prop).

Lemma stmts_app evs1 evs2 : stmts (evs1 ++ evs2) = stmts evs1 ++ stmts evs2.
Proof. unfold stmts. apply omap_app. Qed.

Lemma stmts_NoSql evs : Forall NoSql evs -> stmts evs = [].
Proof.
  induction 1 as [|e evs He _ IH]; [reflexivity|].
  destruct e; try discriminate He; exact IH.
Qed.

Lemma wrote_trans l1 l2 w1 w2 w3 :
  wrote l1 w1 w2 -> wrote l2 w2 w3 -> wrote (l1 ++ l2) w1 w3.
Proof.
  intros (e1 & H1 & <-) (e2 & H2 & <-). exists (e1 ++ e2). split.
  - rewrite H2, H1, app_assoc. reflexivity.
  - apply stmts_app.
Qed.

Lemma wrote_run P w w' : (forall e, P e -> NoSql e) -> run P w w' -> wrote [] w w'.
Proof.
  intros HP (evs & Ht & Hf & _). exists evs. split; [exact Ht|].
  apply stmts_NoSql. eapply Forall_impl; [exact Hf|exact HP].
Qed.

Lemma wrote_query s w : wrote [s] w (snd (query s w)).
Proof. exists [EvSql s]. split; reflexivity. Qed.

Lemma wrote_releaseLock key w : wrote [] w (snd (releaseLock key w)).
Proof.
  exists [EvRedis (RDel key)]. split; [|reflexivity].
  apply releaseLock_trace.
Qed.

Lemma wrote_retry_rpc {A} c (f : Chain -> Res A * Chain) w r w' :
  retryRpc_default (rpc c f) w = Some (r, w') -> wrote [] w w'.
Proof.
  intros Hr. eapply (wrote_run NoSql); [auto|].
  eapply (runs_retry_rpc NoSql); [| |exact Hr]; [reflexivity|intros; reflexivity].
Qed.

(** Every row with id [i] that carries the hash [h] is set to sent by the
    guarded statement, and keeps its hash. *)
Lemma exec_SetSentIfHash_row i h t x :
  (forall y, In y t -> id y = i -> tx_hash y = Some h) ->
  In x (Db.exec (SetSentIfHash i h) t) -> id x = i ->
  status x = Sent /\ tx_hash x = Some h.
Proof.
  intros Hall. cbn [Db.exec]. unfold Db.update_where. rewrite in_map_iff.
  intros (y & Hy & Hin) Hid.
  destruct ((id y =? i) && Db.hash_is h y) eqn:Hc; subst x.
  - cbn. split; [reflexivity|]. apply Hall; [exact Hin|].
    apply andb_true_iff in Hc as [Hc _]. apply Z.eqb_eq in Hc. exact Hc.
  - pose proof (Hall y Hin Hid) as Hh. unfold Db.hash_is in Hc.
    rewrite Hh, String.eqb_refl, andb_true_r in Hc.
    apply Z.eqb_neq in Hc. contradiction.
Qed.

(** X12. When the submission has been recorded with hash [h] and the
    confirmation wait returns, the processor marks the row sent with the
    statement guarded by [h], releases the lock and returns: every row with
    the request id is in status sent with hash [h], and the statements of the
    run are the checkpoint and the guarded update, in this order. *)
Theorem processor_confirmed (job : DripJob) (w w0 w1 w2 : World Chain) (h : string) :
  isAddress (j_address job) = true ->
  acquireLockWithBackoff (lockKey (sender cfg)) 15 w = Some (Ok true, w0) ->
  broadcast cfg job w0 = Some (Ok h, w1) ->
  retryRpc_default
    (rpc (CWaitForTransaction h 1 (TX_WAIT_TIMEOUT_MS cfg))
         (waitForTransaction h 1 (TX_WAIT_TIMEOUT_MS cfg))) w1 = Some (Ok tt, w2) ->
  exists w',
    processor cfg job w = Some (Ok tt, w')
    /\ db w' = Db.exec (SetSentIfHash (requestId job) h) (db w1)
    /\ (forall x, In x (db w') -> id x = requestId job ->
          status x = Sent /\ tx_hash x = Some h)
    /\ wrote [SetBroadcast h (requestId job); SetSentIfHash (requestId job) h] w w'.
Proof.
  intros Ha Hl Hb Hw.
  set (lk := lockKey (sender cfg)). set (i := requestId job).
  set (w3 := snd (query (SetSentIfHash i h) w2)).
  exists (snd (releaseLock lk w3)).
  assert (Hrun : run NoSql w1 w2).
  { eapply (runs_retry_rpc NoSql); [| |exact Hw]; [reflexivity|intros; reflexivity]. }
  pose proof (run_no_sql_db NoSql w1 w2 (fun _ He => He) Hrun) as Hdb12.
  destruct (releaseLock_trace lk w3) as [Htr Hdbr].
  pose proof (broadcast_runs cfg job w0 (Ok h) w1 Hb) as (w0' & Hq & Hw1).
  pose proof (acquireLockWithBackoff_runs _ _ w _ w0 Hl) as Hlock.
  assert (Hdb : db (snd (releaseLock lk w3)) = Db.exec (SetSentIfHash i h) (db w1)).
  { rewrite Hdbr. unfold w3. cbn. rewrite Hdb12. reflexivity. }
  split; [|split; [|split]].
  - rewrite (processor_locked cfg job w w0 Ha Hl).
    unfold submit. rewrite (try_bind_ok _ _ _ _ _ _ _ Hb).
    assert (Hc : confirm cfg i h w1 = Some (Ok tt, w3)).
    { unfold confirm, tryCatch, bind. rewrite Hw. reflexivity. }
    unfold tryFinally, tryCatch. fold i. rewrite Hc, lift_releaseLock. reflexivity.
  - exact Hdb.
  - intros x Hx Hid. rewrite Hdb in Hx.
    eapply exec_SetSentIfHash_row; [|exact Hx|exact Hid].
    intros y Hy Hidy. rewrite Hw1 in Hy. cbn in Hy.
    eapply exec_SetBroadcast_row; eauto.
  - change [SetBroadcast h i; SetSentIfHash i h]
      with ((([] ++ [SetBroadcast h i]) ++ []) ++ [SetSentIfHash i h] ++ []).
    eapply wrote_trans; [|eapply wrote_trans;
                            [apply wrote_query|apply wrote_releaseLock]].
    eapply wrote_trans; [|eapply wrote_run; [|exact Hrun]; auto].
    eapply wrote_trans; [|rewrite Hw1; apply wrote_query].
    eapply (wrote_run Quiet); [apply Quiet_NoSql|].
    eapply run_trans; [exact Hlock|exact Hq].
Qed.

Lemma confirm_wrote i h w r w' :
  confirm cfg i h w = Some (r, w') ->
  match r with
  | Ok _ => wrote [] w w' \/ wrote [SetSentIfHash i h] w w'
  | Throw _ => wrote [] w w'
  end.
Proof.
  unfold confirm, tryCatch. unfold bind at 1.
  destruct (retryRpc_default _ w) as [[[[]|e] w1]|] eqn:Hw; [| |discriminate].
  - cbn. intros [= <- <-]. right.
    change [SetSentIfHash i h] with ([] ++ [SetSentIfHash i h]).
    eapply wrote_trans; [eapply wrote_retry_rpc; exact Hw|apply wrote_query].
  - pose proof (wrote_retry_rpc _ _ _ _ _ Hw) as Hq.
    destruct (isWaitTimeout e); intros [= <- <-]; [left|]; exact Hq.
Qed.

(** X13. A run of the processor sends at most two statements, all keyed by
    the request id of its job: none (the lock was not acquired); one
    [SetFailed] (the address is invalid, or a step before the checkpoint
    failed); the checkpoint [SetBroadcast] alone (the wait timed out); the
    checkpoint and then the guarded [SetSentIfHash] with the same hash; or
    the checkpoint and then [SetFailed] (the wait ended in another error). *)
Theorem processor_statements (job : DripJob) w :
  exists r w',
    processor cfg job w = Some (r, w')
    /\ let i := requestId job in
       wrote [] w w'
       \/ (exists m, wrote [SetFailed m i] w w')
       \/ exists h,
            wrote [SetBroadcast h i] w w'
            \/ wrote [SetBroadcast h i; SetSentIfHash i h] w w'
            \/ exists m, wrote [SetBroadcast h i; SetFailed m i] w w'.
Proof.
  destruct (processor_returns cfg job w) as (r & w' & Hp).
  exists r, w'. split; [exact Hp|]. intros i. revert Hp.
  unfold processor. destruct (isAddress (j_address job)); cbn [negb].
  2:{ unfold bind, lift, ret. cbn. intros [= <- <-].
      right. left. eexists. apply wrote_query. }
  unfold bind at 1.
  destruct (acquireLockWithBackoff _ _ w) as [[[got|e] w0]|] eqn:Hl; [| |discriminate].
  2:{ intros [= <- <-]. left. eapply (wrote_run Quiet); [apply Quiet_NoSql|].
      eapply acquireLockWithBackoff_runs; exact Hl. }
  assert (Hlock : wrote [] w w0).
  { eapply (wrote_run Quiet); [apply Quiet_NoSql|].
    eapply acquireLockWithBackoff_runs; exact Hl. }
  destruct got; cbn [negb]; [|intros [= <- <-]; left; exact Hlock].
  set (lk := lockKey (sender cfg)). unfold submit.
  destruct (broadcast cfg job w0) as [[[h|e] w1]|] eqn:Hb.
  - rewrite (try_bind_ok _ _ _ _ _ _ _ Hb).
    pose proof (broadcast_runs cfg job w0 (Ok h) w1 Hb) as (w0' & Hq & Hw1).
    assert (Hcp : wrote [SetBroadcast h i] w w1).
    { change [SetBroadcast h i] with (([] ++ []) ++ [SetBroadcast h i]).
      eapply wrote_trans; [|rewrite Hw1; apply wrote_query].
      eapply wrote_trans; [exact Hlock|].
      eapply (wrote_run Quiet); [apply Quiet_NoSql|exact Hq]. }
    unfold tryFinally, tryCatch.
    destruct (confirm cfg (requestId job) h w1) as [[[[]|e] w2]|] eqn:Hc;
      [| |discriminate].
    + rewrite lift_releaseLock. intros [= <- <-].
      right. right. exists h.
      destruct (confirm_wrote _ _ _ _ _ Hc) as [Hn|Hs].
      * left. rewrite <- (app_nil_r [SetBroadcast h i]).
        eapply wrote_trans; [exact Hcp|].
        rewrite <- (app_nil_r []).
        eapply wrote_trans; [exact Hn|apply wrote_releaseLock].
      * right. left.
        change [SetBroadcast h i; SetSentIfHash i h]
          with ([SetBroadcast h i] ++ [SetSentIfHash i h] ++ []).
        eapply wrote_trans; [exact Hcp|].
        eapply wrote_trans; [exact Hs|apply wrote_releaseLock].
    + rewrite catchAll_eq, lift_releaseLock. intros Hr.
      assert (Hw' : w' = snd (releaseLock lk
                (snd (query (SetFailed (formatReason e) (requestId job)) w2)))).
      { destruct (isRetryableError e && negb (isPermanentError e));
          injection Hr as _ <-; reflexivity. }
      right. right. exists h. right. right. exists (formatReason e).
      change [SetBroadcast h i; SetFailed (formatReason e) i]
        with ([SetBroadcast h i] ++ [] ++ [SetFailed (formatReason e) i] ++ []).
      eapply wrote_trans; [exact Hcp|].
      eapply wrote_trans; [exact (confirm_wrote _ _ _ _ _ Hc)|].
      rewrite Hw'. eapply wrote_trans; [apply wrote_query|apply wrote_releaseLock].
  - rewrite (try_bind_throw _ _ _ _ _ _ _ Hb).
    pose proof (broadcast_runs cfg job w0 (Throw e) w1 Hb) as Hq.
    unfold tryFinally. rewrite catchAll_eq, lift_releaseLock. intros Hr.
    assert (Hw' : w' = snd (releaseLock lk
              (snd (query (SetFailed (formatReason e) (requestId job)) w1)))).
    { destruct (isRetryableError e && negb (isPermanentError e));
        injection Hr as _ <-; reflexivity. }
    right. left. exists (formatReason e).
    change [SetFailed (formatReason e) i]
      with (([] ++ []) ++ [SetFailed (formatReason e) i] ++ []).
    eapply wrote_trans;
      [eapply wrote_trans;
         [exact Hlock|eapply (wrote_run Quiet); [apply Quiet_NoSql|exact Hq]]|].
    rewrite Hw'. eapply wrote_trans; [apply wrote_query|apply wrote_releaseLock].
  - unfold tryFinally, tryCatch, bind. rewrite Hb. discriminate.
Qed.

End OutcomeFacts.

(** ** The sweep *)

Section SweepFacts.
Import Retry Reconciler.

Context {Chain : Type} `{Provider Chain}.
Variable cfg : Config.
Implicit Types (w : World Chain) (P : Event -> Prop).

(** *** Errors of the provider do not escape *)

Lemma reconcileRow_ok f w : exists w', reconcileRow f w = Some (Ok tt, w').
Proof.
  unfold reconcileRow. destruct (falsy (f_tx_hash f)); [eexists; reflexivity|].
  unfold tryCatch, bind at 1.
  destruct (returns_retryRpc
              (rpc (CGetTransactionReceipt (default "" (f_tx_hash f)))
                   (getTransactionReceipt (default "" (f_tx_hash f))))
              3 (500 # 1) w) as (r & w1 & Hr).
  unfold retryRpc_default. rewrite Hr.
  destruct r as [[rc|]|e]; try (eexists; reflexivity).
  destruct (num_is (rcpt_status rc) 1); [eexists; reflexivity|].
  destruct (num_is (rcpt_status rc) 0); eexists; reflexivity.
Qed.

Lemma forEach_ok rows : forall w, exists w', forEach rows reconcileRow w = Some (Ok tt, w').
Proof.
  induction rows as [|f rows IH]; intros w; cbn [forEach]; [eexists; reflexivity|].
  unfold bind. destruct (reconcileRow_ok f w) as (w1 & ->). apply IH.
Qed.

Lemma reconcileLoop_ok n : forall w, exists w', reconcileLoop cfg n w = Some (Ok tt, w').
Proof.
  induction n as [|n IH]; intros w; cbn [reconcileLoop]; [eexists; reflexivity|].
  unfold bind at 1, lift. cbn [query].
  destruct (length _ =? 0)%nat; [eexists; reflexivity|].
  unfold bind. destruct (forEach_ok (Db.rows (SelectBroadcast (BATCH cfg)) (db w))
                           (set_db (Db.exec (SelectBroadcast (BATCH cfg)) (db w))
                              (log (EvSql (SelectBroadcast (BATCH cfg))) w)))
    as (w1 & ->).
  destruct (length _ <? BATCH cfg)%nat; [eexists; reflexivity|apply IH].
Qed.

(** X14. Neither [reconcileBroadcastsOnce] nor
    [reconcileBroadcastsWithLock] throws, whatever the provider does: every
    error of a receipt lookup is caught, and both return. *)
Theorem reconciler_never_throws w :
  (exists w', reconcileBroadcastsOnce cfg w = Some (Ok tt, w'))
  /\ (exists w', reconcileBroadcastsWithLock cfg w = Some (Ok tt, w')).
Proof.
  split; [apply reconcileLoop_ok|].
  unfold reconcileBroadcastsWithLock, bind at 1, lift.
  unfold tryAcquireLock, randHex.
  destruct (Redis.set_nx_px _ _ _ _ _) as [ok kv'].
  destruct (falsy _).
  - unfold bind, lift, countSkip.
    destruct (Redis.incrby _ _ _ _) as [[n kv'']|]; eexists; reflexivity.
  - unfold tryFinally, reconcileBroadcastsOnce.
    match goal with
    | |- context [reconcileLoop cfg ?n ?w0] =>
        destruct (reconcileLoop_ok n w0) as (w1 & ->)
    end.
    unfold lift, releaseLock.
    destruct (Redis.eval_unlock _ _ _ _) as [n kv'']. eexists; reflexivity.
Qed.

(** *** The work of a sweep is bounded *)

Lemma within_refl w : within 0 0 w w.
Proof. exists []. split; [symmetry; apply app_nil_r|]. split; constructor. Qed.

Lemma within_trans c1 s1 c2 s2 w1 w2 w3 :
  within c1 s1 w1 w2 -> within c2 s2 w2 w3 -> within (c1 + c2) (s1 + s2) w1 w3.
Proof.
  intros (e1 & H1 & Hc1 & Hs1) (e2 & H2 & Hc2 & Hs2). exists (e1 ++ e2).
  split; [rewrite H2, H1, app_assoc; reflexivity|].
  unfold calls, stmts in *. rewrite !omap_app, !length_app. lia.
Qed.

Lemma within_weaken c s c' s' w w' :
  (c <= c')%nat -> (s <= s')%nat -> within c s w w' -> within c' s' w w'.
Proof. intros Hc Hs (evs & Ht & Hc' & Hs'). exists evs. repeat split; [exact Ht|lia|lia]. Qed.

Lemma within_query s w : within 0 1 w (snd (query s w)).
Proof. exists [EvSql s]. split; [reflexivity|]. split; cbn; lia. Qed.

Lemma within_lookup {A} c (f : Chain -> Res A * Chain) w r w' :
  retryRpc_default (rpc c f) w = Some (r, w') -> within 4 0 w w'.
Proof.
  intros Hr. unfold retryRpc_default, retryRpc in Hr.
  apply retryLoop_rpc_effects in Hr as (evs & Ht & Hc & Hl & _ & Hs & _).
  exists evs. split; [exact Ht|]. rewrite Hc, Hs, repeat_length. cbn. lia.
Qed.

Lemma reconcileRow_within f w r w' :
  reconcileRow f w = Some (r, w') -> within 4 1 w w'.
Proof.
  unfold reconcileRow. destruct (falsy (f_tx_hash f)).
  { intros [= <- <-]. eapply within_weaken; [| |apply within_query]; lia. }
  unfold tryCatch, bind at 1.
  destruct (retryRpc_default _ w) as [[res w1]|] eqn:Hl; [|discriminate].
  pose proof (within_lookup _ _ _ _ _ Hl) as Hw.
  assert (Hq : forall s, within 4 1 w (snd (query s w1))).
  { intros s. change 4%nat with (4 + 0)%nat. change 1%nat with (0 + 1)%nat.
    eapply within_trans; [exact Hw|apply within_query]. }
  assert (H0 : within 4 1 w w1) by (eapply within_weaken; [| |exact Hw]; lia).
  destruct res as [[rc|]|e]; try (intros [= <- <-]; exact H0).
  destruct (num_is (rcpt_status rc) 1); [intros [= <- <-]; apply Hq|].
  destruct (num_is (rcpt_status rc) 0); intros [= <- <-]; [apply Hq|exact H0].
Qed.

Lemma forEach_within rows : forall w r w',
  forEach rows reconcileRow w = Some (r, w') ->
  within (4 * length rows) (length rows) w w'.
Proof.
  induction rows as [|f rows IH]; intros w r w'; cbn [forEach].
  - intros [= <- <-]. apply within_refl.
  - unfold bind. destruct (reconcileRow f w) as [[[u|e] w1]|] eqn:Er; [| |discriminate].
    + intros Hrest. apply IH in Hrest.
      eapply within_weaken;
        [| |eapply within_trans; [eapply reconcileRow_within; exact Er|exact Hrest]];
        cbn [length]; lia.
    + intros [= <- <-].
      eapply within_weaken; [| |eapply reconcileRow_within; exact Er]; cbn [length]; lia.
Qed.

Lemma select_broadcast_length n t : (length (Db.select_broadcast n t) <= n)%nat.
Proof. unfold Db.select_broadcast. rewrite length_map, length_firstn. lia. Qed.

Lemma reconcileLoop_within n : forall w r w',
  reconcileLoop cfg n w = Some (r, w') ->
  within (n * (4 * BATCH cfg)) (n * (1 + BATCH cfg)) w w'.
Proof.
  induction n as [|n IH]; intros w r w'; cbn [reconcileLoop].
  - intros [= <- <-]. apply within_refl.
  - unfold bind at 1, lift.
    pose proof (within_query (SelectBroadcast (BATCH cfg)) w) as Hq.
    cbn [query fst snd Db.rows Db.exec] in *.
    pose proof (select_broadcast_length (BATCH cfg) (db w)) as Hlen.
    set (rows := Db.select_broadcast (BATCH cfg) (db w)) in *.
    set (w1 := set_db (db w) (log (EvSql (SelectBroadcast (BATCH cfg))) w)) in *.
    assert (Hq' : within (S n * (4 * BATCH cfg)) (S n * (1 + BATCH cfg)) w w1).
    { eapply within_weaken; [| |exact Hq]; cbn [Nat.mul]; lia. }
    destruct (length rows =? 0)%nat; [intros [= <- <-]; exact Hq'|].
    unfold bind.
    destruct (forEach rows reconcileRow w1) as [[[u|e] w2]|] eqn:Ef; [| |discriminate].
    + pose proof (forEach_within _ _ _ _ Ef) as Hf.
      assert (H2 : within (4 * BATCH cfg) (1 + BATCH cfg) w w2).
      { eapply within_weaken; [| |eapply within_trans; [exact Hq|exact Hf]]; lia. }
      destruct (length rows <? BATCH cfg)%nat.
      * intros [= <- <-]. eapply within_weaken; [| |exact H2]; cbn [Nat.mul]; lia.
      * intros Hrest. apply IH in Hrest.
        eapply within_weaken; [| |eapply within_trans; [exact H2|exact Hrest]];
          cbn [Nat.mul]; lia.
    + intros [= <- <-]. pose proof (forEach_within _ _ _ _ Ef) as Hf.
      eapply within_weaken; [| |eapply within_trans; [exact Hq|exact Hf]];
        cbn [Nat.mul]; lia.
Qed.

(** X15. A sweep does a bounded amount of work: it returns having issued at
    most [4 * BATCH * MAX_LOOPS] provider calls and sent at most
    [(1 + BATCH) * MAX_LOOPS] statements - [MAX_LOOPS] batches of at most
    [BATCH] rows, four attempts of the receipt lookup for a row, one [SELECT]
    for a batch and one [UPDATE] for a row. *)
Theorem reconciler_bounded_work w :
  exists w',
    reconcileBroadcastsOnce cfg w = Some (Ok tt, w')
    /\ within (MAX_LOOPS cfg * (4 * BATCH cfg)) (MAX_LOOPS cfg * (1 + BATCH cfg)) w w'.
Proof.
  destruct (reconcileLoop_ok (MAX_LOOPS cfg) w) as (w' & Hr).
  exists w'. split; [exact Hr|]. eapply reconcileLoop_within. exact Hr.
Qed.

End SweepFacts.

(** *** A sweep changes rows in status broadcast only *)

Section SweepRows.
Import Retry Reconciler.

Context {Chain : Type} `{Provider Chain}.
Variable cfg : Config.
Implicit Types (w : World Chain) (P : Event -> Prop).

Lemma settled_id x y : settled x y -> id y = id x.
Proof. intros [->|(_ & _ & Hi & _)]; [reflexivity|exact Hi]. Qed.

Lemma settled_ids t t' : Forall2 settled t t' -> map id t' = map id t.
Proof.
  induction 1 as [|x y t t' Hxy _ IH]; [reflexivity|].
  cbn. rewrite (settled_id _ _ Hxy), IH. reflexivity.
Qed.

Lemma settled_refl t : Forall2 settled t t.
Proof. induction t; constructor; [left; reflexivity|assumption]. Qed.

Lemma Forall2_In_l {A B} (R : A -> B -> Prop) l l' x :
  Forall2 R l l' -> In x l -> exists y, In y l' /\ R x y.
Proof.
  induction 1 as [|a b l l' Hab _ IH]; cbn; [contradiction|].
  intros [->|Hx]; [exists b; auto|].
  destruct (IH Hx) as (y & Hy & Hr). exists y. auto.
Qed.

Lemma Forall2_map_r_In {A B} (R : A -> B -> Prop) (g : B -> B) l l' :
  Forall2 R l l' ->
  (forall x y, In x l -> R x y -> R x (g y)) ->
  Forall2 R l (map g l').
Proof.
  induction 1 as [|a b l l' Hab _ IH]; intros Hg; cbn; constructor.
  - apply Hg; [left; reflexivity|exact Hab].
  - apply IH. intros x y Hx. apply Hg. right. exact Hx.
Qed.

(** A statement of the sweep for a row that was in status broadcast keeps
    the table [settled]. *)
Lemma exec_settled t0 s i t :
  Settles i (EvSql s) ->
  (forall x, In x t0 -> id x = i -> status x = Broadcast) ->
  Forall2 settled t0 t -> Forall2 settled t0 (Db.exec s t).
Proof.
  intros Hs Hfresh Hinv.
  assert (Hrow : forall set st,
             (forall y, status (set y) = st /\ id (set y) = id y
                        /\ address (set y) = address y /\ ip (set y) = ip y
                        /\ created_at (set y) = created_at y
                        /\ tx_hash (set y) = tx_hash y) ->
             st = Sent \/ st = Failed ->
             Forall2 settled t0
               (Db.update_where (fun r => id r =? i) set t)).
  { intros set st Hset Hst. unfold Db.update_where.
    apply Forall2_map_r_In; [exact Hinv|]. intros x y Hx Hxy. cbn.
    destruct (id y =? i) eqn:Hc; [|exact Hxy]. apply Z.eqb_eq in Hc.
    pose proof (settled_id _ _ Hxy) as Hid.
    assert (Hb : status x = Broadcast) by (apply Hfresh; [exact Hx|congruence]).
    destruct (Hset y) as (H1 & H2 & H3 & H4 & H5 & H6).
    right. split; [exact Hb|]. split; [rewrite H1; exact Hst|].
    destruct Hxy as [->|(_ & _ & Hi & Ha & Hp & Hcr & Hh)].
    - repeat split; assumption.
    - repeat split; congruence. }
  destruct s; cbn [Settles] in Hs; try contradiction; subst; cbn [Db.exec].
  - eapply Hrow; [|right; reflexivity]. intros y. repeat split.
  - eapply Hrow; [|left; reflexivity]. intros y. repeat split.
  - exact Hinv.
Qed.

Lemma replay_settled t0 i evs :
  Forall (Settles i) evs ->
  (forall x, In x t0 -> id x = i -> status x = Broadcast) ->
  forall t, Forall2 settled t0 t -> Forall2 settled t0 (replay evs t).
Proof.
  intros Hf Hfresh. induction Hf as [|e evs He _ IH]; intros t Hinv; [exact Hinv|].
  rewrite replay_cons. apply IH. destruct e as [|s| |]; try exact Hinv.
  eapply exec_settled; eauto.
Qed.

Lemma reconcileRow_settles f : runs (Settles (f_id f)) (reconcileRow f).
Proof.
  unfold reconcileRow. destruct (falsy (f_tx_hash f)).
  - apply runs_bind; [|intros; apply runs_ret].
    apply runs_lift. intros w. apply run_query. reflexivity.
  - apply runs_tryCatch; [|intros; apply runs_ret].
    apply runs_bind; [apply runs_retry_rpc; [exact I|intros; exact I]|].
    intros [rc|]; [|apply runs_ret].
    destruct (num_is (rcpt_status rc) 1).
    + apply runs_bind; [|intros; apply runs_ret].
      apply runs_lift. intros w. apply run_query. reflexivity.
    + destruct (num_is (rcpt_status rc) 0); [|apply runs_ret].
      apply runs_bind; [|intros; apply runs_ret].
      apply runs_lift. intros w. apply run_query. reflexivity.
Qed.

Lemma forEach_settled t0 rows : forall w r w',
  (forall f, In f rows ->
     forall x, In x t0 -> id x = f_id f -> status x = Broadcast) ->
  Forall2 settled t0 (db w) ->
  forEach rows reconcileRow w = Some (r, w') ->
  Forall2 settled t0 (db w').
Proof.
  induction rows as [|f rows IH]; intros w r w' Hfresh Hinv; cbn [forEach].
  - intros [= <- <-]. exact Hinv.
  - unfold bind. destruct (reconcileRow f w) as [[[u|e] w1]|] eqn:Er; [| |discriminate].
    + destruct (reconcileRow_settles f w _ w1 Er) as (evs & _ & Hf & Hd).
      intros Hrest. eapply IH; [| |exact Hrest].
      * intros g Hg. apply Hfresh. right. exact Hg.
      * rewrite Hd. eapply replay_settled; [exact Hf| |exact Hinv].
        apply Hfresh. left. reflexivity.
    + destruct (reconcileRow_settles f w _ w1 Er) as (evs & _ & Hf & Hd).
      intros [= <- <-]. rewrite Hd. eapply replay_settled; [exact Hf| |exact Hinv].
      apply Hfresh. left. reflexivity.
Qed.

(** The rows a [SELECT] fetches from a [settled] table were in status
    broadcast from the start. *)
Lemma select_broadcast_fresh t0 t n f :
  UniqueIds t0 -> Forall2 settled t0 t ->
  In f (Db.select_broadcast n t) ->
  forall x, In x t0 -> id x = f_id f -> status x = Broadcast.
Proof.
  intros Hu Hinv Hf x Hx Hid.
  apply select_broadcast_status in Hf as (y0 & Hy0 & -> & Hs0). cbn in Hid.
  destruct (Forall2_In_l _ _ _ _ Hinv Hx) as (y & Hy & Hxy).
  assert (Hut : UniqueIds t).
  { unfold UniqueIds. rewrite (settled_ids _ _ Hinv). exact Hu. }
  assert (Hyy : y = y0).
  { apply (UniqueIds_eq t); try assumption.
    rewrite (settled_id _ _ Hxy). exact Hid. }
  subst y0. destruct Hxy as [->|(Hb & _)]; assumption.
Qed.

Lemma reconcileLoop_settled t0 n : forall w r w',
  UniqueIds t0 -> Forall2 settled t0 (db w) ->
  reconcileLoop cfg n w = Some (r, w') ->
  Forall2 settled t0 (db w').
Proof.
  induction n as [|n IH]; intros w r w' Hu Hinv; cbn [reconcileLoop].
  - intros [= <- <-]. exact Hinv.
  - unfold bind at 1, lift. cbn [query fst snd Db.rows Db.exec].
    pose proof (fun f => select_broadcast_fresh t0 (db w) (BATCH cfg) f Hu Hinv) as Hfresh.
    set (rows := Db.select_broadcast (BATCH cfg) (db w)) in *.
    set (w1 := set_db (db w) (log (EvSql (SelectBroadcast (BATCH cfg))) w)).
    destruct (length rows =? 0)%nat; [intros [= <- <-]; exact Hinv|].
    unfold bind.
    destruct (forEach rows reconcileRow w1) as [[[u|e] w2]|] eqn:Ef; [| |discriminate];
      pose proof (forEach_settled t0 rows w1 _ w2 Hfresh Hinv Ef) as H2.
    + destruct (length rows <? BATCH cfg)%nat; [intros [= <- <-]; exact H2|].
      intros Hrest. eapply IH; eauto.
    + intros [= <- <-]. exact H2.
Qed.

(** X16. On a table with unique ids, a sweep changes rows in status
    broadcast only, and only by moving them to sent or failed: every row of
    the table after the sweep is the row that was there, or that row - then
    in status broadcast - with status sent or failed and the same id,
    address, ip, creation time and hash. No row is added, removed or
    moved. *)
Theorem reconciler_settles_broadcast_only w :
  UniqueIds (db w) ->
  exists w',
    reconcileBroadcastsOnce cfg w = Some (Ok tt, w')
    /\ Forall2 settled (db w) (db w').
Proof.
  intros Hu. destruct (reconcileLoop_ok cfg (MAX_LOOPS cfg) w) as (w' & Hr).
  exists w'. split; [exact Hr|].
  eapply reconcileLoop_settled; [exact Hu|apply settled_refl|exact Hr].
Qed.

End SweepRows.

(** ** The reconciler lock *)

Section ReconcilerLockFacts.
Import Retry Reconciler.

Context {Chain : Type} `{Provider Chain}.
Variable cfg : Config.
Implicit Types (w : World Chain) (P : Event -> Prop).

(** X17. A successful [tryAcquireLock] excludes the others until the TTL
    has run out or the owner releases: in any later world with the same key
    space and before the expiry, [tryAcquireLock] returns null and changes
    nothing, [releaseLock] with another token changes nothing, and
    [releaseLock] with the owner's token frees the key. *)
Theorem reconciler_lock_exclusive (key : string) (ttlMs : Z) w (token : string) w1 :
  tryAcquireLock key ttlMs w = (Ok (Some token), w1) ->
  forall w2, kv w2 = kv w1 -> now w2 < now w + ttlMs ->
    (forall ttl2,
        fst (tryAcquireLock key ttl2 w2) = Ok None
        /\ kv (snd (tryAcquireLock key ttl2 w2)) = kv w2)
    /\ (forall token2, token2 <> token ->
          kv (snd (releaseLock key token2 w2)) = kv w2)
    /\ Redis.get (now w2) key (kv (snd (releaseLock key token w2))) = None.
Proof.
  unfold tryAcquireLock at 1, randHex. cbn. unfold Redis.set_nx_px.
  destruct (Redis.get (now w) key (kv w)); [discriminate|].
  intros [= <- <-] w2 Hkv Hnow. cbn in Hkv.
  assert (Hg : Redis.get (now w2) key (kv w2) = Some (VStr (tok w 0%nat))).
  { unfold Redis.get. rewrite Hkv, lookup_insert_eq. unfold Redis.live. cbn.
    replace (now w2 <=? now w + ttlMs) with true by (symmetry; apply Z.leb_le; lia).
    reflexivity. }
  split; [|split].
  - intros ttl2. eapply tryAcquireLock_held. exact Hg.
  - intros token2 Hne. apply releaseLock_stranger. rewrite Hg. congruence.
  - rewrite (releaseLock_owner _ _ _ Hg). unfold Redis.get.
    rewrite lookup_delete_eq. reflexivity.
Qed.

(** X18. While the reconciler lock is held, a cycle is skipped: the only
    effects are the refused [SET] and the increment of [reconciler:skips];
    no statement is sent, no provider method is called, and the lock is as it
    was. *)
Theorem reconciler_skips_when_locked w (v : RVal) :
  Redis.get (now w) LOCK_KEY (kv w) = Some v ->
  exists w',
    reconcileBroadcastsWithLock cfg w = Some (Ok tt, w')
    /\ db w' = db w /\ chain w' = chain w /\ now w' = now w
    /\ trace w' = trace w ++ [EvRedis (RSetNxPx LOCK_KEY (tok w 0%nat) (LOCK_TTL_MS cfg));
                               EvRedis (RIncrBy "reconciler:skips" 1)]
    /\ kv w' !! LOCK_KEY = kv w !! LOCK_KEY
    /\ match Redis.get (now w) "reconciler:skips" (kv w) with
       | Some (VInt k) =>
           Redis.get (now w') "reconciler:skips" (kv w') = Some (VInt (k + 1))
       | Some (VStr _) => kv w' = kv w
       | None => Redis.get (now w') "reconciler:skips" (kv w') = Some (VInt 1)
       end.
Proof.
  intros Hg. unfold reconcileBroadcastsWithLock, bind at 1, lift.
  unfold tryAcquireLock, randHex. cbn. unfold Redis.set_nx_px. rewrite Hg.
  cbn. unfold bind, lift, countSkip. cbn.
  unfold Redis.incrby, Redis.get, Redis.live.
  destruct (kv w !! "reconciler:skips") as [[val exp]|] eqn:Hs; cbn.
  - destruct exp as [t|]; cbn.
    + destruct (now w <=? t) eqn:Hl.
      * destruct val as [s|k]; eexists; (split; [reflexivity|]); cbn;
          repeat split; try (rewrite <- app_assoc; reflexivity).
        -- apply lookup_insert_ne. discriminate.
        -- rewrite lookup_insert_eq. cbn. rewrite Hl. reflexivity.
      * eexists; (split; [reflexivity|]); cbn;
          repeat split; try (rewrite <- app_assoc; reflexivity).
        -- apply lookup_insert_ne. discriminate.
        -- rewrite lookup_insert_eq. reflexivity.
    + destruct val as [s|k]; eexists; (split; [reflexivity|]); cbn;
        repeat split; try (rewrite <- app_assoc; reflexivity).
      * apply lookup_insert_ne. discriminate.
      * rewrite lookup_insert_eq. reflexivity.
  - eexists; (split; [reflexivity|]); cbn;
      repeat split; try (rewrite <- app_assoc; reflexivity).
    + apply lookup_insert_ne. discriminate.
    + rewrite lookup_insert_eq. reflexivity.
Qed.

Lemma same_keys_refl w : same_keys w w.
Proof. split; [reflexivity|lia]. Qed.

Lemma same_keys_trans w1 w2 w3 : same_keys w1 w2 -> same_keys w2 w3 -> same_keys w1 w3.
Proof. intros [H1 H1'] [H2 H2']. split; [congruence|lia]. Qed.

Lemma same_keys_query s w : same_keys w (snd (query s w)).
Proof. split; [reflexivity|cbn; lia]. Qed.

Lemma same_keys_retry_rpc {A} c (f : Chain -> Res A * Chain) :
  follows same_keys (retryRpc_default (rpc c f)).
Proof.
  apply follows_retryRpc.
  - exact same_keys_trans.
  - intros w. unfold rpc. cbn. destruct (f (chain w)). split; [reflexivity|cbn; lia].
  - intros a w. unfold backoff. split; [reflexivity|].
    cbn [now advance log next_rnd].
    match goal with
    | |- context [backoffDelay ?b ?x ?y] => pose proof (backoffDelay_range b x y)
    end.
    lia.
Qed.

Lemma reconcileRow_same_keys f : follows same_keys (reconcileRow f).
Proof.
  pose proof same_keys_refl as Hr. pose proof same_keys_trans as Ht.
  unfold reconcileRow. destruct (falsy (f_tx_hash f)).
  - apply follows_bind; [assumption| |intros; apply follows_ret; assumption].
    apply follows_lift. apply same_keys_query.
  - apply follows_tryCatch; [assumption| |intros; apply follows_ret; assumption].
    apply follows_bind; [assumption|apply same_keys_retry_rpc|].
    intros [rc|]; [|apply follows_ret; assumption].
    destruct (num_is (rcpt_status rc) 1).
    + apply follows_bind; [assumption| |intros; apply follows_ret; assumption].
      apply follows_lift. apply same_keys_query.
    + destruct (num_is (rcpt_status rc) 0); [|apply follows_ret; assumption].
      apply follows_bind; [assumption| |intros; apply follows_ret; assumption].
      apply follows_lift. apply same_keys_query.
Qed.

Lemma forEach_same_keys rows : follows same_keys (forEach rows reconcileRow).
Proof.
  induction rows as [|f rows IH]; cbn [forEach].
  - apply follows_ret. exact same_keys_refl.
  - apply follows_bind; [exact same_keys_trans|apply reconcileRow_same_keys|].
    intros _. exact IH.
Qed.

Lemma reconcileLoop_same_keys n : follows same_keys (reconcileLoop cfg n).
Proof.
  pose proof same_keys_refl as Hr. pose proof same_keys_trans as Ht.
  induction n as [|n IH]; cbn [reconcileLoop]; [apply follows_ret; assumption|].
  apply follows_bind; [assumption|apply follows_lift; apply same_keys_query|].
  intros rows. destruct (length rows =? 0)%nat; [apply follows_ret; assumption|].
  apply follows_bind; [assumption|apply forEach_same_keys|]. intros _.
  destruct (length rows <? BATCH cfg)%nat; [apply follows_ret; assumption|exact IH].
Qed.

(** X19. A cycle that finds the reconciler lock free takes it with a fresh
    token, sweeps, and releases with the same token; when the cycle returns
    the lock is free again, whether it was released or had expired during the
    sweep. *)
Theorem reconciler_frees_lock w :
  Redis.get (now w) LOCK_KEY (kv w) = None ->
  tok w 0%nat <> "" ->
  exists w' evs,
    reconcileBroadcastsWithLock cfg w = Some (Ok tt, w')
    /\ trace w' =
       trace w ++ EvRedis (RSetNxPx LOCK_KEY (tok w 0%nat) (LOCK_TTL_MS cfg))
                  :: evs ++ [EvRedis (REvalUnlock LOCK_KEY (tok w 0%nat))]
    /\ Redis.get (now w') LOCK_KEY (kv w') = None.
Proof.
  intros Hg Htok. unfold reconcileBroadcastsWithLock, bind at 1, lift.
  unfold tryAcquireLock, randHex. cbn. unfold Redis.set_nx_px. rewrite Hg.
  assert (Hf : falsy (Some (tok w 0%nat)) = false).
  { cbn. apply String.eqb_neq. exact Htok. }
  rewrite Hf. change (default "" (Some (tok w 0%nat))) with (tok w 0%nat).
  set (token := tok w 0%nat) in *.
  set (e := {| r_val := VStr token; r_exp := Some (now w + LOCK_TTL_MS cfg) |}).
  set (w1 := set_kv _ _).
  unfold tryFinally, reconcileBroadcastsOnce.
  destruct (reconcileLoop_ok cfg (MAX_LOOPS cfg) w1) as (w2 & Hl). rewrite Hl.
  destruct (reconcileLoop_same_keys _ _ _ _ Hl) as [Hkv Hnow].
  pose proof (reconcileLoop_within cfg _ _ _ _ Hl) as (evs & Ht & _).
  unfold lift, releaseLock. cbn.
  destruct (Redis.eval_unlock (now w2) LOCK_KEY token (kv w2)) as [n kv'] eqn:Hu.
  exists (set_kv kv' (log (EvRedis (REvalUnlock LOCK_KEY token)) w2)), evs.
  split; [reflexivity|]. split.
  - cbn. rewrite Ht. unfold w1. cbn. rewrite <- !app_assoc. reflexivity.
  - cbn. revert Hu. unfold Redis.eval_unlock, Redis.del, Redis.get.
    rewrite Hkv. unfold w1. cbn. rewrite lookup_insert_eq.
    destruct (Redis.live (now w2) e) eqn:Hlive.
    + cbn. rewrite String.eqb_refl. intros [= _ <-].
      rewrite lookup_delete_eq. reflexivity.
    + intros [= _ <-]. rewrite lookup_insert_eq, Hlive. reflexivity.
Qed.

End ReconcilerLockFacts.

(** ** Fees *)

Section FeeFacts.
Import Retry Worker.

Context {Chain : Type} `{Provider Chain}.
Variable cfg : Config.
Implicit Types (w : World Chain).

(** A bump by a factor of at least 1 does not lower a fee. *)
Lemma bumpBig_ge (x : Z) (mult : Q) (y : Z) :
  (1 <= mult)%Q -> bumpBig x mult = Ok y -> 0 <= x -> x <= y.
Proof.
  intros Hm Hb Hx. unfold bumpBig in Hb.
  destruct (percent_ge mult Hm) as [E|(m & E & Hge)]; rewrite E in Hb; [discriminate|].
  cbv beta iota in Hb. rewrite Qfloor_Z in Hb. injection Hb as <-.
  apply Z.quot_le_lower_bound; [lia|nia].
Qed.

(** X20. With [MAX_FEE_BUMP_MULT] at least 1, each fee [getFeeSuggestion]
    returns is at least the figure it was computed from: the provider's, or
    where the provider reports null, 1 gwei for the gas price, half the gas
    price for the priority fee, and gas price plus priority fee for the
    maximum fee. *)
Theorem getFeeSuggestion_at_least w (s : FeeSuggestion) w' :
  (1 <= MAX_FEE_BUMP_MULT cfg)%Q ->
  getFeeSuggestion cfg w = Some (Ok s, w') ->
  exists w1 fee,
    rpc CGetFeeData getFeeData w1 = (Ok fee, w')
    /\ let g := default (10 ^ 9) (fd_gasPrice fee) in
       let p := default (Z.quot g 2) (fd_maxPriorityFeePerGas fee) in
       let f := default (g + p) (fd_maxFeePerGas fee) in
       (0 <= g -> g <= gasPrice s)
       /\ (0 <= p -> p <= maxPriorityFeePerGas s)
       /\ (0 <= f -> f <= maxFeePerGas s).
Proof.
  intros Hm. unfold getFeeSuggestion, bind.
  destruct (retryRpc_default _ w) as [[[fee|e] w1]|] eqn:Hr; try discriminate.
  destruct (bumpBig _ _) as [b1|] eqn:E1; [|discriminate].
  destruct (bumpBig _ _) as [b2|] eqn:E2 in |- *; [|discriminate].
  destruct (bumpBig _ _) as [b3|] eqn:E3 in |- *; [|discriminate].
  cbn [ret]. intros [= <- <-].
  assert (Hlast : exists w0,
             run (fun _ => True) w w0 /\ rpc CGetFeeData getFeeData w0 = (Ok fee, w1)).
  { eapply (retryLoop_ok_last (fun _ => True)); [| |exact Hr].
    - intros w0. apply run_rpc. exact I.
    - intros ms. exact I. }
  destruct Hlast as (w0 & _ & Hlast).
  exists w0, fee. split; [exact Hlast|]. cbn.
  repeat split; intros Hx;
    [eapply bumpBig_ge; [exact Hm|exact E3|exact Hx]
    |eapply bumpBig_ge; [exact Hm|exact E1|exact Hx]
    |eapply bumpBig_ge; [exact Hm|exact E2|exact Hx]].
Qed.

End FeeFacts.

(** ** The processor does not read the table *)

Section BlindFacts.
Import Retry Worker.

Context {Chain : Type} `{Provider Chain}.
Variable cfg : Config.
Implicit Types (w : World Chain).

Lemma oblivious_ret {A} (a : A) : oblivious (ret (Chain := Chain) a).
Proof.
  intros w r w' [= <- <-]. exists []. split; [symmetry; apply app_nil_r|].
  split; reflexivity.
Qed.

Lemma oblivious_throw {A} e : oblivious (throw (Chain := Chain) (A := A) e).
Proof.
  intros w r w' [= <- <-]. exists []. split; [symmetry; apply app_nil_r|].
  split; reflexivity.
Qed.

Lemma oblivious_res {A} (x : Res A) : oblivious (fun w : World Chain => Some (x, w)).
Proof.
  intros w r w' [= <- <-]. exists []. split; [symmetry; apply app_nil_r|].
  split; reflexivity.
Qed.

Lemma oblivious_bind {A B} (m : M Chain A) (k : A -> M Chain B) :
  oblivious m -> (forall a, oblivious (k a)) -> oblivious (bind m k).
Proof.
  intros Hm Hk w r w'. unfold bind.
  destruct (m w) as [[[a|e] w1]|] eqn:Em; [| |discriminate].
  - intros Hr. destruct (Hm _ _ _ Em) as (e1 & Ht1 & Hd1 & Hb1).
    destruct (Hk a _ _ _ Hr) as (e2 & Ht2 & Hd2 & Hb2).
    exists (e1 ++ e2). split; [rewrite Ht2, Ht1, app_assoc; reflexivity|].
    split; [rewrite Hd2, Hd1, replay_app; reflexivity|].
    intros t. rewrite Hb1, replay_app.
    specialize (Hb2 (replay e1 t)). exact Hb2.
  - intros [= <- <-]. destruct (Hm _ _ _ Em) as (e1 & Ht1 & Hd1 & Hb1).
    exists e1. split; [exact Ht1|]. split; [exact Hd1|].
    intros t. rewrite Hb1. reflexivity.
Qed.

Lemma oblivious_tryCatch {A} (m : M Chain A) (h : JsError -> M Chain A) :
  oblivious m -> (forall e, oblivious (h e)) -> oblivious (tryCatch m h).
Proof.
  intros Hm Hh w r w'. unfold tryCatch.
  destruct (m w) as [[[a|e] w1]|] eqn:Em; [| |discriminate].
  - intros [= <- <-]. destruct (Hm _ _ _ Em) as (e1 & Ht1 & Hd1 & Hb1).
    exists e1. split; [exact Ht1|]. split; [exact Hd1|].
    intros t. rewrite Hb1. reflexivity.
  - intros Hr. destruct (Hm _ _ _ Em) as (e1 & Ht1 & Hd1 & Hb1).
    destruct (Hh e _ _ _ Hr) as (e2 & Ht2 & Hd2 & Hb2).
    exists (e1 ++ e2). split; [rewrite Ht2, Ht1, app_assoc; reflexivity|].
    split; [rewrite Hd2, Hd1, replay_app; reflexivity|].
    intros t. rewrite Hb1, replay_app.
    specialize (Hb2 (replay e1 t)). exact Hb2.
Qed.

Lemma oblivious_tryFinally {A} (m : M Chain A) (fin : M Chain unit) :
  oblivious m -> oblivious fin -> oblivious (tryFinally m fin).
Proof.
  intros Hm Hf w r w'. unfold tryFinally.
  destruct (m w) as [[r1 w1]|] eqn:Em; [|discriminate].
  destruct (fin w1) as [[r2 w2]|] eqn:Ef; [|destruct r1; discriminate].
  destruct (Hm _ _ _ Em) as (e1 & Ht1 & Hd1 & Hb1).
  destruct (Hf _ _ _ Ef) as (e2 & Ht2 & Hd2 & Hb2).
  intros Hr. exists (e1 ++ e2).
  split; [|split].
  - destruct r2; injection Hr as _ <-; rewrite Ht2, Ht1, app_assoc; reflexivity.
  - destruct r2; injection Hr as _ <-; rewrite Hd2, Hd1, replay_app; reflexivity.
  - intros t. rewrite Hb1. specialize (Hb2 (replay e1 t)). rewrite Hb2.
    rewrite replay_app. destruct r2; injection Hr as <- <-; reflexivity.
Qed.

(** An operation that neither reads nor writes the table. *)
Lemma oblivious_lift {A} (op : Op Chain A) (evs : World Chain -> list Event) :
  (forall w, trace (snd (op w)) = trace w ++ evs w
             /\ Forall NoSql (evs w) /\ db (snd (op w)) = db w
             /\ forall t, op (set_db t w) = (fst (op w), set_db t (snd (op w)))) ->
  oblivious (lift op).
Proof.
  intros Hop w r w' [= Hr]. destruct (Hop w) as (Ht & Hn & Hd & Hb).
  rewrite Hr in *. cbn [fst snd] in *.
  exists (evs w). split; [exact Ht|].
  split; [rewrite replay_no_sql; [exact Hd|exact Hn]|].
  intros t. unfold lift. rewrite Hb, replay_no_sql; [reflexivity|exact Hn].
Qed.

Lemma oblivious_rpc {A} c (f : Chain -> Res A * Chain) : oblivious (lift (rpc c f)).
Proof.
  apply (oblivious_lift _ (fun _ => [EvRpc c])). intros w. unfold rpc. cbn.
  destruct (f (chain w)) as [r ch]. cbn.
  repeat split. repeat constructor.
Qed.

Lemma oblivious_random : oblivious (lift (random (Chain := Chain))).
Proof.
  apply (oblivious_lift _ (fun _ => [])). intros w. unfold random. cbn.
  repeat split; [symmetry; apply app_nil_r|constructor].
Qed.

Lemma oblivious_sleep ms : oblivious (lift (sleep (Chain := Chain) ms)).
Proof.
  apply (oblivious_lift _ (fun _ => [EvSleep (inject_Z (timeout ms))])).
  intros w. unfold sleep. cbn [fst snd trace log advance db now kv].
  repeat split. repeat constructor.
Qed.

Lemma oblivious_acquireLock key ttl : oblivious (lift (acquireLock (Chain := Chain) key ttl)).
Proof.
  apply (oblivious_lift _ (fun _ => [EvRedis (RSetNxEx key "1" ttl)])).
  intros w. unfold acquireLock. cbn.
  destruct (Redis.set_nx_px _ _ _ _ _) as [ok kv']. cbn.
  repeat split. repeat constructor.
Qed.

Lemma oblivious_releaseLock key : oblivious (lift (releaseLock (Chain := Chain) key)).
Proof.
  apply (oblivious_lift _ (fun _ => [EvRedis (RDel key)])).
  intros w. unfold releaseLock. cbn.
  destruct (Redis.del _ _ _) as [n kv']. cbn.
  repeat split. repeat constructor.
Qed.

(** An [UPDATE] returns no rows, whatever the table. *)
Lemma oblivious_update s :
  match s with SelectBroadcast _ => False | _ => True end ->
  oblivious (lift (query (Chain := Chain) s)).
Proof.
  intros Hs w r w' [= <- <-]. exists [EvSql s]. split; [reflexivity|].
  split; [reflexivity|]. intros t. unfold lift, query. cbn.
  destruct s; try contradiction; reflexivity.
Qed.

Lemma oblivious_retryLoop {T} (fn : Op Chain T) mr bd fuel :
  oblivious (lift fn) -> forall a, oblivious (retryLoop fn mr bd fuel a).
Proof.
  intros Hfn. induction fuel as [|fuel IH]; intros a; cbn [retryLoop].
  - intros w r w'. discriminate.
  - apply oblivious_tryCatch; [exact Hfn|]. intros err.
    destruct (failFast err || (mr <=? a)%nat || negb (isRetryableError err));
      [apply oblivious_throw|].
    apply oblivious_bind; [apply oblivious_random|]. intros r.
    apply oblivious_bind; [apply oblivious_sleep|]. intros _. apply IH.
Qed.

Lemma oblivious_retry_rpc {A} c (f : Chain -> Res A * Chain) :
  oblivious (retryRpc_default (rpc c f)).
Proof. apply oblivious_retryLoop. apply oblivious_rpc. Qed.

Lemma oblivious_acquireLockLoop key ttl n :
  forall delay, oblivious (acquireLockLoop (Chain := Chain) key ttl n delay).
Proof.
  induction n as [|n IH]; intros delay; cbn [acquireLockLoop].
  - apply oblivious_ret.
  - apply oblivious_bind; [apply oblivious_acquireLock|].
    intros [|]; [apply oblivious_ret|].
    apply oblivious_bind; [apply oblivious_random|]. intros r.
    apply oblivious_bind; [apply oblivious_sleep|]. intros _. apply IH.
Qed.

Lemma oblivious_processor job : oblivious (processor cfg job).
Proof.
  unfold processor. destruct (negb (isAddress (j_address job))).
  { apply oblivious_bind; [apply oblivious_update; exact I|intros; apply oblivious_ret]. }
  apply oblivious_bind; [apply oblivious_acquireLockLoop|].
  intros got. destruct (negb got); [apply oblivious_throw|].
  apply oblivious_tryFinally; [|apply oblivious_releaseLock].
  apply oblivious_tryCatch.
  - unfold submit. apply oblivious_bind.
    + unfold broadcast.
      apply oblivious_bind; [apply oblivious_res|]. intros a.
      apply oblivious_bind.
      { apply oblivious_tryCatch; [apply oblivious_retry_rpc|intros; apply oblivious_ret]. }
      intros g. apply oblivious_bind.
      { unfold getFeeSuggestion.
        apply oblivious_bind; [apply oblivious_retry_rpc|intros fee].
        do 3 (apply oblivious_bind; [apply oblivious_res|intros ?]).
        apply oblivious_ret. }
      intros fees. apply oblivious_bind.
      { unfold ensureBalanceCovers. apply oblivious_bind; [apply oblivious_retry_rpc|].
        intros bal. destruct (bal <? _); [apply oblivious_throw|apply oblivious_ret]. }
      intros _. apply oblivious_bind; [apply oblivious_retry_rpc|]. intros h.
      apply oblivious_bind; [apply oblivious_update; exact I|intros; apply oblivious_ret].
    + intros h. unfold confirm. apply oblivious_tryCatch.
      * apply oblivious_bind; [apply oblivious_retry_rpc|]. intros _.
        apply oblivious_bind; [apply oblivious_update; exact I|intros; apply oblivious_ret].
      * intros e. destruct (isWaitTimeout e); [apply oblivious_ret|apply oblivious_throw].
  - intros e. unfold catchAll.
    apply oblivious_bind; [apply oblivious_update; exact I|]. intros _.
    destruct (isPermanentError e); [apply oblivious_ret|].
    destruct (negb (isRetryableError e)); [apply oblivious_ret|apply oblivious_throw].
Qed.

(** X21. The processor never reads the request table: on any other table
    it returns or throws the same, issues the same provider calls and Redis
    commands, and sends the same statements. In particular whether it submits
    a transaction for a job does not depend on the status of the job's row,
    nor on there being such a row. *)
Theorem processor_ignores_table (job : DripJob) w (t : Table) :
  exists r w' evs,
    processor cfg job w = Some (r, w')
    /\ trace w' = trace w ++ evs
    /\ processor cfg job (set_db t w) = Some (r, set_db (replay evs t) w').
Proof.
  destruct (processor_returns cfg job w) as (r & w' & Hp).
  destruct (oblivious_processor job w r w' Hp) as (evs & Ht & _ & Hb).
  exists r, w', evs. split; [exact Hp|]. split; [exact Ht|apply Hb].
Qed.

End BlindFacts.

Section FurtherRuns.
Import Retry Worker Reconciler Scenario Cases.

(** The happy path: the request ends sent with the hash of its
    transaction. *)
Lemma processor_confirmed_witness :
  exists w',
    processor cfg0 job1 (world0 (healthy "0x111") queued1) = Some (Ok tt, w')
    /\ summary (db w') = [(1, Sent, Some "0x111")].
Proof.
  edestruct (processor_confirmed cfg0 job1 (world0 (healthy "0x111") queued1))
    as (w' & Hp & Hdb & _).
  - reflexivity.
  - vm_compute. reflexivity.
  - vm_compute. reflexivity.
  - vm_compute. reflexivity.
  - exists w'. split; [exact Hp|]. rewrite Hdb. vm_compute. reflexivity.
Defined.

(** The queued row is left alone; the row in flight is moved to sent. *)
Lemma reconciler_settles_broadcast_only_witness :
  exists w',
    reconcileBroadcastsOnce cfg0 sweep_mixed = Some (Ok tt, w')
    /\ Forall2 settled queued_and_broadcast (db w')
    /\ summary (db w') = [(1, Queued, None); (2, Sent, Some "0xa")].
Proof.
  destruct (reconciler_settles_broadcast_only cfg0 sweep_mixed) as (w' & Hr & Hs).
  - unfold UniqueIds. cbn. apply NoDup_cons. split; [|apply NoDup_singleton].
    intros Hin. apply list_elem_of_In in Hin. destruct Hin as [Hin|[]]. discriminate Hin.
  - exists w'. split; [exact Hr|]. split; [exact Hs|].
    vm_compute in Hr. injection Hr as <-. reflexivity.
Defined.

(** One second after the lock was taken with token 0deadbeef, a second
    acquire is refused and the owner's release frees the key. *)
Lemma reconciler_lock_exclusive_witness :
  exists w1,
    tryAcquireLock LOCK_KEY 55000 (world0 (healthy "0x111") [])
      = (Ok (Some "0deadbeef"), w1)
    /\ fst (tryAcquireLock LOCK_KEY 55000 (advance 1000 w1)) = Ok None
    /\ Redis.get 1000 LOCK_KEY
         (kv (snd (releaseLock LOCK_KEY "0deadbeef" (advance 1000 w1)))) = None.
Proof.
  set (w1 := snd (tryAcquireLock LOCK_KEY 55000 (world0 (healthy "0x111") []))).
  exists w1. split; [reflexivity|].
  destruct (reconciler_lock_exclusive LOCK_KEY 55000 (world0 (healthy "0x111") [])
              "0deadbeef" w1 eq_refl (advance 1000 w1) eq_refl)
    as (Ha & _ & Hr).
  - reflexivity.
  - split; [apply (Ha 55000)|exact Hr].
Defined.

(** With the lock held elsewhere the cycle is skipped and counted. *)
Lemma reconciler_skips_when_locked_witness :
  exists w',
    reconcileBroadcastsWithLock cfg0 sweep_locked = Some (Ok tt, w')
    /\ db w' = three_broadcast
    /\ Redis.get 0 "reconciler:skips" (kv w') = Some (VInt 1).
Proof.
  edestruct (reconciler_skips_when_locked cfg0 sweep_locked)
    as (w' & Hr & Hdb & _ & Hnow & _ & _ & Hc).
  - vm_compute. reflexivity.
  - exists w'. split; [exact Hr|]. split; [exact Hdb|].
    rewrite Hnow in Hc. exact Hc.
Defined.

(** A cycle on the three broadcast rows leaves the reconciler lock free. *)
Lemma reconciler_frees_lock_witness :
  exists w',
    reconcileBroadcastsWithLock cfg0 sweep_world = Some (Ok tt, w')
    /\ Redis.get (now w') LOCK_KEY (kv w') = None.
Proof.
  destruct (reconciler_frees_lock cfg0 sweep_world) as (w' & evs & Hr & _ & Hg).
  - reflexivity.
  - discriminate.
  - exists w'. split; [exact Hr|exact Hg].
Defined.

(** On the healthy endpoint, which reports a gas price of 1 gwei and no
    EIP-1559 figures, the fees suggested are at least 1 gwei and 1.5 gwei. *)
Lemma getFeeSuggestion_at_least_witness :
  exists s w',
    getFeeSuggestion cfg0 (world0 (healthy "0x111") []) = Some (Ok s, w')
    /\ 1000000000 <= gasPrice s /\ 1500000000 <= maxFeePerGas s.
Proof.
  edestruct (getFeeSuggestion_at_least cfg0 (world0 (healthy "0x111") []))
    as (w1 & fee & Hlast & Hfee).
  - unfold Qle. cbn. lia.
  - vm_compute. reflexivity.
  - eexists _, _. split; [vm_compute; reflexivity|].
    split; reflexivity || (cbn; lia).
Defined.

End FurtherRuns.

(** ** A batch that stays pending *)

Section PendingBatch.
Import Retry Reconciler.

Context {Chain : Type} `{Provider Chain}.
Variable cfg : Config.
Implicit Types (w : World Chain).

(** The endpoint has no receipt yet, for any hash, and stays so. *)
Variable Pending : Chain -> Prop.
Hypothesis Pending_lookup :
  forall c h, Pending c ->
    fst (getTransactionReceipt h c) = Ok None
    /\ Pending (snd (getTransactionReceipt h c)).





End PendingBatch.

Section PendingBatchRuns.
Import Retry Reconciler Scenario Cases.


End PendingBatchRuns.

(** ** The checkpoint *)

Section Checkpoint.
Import Retry Worker.

Context {Chain : Type} `{Provider Chain}.
Variable cfg : Config.
Implicit Types (w : World Chain).

(** [broadcast] is [prepare], the submission, and the statement that
    records the hash the submission returned. *)
Lemma broadcast_of_prepare job w0 req w1 h w2 :
  prepare cfg job w0 = Some (Ok req, w1) ->
  send req w1 = Some (Ok h, w2) ->
  broadcast cfg job w0 = Some (Ok h, snd (query (SetBroadcast h (requestId job)) w2)).
Proof.
  unfold prepare, broadcast, send. unfold bind.
  destruct (parseEther (DRIP_AMOUNT cfg)) as [a|e]; [|discriminate].
  destruct (tryCatch _ _ w0) as [[[g|e] wg]|]; try discriminate.
  destruct (getFeeSuggestion cfg wg) as [[[f|e] wf]|]; try discriminate.
  destruct (ensureBalanceCovers cfg _ _ wf) as [[[[]|e] wb]|]; try discriminate.
  cbn [ret]. intros [= <- <-] Hs. rewrite Hs. reflexivity.
Qed.

(** Before the submission there is no confirmation wait and no statement. *)
Lemma prepare_runs job : runs Quiet (prepare cfg job).
Proof.
  unfold prepare.
  apply runs_bind; [apply runs_res|intros amountWei].
  apply runs_bind; [|intros gasLimit].
  { apply runs_tryCatch; [|intros; apply runs_ret].
    apply runs_retry_rpc; [split; reflexivity|apply Quiet_sleep]. }
  apply runs_bind; [|intros fees].
  { apply getFeeSuggestion_runs; [split; reflexivity|apply Quiet_sleep]. }
  apply runs_bind; [|intros _; apply runs_ret].
  apply ensureBalanceCovers_runs; [split; reflexivity|apply Quiet_sleep].
Qed.

(** A provider call under [retryRpc] is the first thing that happens. *)
Lemma retry_rpc_first {A} c (f : Chain -> Res A * Chain) w r w1 :
  retryRpc_default (rpc c f) w = Some (r, w1) ->
  exists evs, trace w1 = trace w ++ EvRpc c :: evs.
Proof.
  unfold retryRpc_default, retryRpc. rewrite retryLoop_step.
  destruct (rpc_effects c f w) as (Ht & _).
  destruct (rpc c f w) as [[v|e] wa]; cbn [snd] in Ht.
  - intros [= <- <-]. exists []. exact Ht.
  - destruct (failFast e || _ || _); [intros [= <- <-]; exists []; exact Ht|].
    intros Hr.
    assert (Hrun : run (fun _ => True) (backoff (500 # 1) 0 wa) w1).
    { eapply (runs_retryLoop (fun _ => True)); [| |exact Hr].
      - intros w0. apply run_rpc. exact I.
      - intros; exact I. }
    destruct Hrun as (evs & Hte & _). eexists (_ :: evs).
    rewrite Hte. unfold backoff. cbn [trace advance log next_rnd]. rewrite Ht.
    rewrite <- !app_assoc. reflexivity.
Qed.

(** What [confirm] does, by the outcome of the retried wait. *)
Lemma confirm_eq i h w :
  confirm cfg i h w =
  match retryRpc_default
          (rpc (CWaitForTransaction h 1 (TX_WAIT_TIMEOUT_MS cfg))
               (waitForTransaction h 1 (TX_WAIT_TIMEOUT_MS cfg))) w with
  | Some (Ok _, wc) => Some (Ok tt, snd (query (SetSentIfHash i h) wc))
  | Some (Throw e, wc) => if isWaitTimeout e then Some (Ok tt, wc) else Some (Throw e, wc)
  | None => None
  end.
Proof.
  unfold confirm, tryCatch. unfold bind at 1.
  destruct (retryRpc_default _ w) as [[[[]|e] wc]|]; try reflexivity.
  destruct (isWaitTimeout e); reflexivity.
Qed.

(** After the checkpoint for [h], the confirmation wait for [h] is the next
    thing that happens, and no other hash is waited for. *)
Lemma after_checkpoint job h w3 r w' :
  tryFinally (tryCatch (confirm cfg (requestId job) h) (catchAll job))
    (lift (releaseLock (lockKey (sender cfg)))) w3 = Some (r, w') ->
  exists post,
    trace w' = trace w3 ++ EvRpc (CWaitForTransaction h 1 (TX_WAIT_TIMEOUT_MS cfg)) :: post
    /\ Forall (WaitsFor h) post.
Proof.
  intros Hrest.
  assert (Hrun : run (WaitsFor h) w3 w').
  { revert Hrest. apply runs_tryFinally.
    - apply runs_tryCatch.
      + eapply runs_weaken; [|apply confirm_runs]. apply CalmOrWait_WaitsFor.
      + intros e. eapply runs_weaken; [|apply catchAll_runs]. apply Calm_WaitsFor.
    - apply runs_lift. intros w1. apply run_releaseLock.
      intros c Hc. discriminate Hc. }
  destruct Hrun as (evs & Ht & Hf & _).
  assert (Hfirst : exists evs', trace w' =
            trace w3 ++ EvRpc (CWaitForTransaction h 1 (TX_WAIT_TIMEOUT_MS cfg)) :: evs').
  { revert Hrest. unfold tryFinally, tryCatch. rewrite confirm_eq.
    destruct (retryRpc_default _ w3) as [[[[]|e] wc]|] eqn:Hw; [| |discriminate].
    - destruct (retry_rpc_first _ _ _ _ _ Hw) as (e1 & He1).
      destruct (releaseLock_trace (lockKey (sender cfg))
                  (snd (query (SetSentIfHash (requestId job) h) wc))) as [Hr _].
      rewrite lift_releaseLock. intros [= <- <-].
      eexists. etransitivity; [exact Hr|]. cbn [query snd trace set_db log]. rewrite He1.
      rewrite <- !app_assoc. reflexivity.
    - destruct (retry_rpc_first _ _ _ _ _ Hw) as (e1 & He1).
      destruct (isWaitTimeout e).
      + destruct (releaseLock_trace (lockKey (sender cfg)) wc) as [Hr _].
        rewrite lift_releaseLock. intros [= <- <-].
        eexists. rewrite Hr, He1. rewrite <- !app_assoc. reflexivity.
      + rewrite catchAll_eq.
        destruct (releaseLock_trace (lockKey (sender cfg))
                    (snd (query (SetFailed (formatReason e) (requestId job)) wc))) as [Hr _].
        rewrite lift_releaseLock. intros [= <- <-].
        eexists. etransitivity; [exact Hr|]. cbn [query snd trace set_db log]. rewrite He1.
        rewrite <- !app_assoc. reflexivity. }
  destruct Hfirst as (post & Hp). exists post. split; [exact Hp|].
  rewrite Hp in Ht. apply app_inv_head in Ht. subst evs.
  inversion Hf; assumption.
Qed.

(** C3. Every run of the processor returns, and each of its confirmation
    waits for a hash comes after the statement that sets the row to status
    broadcast with that hash. When the run reaches the submission - the
    address is valid, the lock is acquired, the transaction [req] is prepared
    - and [sendTransaction(req)] returns the hash [h], then the events of the
    run are: events without a confirmation wait; the call of
    [sendTransaction(req)] that returned [h]; the statement that sets the row
    to status broadcast with hash [h]; the confirmation wait for [h]; and
    events among which every confirmation wait is for [h]. When that first
    wait is issued, every row with the request id is in status broadcast
    with hash [h]. *)
Theorem processor_checkpoint_first (job : DripJob) (w : World Chain) :
  exists r w' evs,
    processor cfg job w = Some (r, w')
    /\ trace w' = trace w ++ evs
    /\ BroadcastBeforeWait (requestId job) evs
    /\ forall w0 req w1 h w2,
         isAddress (j_address job) = true ->
         acquireLockWithBackoff (lockKey (sender cfg)) 15 w = Some (Ok true, w0) ->
         prepare cfg job w0 = Some (Ok req, w1) ->
         send req w1 = Some (Ok h, w2) ->
         exists wa pre post,
           sendTransaction req (chain wa) = (Ok h, chain w2)
           /\ trace wa = trace w ++ pre
           /\ Forall NoWait pre
           /\ evs = pre ++ EvRpc (CSendTransaction req)
                        :: EvSql (SetBroadcast h (requestId job))
                        :: EvRpc (CWaitForTransaction h 1 (TX_WAIT_TIMEOUT_MS cfg))
                        :: post
           /\ Forall (WaitsFor h) post
           /\ (forall x,
                 In x (replay (pre ++ [EvRpc (CSendTransaction req);
                                       EvSql (SetBroadcast h (requestId job))]) (db w)) ->
                 id x = requestId job ->
                 status x = Broadcast /\ tx_hash x = Some h).
Proof.
  destruct (processor_waits_after_checkpoint cfg job w) as (r & w' & evs & Hp & Ht & Hb).
  exists r, w', evs. split; [exact Hp|]. split; [exact Ht|]. split; [exact Hb|].
  intros w0 req w1 h w2 Ha Hl Hprep Hsend.
  set (i := requestId job) in *.
  pose proof (broadcast_of_prepare job w0 req w1 h w2 Hprep Hsend) as Hbc.
  rewrite (processor_locked cfg job w w0 Ha Hl) in Hp. unfold submit in Hp.
  rewrite (try_bind_ok _ _ _ _ _ _ _ Hbc) in Hp.
  destruct (after_checkpoint job h _ r w' Hp) as (post & Htp & Hfp).
  pose proof (acquireLockWithBackoff_runs _ _ w _ w0 Hl) as Hlock.
  pose proof (prepare_runs job w0 _ w1 Hprep) as Hprun.
  assert (Hlast : exists wa,
             run Quiet w1 wa
             /\ rpc (CSendTransaction req) (sendTransaction req) wa = (Ok h, w2)).
  { unfold send, retryRpc_default, retryRpc in Hsend.
    eapply (retryLoop_ok_last Quiet); [| |exact Hsend].
    - intros wx. apply run_rpc. split; reflexivity.
    - apply Quiet_sleep. }
  destruct Hlast as (wa & Hwa & Hrpc).
  pose proof (run_trans _ _ _ _ Hlock (run_trans _ _ _ _ Hprun Hwa)) as (pre & Htpre & Hfpre & _).
  assert (Hw2 : trace w2 = trace wa ++ [EvRpc (CSendTransaction req)]
                /\ sendTransaction req (chain wa) = (Ok h, chain w2)).
  { revert Hrpc. unfold rpc. cbn [chain log].
    destruct (sendTransaction req (chain wa)) as [r0 ch]. intros [= -> <-].
    split; reflexivity. }
  destruct Hw2 as [Htw2 Hch].
  exists wa, pre, post. split; [exact Hch|]. split; [exact Htpre|].
  split; [eapply Forall_impl; [exact Hfpre|]; intros ? [? _]; assumption|].
  split; [|split; [exact Hfp|]].
  - apply (app_inv_head (trace w)). rewrite <- Ht, Htp.
    cbn [query snd trace set_db log]. rewrite Htw2, Htpre.
    rewrite <- !app_assoc. reflexivity.
  - intros x Hx Hid. rewrite replay_app in Hx.
    apply (exec_SetBroadcast_row h i (replay pre (db w)) x); [exact Hx|exact Hid].
Qed.

End Checkpoint.

Section CheckpointRuns.
Import Retry Worker Scenario Cases.

(** A run on a healthy endpoint reaches the submission, which returns
    0x111: the gas estimate, the fee data, the balance and the submission
    are followed by the checkpoint, the confirmation wait, the guarded update
    and the release of the lock. *)
Lemma processor_checkpoint_first_witness :
  exists w' req,
    processor cfg0 job1 (world0 (healthy "0x111") queued1) = Some (Ok tt, w')
    /\ tx_to req = addr1
    /\ summary (db w') = [(1, Sent, Some "0x111")]
    /\ trace w' =
       [ EvRedis (RSetNxEx signer_key "1" 15);
         EvRpc (CEstimateGas addr1 20000000000000000);
         EvRpc CGetFeeData;
         EvRpc (CGetBalance (sender cfg0));
         EvRpc (CSendTransaction req);
         EvSql (SetBroadcast "0x111" 1);
         EvRpc (CWaitForTransaction "0x111" 1 120000);
         EvSql (SetSentIfHash 1 "0x111");
         EvRedis (RDel signer_key) ].
Proof.
  destruct (processor_checkpoint_first cfg0 job1 (world0 (healthy "0x111") queued1))
    as (r & w' & evs & Hp & Ht & _ & Hreach).
  edestruct Hreach as (wa & pre & post & Hs & Hpre & _ & Hevs & _ & _).
  - reflexivity.
  - vm_compute. reflexivity.
  - vm_compute. reflexivity.
  - vm_compute. reflexivity.
  - assert (Hc : processor cfg0 job1 (world0 (healthy "0x111") queued1) = Some (r, w'))
      by exact Hp.
    vm_compute in Hc. injection Hc as <- <-.
    eexists _, _. split; [exact Hp|].
    split; [|split; [reflexivity|vm_compute; reflexivity]].
    reflexivity.
Defined.

(** C5 fails of the code. The confirmation wait runs under [retryRpc], which
    retries the error of a wait that ran out of time (its code contains
    TIMEOUT): the wait is issued again after a backoff, up to four times, and
    what the handler does is decided by a later wait. When the first wait
    times out and the waits that follow fail with HTTP 500, the row is
    written as failed and the job is rejected; when the second wait returns,
    the row is written as sent. *)
Theorem processor_wait_timeout_retried :
  (forall e, JsString.includes "TIMEOUT" (toCode e) = true -> isRetryableError e = true)
  /\ (forall (Chain : Type) (P : Provider Chain) (T : Type) (fn : Op Chain T)
             (w w1 : World Chain) (e : JsError),
        fn w = (Throw e, w1) ->
        isRetryableError e = true ->
        failFast e = false ->
        retryRpc_default fn w = retryLoop fn 3 (500 # 1) 3 1 (backoff (500 # 1) 0 w1))
  /\ (isWaitTimeout wait_timeout = true
      /\ isRetryableError wait_timeout = true
      /\ failFast wait_timeout = false)
  /\ (exists w',
        processor cfg0 job1 (wait_times_out_once (Throw e500)) = Some (Throw e500, w')
        /\ summary (db w') = [(1, Failed, Some "0x111")]
        /\ statements (trace w') =
           [SetBroadcast "0x111" 1; SetFailed "Internal Server Error" 1]
        /\ List.filter is_wait (trace w') =
           repeat (EvRpc (CWaitForTransaction "0x111" 1 120000)) 4
        /\ sleeps (trace w') = [550 # 1; 1100 # 1; 2200 # 1]%Q)
  /\ (exists w',
        processor cfg0 job1 (wait_times_out_once (Ok tt)) = Some (Ok tt, w')
        /\ summary (db w') = [(1, Sent, Some "0x111")]
        /\ statements (trace w') = [SetBroadcast "0x111" 1; SetSentIfHash 1 "0x111"]
        /\ List.filter is_wait (trace w') =
           repeat (EvRpc (CWaitForTransaction "0x111" 1 120000)) 2).
Proof.
  split; [|split; [|split; [|split]]].
  - intros e He. unfold isRetryableError. rewrite He, orb_true_r. reflexivity.
  - intros Chain P T fn w w1 e Hfn Hre Hff.
    unfold retryRpc_default, retryRpc. rewrite retryLoop_step, Hfn, Hre, Hff. reflexivity.
  - repeat split; reflexivity.
  - eexists. split; [vm_compute; reflexivity|]. repeat split; reflexivity.
  - eexists. split; [vm_compute; reflexivity|]. repeat split; reflexivity.
Qed.

End CheckpointRuns.
